(** * The ipcache metadata layer of [pkg/ipcache/metadata.go]

    A shallow embedding of the metadata store (prefix map, per-cluster
    tries, change queue and revisions), of label resolution and of the
    reserved-host merge, followed by the properties proved about them.

    Go maps are finite maps ([gmap]); a Go map that the code mutates in
    place is threaded through the embedding as a value that every
    function returns again, so that a caller observes the mutation.
    Unsigned 64-bit counters are [N] with the wrap-around written out. *)

From Stdlib Require Import ZArith NArith Lia.
From stdpp Require Import gmap strings list fin_maps pretty sorting.

Local Open Scope string_scope.
#[local] Set Warnings "-clear-no-such-hyp".

(** ** [net/netip] (Go standard library): addresses and prefixes *)

Module netip.

(** An address is the zero [Addr], an IPv4 address (32 bits) or an IPv6
    address (128 bits). Zones are not modelled. *)
Inductive Addr : Type :=
| AddrZero
| Addr4 (a : N)
| Addr6 (a : N).

(** [bits = -1] is the invalid prefix, as [Prefix.Bits] reports it. *)
Record Prefix : Type := mkPrefix { ip : Addr; bits : Z }.

Definition zeroPrefix : Prefix := mkPrefix AddrZero (-1).

Definition Addr_IsValid (a : Addr) : bool :=
  match a with AddrZero => false | _ => true end.

Definition Is4 (a : Addr) : bool :=
  match a with Addr4 _ => true | _ => false end.

Definition BitLen (a : Addr) : Z :=
  match a with AddrZero => 0 | Addr4 _ => 32 | Addr6 _ => 128 end.

(** [::ffff:a.b.c.d]: the upper 96 bits are [0x0000...ffff]. *)
Definition Is4In6 (a : Addr) : bool :=
  match a with
  | Addr6 x => N.eqb (N.shiftr x 32) 0xffff
  | _ => false
  end.

Definition Unmap (a : Addr) : Addr :=
  match a with
  | Addr6 x => if Is4In6 a then Addr4 (N.land x 0xffffffff) else a
  | _ => a
  end.

(** Keep the [b] leading bits of a [w]-bit value, zero the rest. *)
Definition maskHigh (w : N) (x : N) (b : N) : N :=
  N.land x (N.shiftl (N.ones b) (w - b)).

Definition PrefixFrom (a : Addr) (b : Z) : Prefix :=
  if Addr_IsValid a && (0 <=? b)%Z && (b <=? BitLen a)%Z
  then mkPrefix a b
  else mkPrefix a (-1).

Definition IsValid (p : Prefix) : bool := (0 <=? bits p)%Z.

Definition Bits (p : Prefix) : Z := bits p.

Definition Addr_of (p : Prefix) : Addr := ip p.

(** [Addr.Prefix(b)]: [None] is the error result. *)
Definition Addr_Prefix (a : Addr) (b : Z) : option Prefix :=
  if (b <? 0)%Z then None
  else match a with
       | AddrZero => Some zeroPrefix
       | Addr4 x =>
           if (32 <? b)%Z then None
           else Some (PrefixFrom (Addr4 (maskHigh 32 x (Z.to_N b))) b)
       | Addr6 x =>
           if (128 <? b)%Z then None
           else Some (PrefixFrom (Addr6 (maskHigh 128 x (Z.to_N b))) b)
       end.

Definition IsSingleIP (p : Prefix) : bool :=
  IsValid p && (bits p =? BitLen (ip p))%Z.

(** [child] lies inside [parent]: same family, at least as long, and
    equal on the parent's leading bits. *)
Definition covers (parent child : Prefix) : bool :=
  IsValid parent && IsValid child && (bits parent <=? bits child)%Z &&
  match ip parent, ip child with
  | Addr4 x, Addr4 y =>
      N.eqb (maskHigh 32 x (Z.to_N (bits parent)))
            (maskHigh 32 y (Z.to_N (bits parent)))
  | Addr6 x, Addr6 y =>
      N.eqb (maskHigh 128 x (Z.to_N (bits parent)))
            (maskHigh 128 y (Z.to_N (bits parent)))
  | _, _ => false
  end.

(** Textual form used as the key of a [cidr:] label: dotted decimal for
    IPv4; for IPv6 the 128-bit value in decimal (the colon-hex form and
    its zero compression are not modelled). *)
Definition octet (x : N) (i : N) : N := N.land (N.shiftr x (8 * i)) 0xff.

Definition Addr_String (a : Addr) : string :=
  match a with
  | AddrZero => "invalid IP"
  | Addr4 x =>
      pretty (octet x 3) +:+ "." +:+ pretty (octet x 2) +:+ "." +:+
      pretty (octet x 1) +:+ "." +:+ pretty (octet x 0)
  | Addr6 x => "v6-" +:+ pretty x
  end.

Definition String (p : Prefix) : string :=
  if IsValid p then Addr_String (ip p) +:+ "/" +:+ pretty (bits p)
  else "invalid Prefix".

#[global] Instance Addr_eq_dec : EqDecision Addr.
Proof. solve_decision. Defined.

#[global] Instance Prefix_eq_dec : EqDecision Prefix.
Proof. solve_decision. Defined.

Definition Addr_to_sum (a : Addr) : unit + (N + N) :=
  match a with
  | AddrZero => inl tt
  | Addr4 x => inr (inl x)
  | Addr6 x => inr (inr x)
  end.

Definition Addr_of_sum (s : unit + (N + N)) : Addr :=
  match s with
  | inl _ => AddrZero
  | inr (inl x) => Addr4 x
  | inr (inr x) => Addr6 x
  end.

#[global] Instance Addr_countable : Countable Addr.
Proof.
  refine (inj_countable' Addr_to_sum Addr_of_sum _).
  intros []; reflexivity.
Defined.

#[global] Instance Prefix_countable : Countable Prefix.
Proof.
  refine (inj_countable' (fun p => (ip p, bits p))
                         (fun q => mkPrefix (fst q) (snd q)) _).
  intros []; reflexivity.
Defined.

End netip.

(** ** [pkg/clustermesh/types]: a prefix tagged with a cluster ID *)

Module cmtypes.

Record PrefixCluster : Type :=
  mkPrefixCluster { prefix : netip.Prefix; clusterID : N }.

Definition NewPrefixCluster (p : netip.Prefix) (c : N) : PrefixCluster :=
  mkPrefixCluster p c.

Definition AsPrefix (pc : PrefixCluster) : netip.Prefix := prefix pc.

Definition ClusterID (pc : PrefixCluster) : N := clusterID pc.

Definition IsSingleIP (pc : PrefixCluster) : bool :=
  netip.IsSingleIP (prefix pc).

#[global] Instance PrefixCluster_eq_dec : EqDecision PrefixCluster.
Proof. solve_decision. Defined.

#[global] Instance PrefixCluster_countable : Countable PrefixCluster.
Proof.
  refine (inj_countable' (fun pc => (prefix pc, clusterID pc))
                         (fun q => mkPrefixCluster (fst q) (snd q)) _).
  intros []; reflexivity.
Defined.

End cmtypes.

Export cmtypes.


(** ** [pkg/labels]: label maps

    [Labels] is the Go type [map[string]Label], keyed by the label's key;
    the source iterates it as [for k, v := range ...], reads [v.Source]
    and writes [lbls[k] = v]. The methods of the package are not part of
    the sources at hand and are modelled from the specification. *)

Module labels.

Record Label : Type := mkLabel { Key : string; Value : string; Source : string }.

#[global] Instance Label_eq_dec : EqDecision Label.
Proof. solve_decision. Defined.

Abbreviation Labels := (gmap string Label).

Definition LabelSourceCIDR : string := "cidr".
Definition LabelSourceFQDN : string := "fqdn".
Definition LabelSourceCIDRGroup : string := "cidrgroup".
Definition LabelSourceNode : string := "node".
Definition LabelSourceReserved : string := "reserved".

Definition IDNameHost : string := "host".
Definition IDNameRemoteNode : string := "remote-node".
Definition IDNameHealth : string := "health".
Definition IDNameIngress : string := "ingress".
Definition IDNameWorld : string := "world".
Definition IDNameWorldIPv4 : string := "world-ipv4".
Definition IDNameWorldIPv6 : string := "world-ipv6".
Definition IDNameKubeAPIServer : string := "kube-apiserver".

Definition reservedLabel (name : string) : Label :=
  mkLabel name "" LabelSourceReserved.

(** [NewFrom]: a fresh map with the same entries. *)
Definition NewFrom (l : Labels) : Labels := l.

Definition LabelHost : Labels := {[ IDNameHost := reservedLabel IDNameHost ]}.
Definition LabelWorld : Labels := {[ IDNameWorld := reservedLabel IDNameWorld ]}.
Definition LabelWorldIPv4 : Labels :=
  {[ IDNameWorldIPv4 := reservedLabel IDNameWorldIPv4 ]}.
Definition LabelWorldIPv6 : Labels :=
  {[ IDNameWorldIPv6 := reservedLabel IDNameWorldIPv6 ]}.

(** Modelled from the spec: [Labels.HasSource] of the labels package, which
    is not among the sources; some label of the map has the given source. *)
Definition HasSource (l : Labels) (src : string) : bool :=
  bool_decide (map_Exists (fun _ v => Source v = src) l).

(** Modelled from the spec: the [Has...Label] accessors of the labels
    package, which are not among the sources. The spec speaks of a prefix
    that "carries [reserved:host]" (and likewise for the other reserved
    names): the map holds, under that name, a label of source [reserved]. *)
Definition carriesReserved (l : Labels) (name : string) : bool :=
  match l !! name with
  | Some v => bool_decide (Source v = LabelSourceReserved)
  | None => false
  end.

Definition HasHostLabel (l : Labels) : bool := carriesReserved l IDNameHost.
Definition HasRemoteNodeLabel (l : Labels) : bool :=
  carriesReserved l IDNameRemoteNode.
Definition HasHealthLabel (l : Labels) : bool := carriesReserved l IDNameHealth.
Definition HasIngressLabel (l : Labels) : bool :=
  carriesReserved l IDNameIngress.
Definition HasWorldLabel (l : Labels) : bool := carriesReserved l IDNameWorld.
Definition HasKubeAPIServerLabel (l : Labels) : bool :=
  carriesReserved l IDNameKubeAPIServer.

(** Modelled from the spec: [Labels.Remove] of the labels package ("strip
    those"); the entries under the keys of [from] are deleted from [l]. *)
Definition Remove (l from : Labels) : Labels := l ∖ from.

(** Modelled from the spec: [Labels.RemoveFromSource] of the labels
    package; every label of the given source is deleted. *)
Definition RemoveFromSource (l : Labels) (src : string) : Labels :=
  filter (fun kv => Source (snd kv) <> src) l.

(** [MergeLabels] writes every entry of [from] into the receiver,
    replacing an entry of the same key; Go's [maps.Copy] does the same. *)
Definition MergeLabels (l from : Labels) : Labels := from ∪ l.

Definition maps_Copy (dst src : Labels) : Labels := src ∪ dst.

(** Modelled from the spec: [GetCIDRLabels] of the labels package, the
    fallback "[cidr:<prefix>]" label of a prefix. *)
Definition GetCIDRLabels (p : netip.Prefix) : Labels :=
  {[ netip.String p := mkLabel (netip.String p) "" LabelSourceCIDR ]}.

(** Modelled from the spec: [Labels.AddWorldLabel] of the labels package,
    "[reserved:world] (or the appropriate v4/v6 variant)": the plain world
    label on a single-stack agent, else the variant of the address family. *)
Definition worldLabelFor (dualStack : bool) (a : netip.Addr) : Labels :=
  if negb dualStack then LabelWorld
  else if netip.Is4 a then LabelWorldIPv4
  else LabelWorldIPv6.

Definition AddWorldLabel (dualStack : bool) (a : netip.Addr) (l : Labels) : Labels :=
  MergeLabels l (worldLabelFor dualStack a).

End labels.

Export labels.

(** ** [pkg/option]: the configuration read by label resolution *)

Record DaemonConfig : Type := mkConfig {
  PolicyCIDRMatchesNodes : bool;
  PerNodeLabelsEnabled : bool;
  IsDualStack : bool
}.

(** ** [resolveLabels] *)

Definition resolveLabels (cfg : DaemonConfig) (lbls : Labels)
    (prefix : PrefixCluster) : Labels :=
  let isNode := HasRemoteNodeLabel lbls || HasHostLabel lbls in
  let isInCluster := isNode || HasHealthLabel lbls || HasIngressLabel lbls in
  (* In-cluster entities must not have reserved:world. *)
  let lbls :=
    if isInCluster
    then Remove (Remove (Remove lbls LabelWorld) LabelWorldIPv4) LabelWorldIPv6
    else lbls in
  (* In-cluster entities must not have cidr or fqdn labels. *)
  let lbls :=
    if isInCluster && negb (isNode && PolicyCIDRMatchesNodes cfg)
    then RemoveFromSource
           (RemoveFromSource (RemoveFromSource lbls LabelSourceCIDR)
                             LabelSourceFQDN)
           LabelSourceCIDRGroup
    else lbls in
  (* Remove all labels with source node:, unless this is a node and node
     labels are enabled. *)
  let lbls :=
    if negb (isNode && PerNodeLabelsEnabled cfg)
    then RemoveFromSource lbls LabelSourceNode
    else lbls in
  (* No empty labels allowed. *)
  let lbls :=
    if (size lbls =? 0)%nat
    then maps_Copy lbls (GetCIDRLabels (AsPrefix prefix))
    else lbls in
  (* add world if not in-cluster. *)
  if negb isInCluster
  then AddWorldLabel (IsDualStack cfg) (netip.Addr_of (AsPrefix prefix)) lbls
  else lbls.

(** ** [pkg/source]: precedence of the origin of a contribution *)

Module source.

(** Modelled from the spec: the source enumeration, which is not among the
    sources, with the spec's example ordering, highest first:
    KubeAPIServer > Local > CustomResource > KVStore > Generated > Unspec. *)
Inductive Source : Type :=
| KubeAPIServer
| Local
| CustomResource
| KVStore
| Generated
| Unspec.

#[global] Instance Source_eq_dec : EqDecision Source.
Proof. solve_decision. Defined.

Definition rank (s : Source) : nat :=
  match s with
  | KubeAPIServer => 5
  | Local => 4
  | CustomResource => 3
  | KVStore => 2
  | Generated => 1
  | Unspec => 0
  end.

(** [a] has strictly higher precedence than [b]. *)
Definition outranks (a b : Source) : bool := (rank b <? rank a)%nat.

Arguments outranks : simpl never.

End source.

(** ** [pkg/ipcache/types.go]: per-resource and per-prefix information

    The file is not among the sources. The types follow the fields the
    source reads and writes ([byResource], [flattened], [source],
    [requestedIdentity]) and the spec's data model; the methods are
    modelled from the spec. *)

Abbreviation ResourceID := string (only parsing).

(** The kinds of metadata that [upsertLocked] and [remove] accept. *)
Inductive IPMetadata : Type :=
| MLabels (l : Labels)
| MTunnelPeer (t : netip.Addr)
| MEncryptKey (k : N)
| MEndpointFlags (f : N)
| MIdentityOverride (b : bool)
| MRequestedIdentity (id : N).

Record resourceInfo : Type := mkResourceInfo {
  ri_labels : Labels;
  ri_source : source.Source;
  tunnelPeer : option netip.Addr;
  encryptKey : option N;
  endpointFlags : option N;
  identityOverride : bool;
  requestedIdentity : option N
}.

#[global] Instance resourceInfo_eq_dec : EqDecision resourceInfo.
Proof. solve_decision. Defined.

Record prefixInfo : Type := mkPrefixInfo {
  byResource : gmap ResourceID resourceInfo;
  flattened : option resourceInfo
}.

#[global] Instance prefixInfo_eq_dec : EqDecision prefixInfo.
Proof. solve_decision. Defined.

Definition newPrefixInfo : prefixInfo := mkPrefixInfo ∅ None.

(** The literal [&resourceInfo{source: src}] of [upsertLocked]. *)
Definition newResourceInfo (src : source.Source) : resourceInfo :=
  mkResourceInfo ∅ src None None None false None.

(** [ToLabels] and [IdentityOverride] of a flattened view. *)
Definition ToLabels (info : resourceInfo) : Labels := ri_labels info.
Definition IdentityOverride (info : resourceInfo) : bool := identityOverride info.

(** A scalar attribute takes the new value when it is empty, and when the
    new contribution has the higher precedence. *)
Definition mergeScalar {A : Type} (wins : bool) (cur : option A) (new : A)
    : option A :=
  match cur with
  | None => Some new
  | Some c => if wins then Some new else Some c
  end.

(** Modelled from the spec: [resourceInfo.merge], which is not among the
    sources. "Merges a fresh contribution into an existing one, returning
    whether anything changed. Labels union by key [...]. Scalar attributes
    accept the other value when currently empty, otherwise keep the
    higher-precedence source. identityOverride is sticky once set."
    Between equal precedences the first writer is retained. *)
Definition merge (ri : resourceInfo) (info : IPMetadata) (src : source.Source)
    : resourceInfo * bool :=
  let wins := source.outranks src (ri_source ri) in
  let s := if wins then src else ri_source ri in
  let ri' :=
    match info with
    | MLabels l =>
        mkResourceInfo (if wins then l ∪ ri_labels ri else ri_labels ri ∪ l) s
          (tunnelPeer ri) (encryptKey ri) (endpointFlags ri)
          (identityOverride ri) (requestedIdentity ri)
    | MTunnelPeer t =>
        mkResourceInfo (ri_labels ri) s (mergeScalar wins (tunnelPeer ri) t)
          (encryptKey ri) (endpointFlags ri) (identityOverride ri)
          (requestedIdentity ri)
    | MEncryptKey k =>
        mkResourceInfo (ri_labels ri) s (tunnelPeer ri)
          (mergeScalar wins (encryptKey ri) k) (endpointFlags ri)
          (identityOverride ri) (requestedIdentity ri)
    | MEndpointFlags f =>
        mkResourceInfo (ri_labels ri) s (tunnelPeer ri) (encryptKey ri)
          (mergeScalar wins (endpointFlags ri) f) (identityOverride ri)
          (requestedIdentity ri)
    | MIdentityOverride b =>
        mkResourceInfo (ri_labels ri) s (tunnelPeer ri) (encryptKey ri)
          (endpointFlags ri) (identityOverride ri || b) (requestedIdentity ri)
    | MRequestedIdentity id =>
        mkResourceInfo (ri_labels ri) s (tunnelPeer ri) (encryptKey ri)
          (endpointFlags ri) (identityOverride ri)
          (mergeScalar wins (requestedIdentity ri) id)
    end in
  (ri', bool_decide (ri' <> ri)).

(** A scalar attribute is cleared when it matches the contribution. *)
Definition unmergeScalar {A : Type} `{EqDecision A} (cur : option A) (old : A)
    : option A :=
  if bool_decide (cur = Some old) then None else cur.

(** Modelled from the spec: [resourceInfo.unmerge], which is not among the
    sources. "Inverse: subtracts labels and clears scalars that match the
    contribution." *)
Definition unmerge (ri : resourceInfo) (info : IPMetadata) : resourceInfo :=
  match info with
  | MLabels l =>
      mkResourceInfo (ri_labels ri ∖ l) (ri_source ri) (tunnelPeer ri)
        (encryptKey ri) (endpointFlags ri) (identityOverride ri)
        (requestedIdentity ri)
  | MTunnelPeer t =>
      mkResourceInfo (ri_labels ri) (ri_source ri)
        (unmergeScalar (tunnelPeer ri) t) (encryptKey ri) (endpointFlags ri)
        (identityOverride ri) (requestedIdentity ri)
  | MEncryptKey k =>
      mkResourceInfo (ri_labels ri) (ri_source ri) (tunnelPeer ri)
        (unmergeScalar (encryptKey ri) k) (endpointFlags ri)
        (identityOverride ri) (requestedIdentity ri)
  | MEndpointFlags f =>
      mkResourceInfo (ri_labels ri) (ri_source ri) (tunnelPeer ri)
        (encryptKey ri) (unmergeScalar (endpointFlags ri) f)
        (identityOverride ri) (requestedIdentity ri)
  | MIdentityOverride b =>
      mkResourceInfo (ri_labels ri) (ri_source ri) (tunnelPeer ri)
        (encryptKey ri) (endpointFlags ri)
        (if bool_decide (identityOverride ri = b) then false
         else identityOverride ri)
        (requestedIdentity ri)
  | MRequestedIdentity id =>
      mkResourceInfo (ri_labels ri) (ri_source ri) (tunnelPeer ri)
        (encryptKey ri) (endpointFlags ri) (identityOverride ri)
        (unmergeScalar (requestedIdentity ri) id)
  end.

(** Modelled from the spec: [resourceInfo.isValid], which is not among the
    sources. "Valid iff at least one of labels, tunnelPeer, encryptKey,
    endpointFlags, identityOverride is non-empty." *)
Definition resourceInfo_isValid (ri : resourceInfo) : bool :=
  negb (bool_decide (ri_labels ri = ∅)) ||
  bool_decide (is_Some (tunnelPeer ri)) ||
  bool_decide (is_Some (encryptKey ri)) ||
  bool_decide (is_Some (endpointFlags ri)) ||
  identityOverride ri.

(** Modelled from the spec: [prefixInfo.isValid], which is not among the
    sources. "If byResource is empty, delete from m and trie." *)
Definition prefixInfo_isValid (info : prefixInfo) : bool :=
  negb (bool_decide (byResource info = ∅)).

(** Modelled from the spec: [resourceInfo.has] on the (possibly absent)
    flattened view, which is not among the sources. The change "has no
    effect on the flattened metadata": merging every item into the view
    would leave it as it is. A view that has not been computed has
    nothing. *)
Definition has (f : option resourceInfo) (src : source.Source)
    (info : list IPMetadata) : bool :=
  match f with
  | None => false
  | Some v => forallb (fun i => negb (snd (merge v i src))) info
  end.

(** Contributions ordered by source precedence, highest first, then by
    resource ID. *)
Definition resourceBefore (a b : ResourceID * resourceInfo) : bool :=
  source.outranks (ri_source (snd a)) (ri_source (snd b)) ||
  (bool_decide (ri_source (snd a) = ri_source (snd b)) &&
   String.leb (fst a) (fst b)).

Fixpoint insertSorted (x : ResourceID * resourceInfo)
    (l : list (ResourceID * resourceInfo)) : list (ResourceID * resourceInfo) :=
  match l with
  | [] => [x]
  | y :: l' => if resourceBefore x y then x :: l else y :: insertSorted x l'
  end.

Definition sortedBySourceThenResourceID (info : prefixInfo)
    : list (ResourceID * resourceInfo) :=
  foldr insertSorted [] (map_to_list (byResource info)).

Definition firstSet {A : Type} (acc new : option A) : option A :=
  match acc with Some _ => acc | None => new end.

(** One step of flattening: the accumulator holds the higher precedences;
    label keys and scalars of [ri] fill in only what is absent. *)
Definition flattenStep (acc : resourceInfo)
    (x : ResourceID * resourceInfo) : resourceInfo :=
  let ri := snd x in
  mkResourceInfo (ri_labels acc ∪ ri_labels ri)
    (if source.outranks (ri_source ri) (ri_source acc) then ri_source ri
     else ri_source acc)
    (firstSet (tunnelPeer acc) (tunnelPeer ri))
    (firstSet (encryptKey acc) (encryptKey ri))
    (firstSet (endpointFlags acc) (endpointFlags ri))
    (identityOverride acc || identityOverride ri)
    (firstSet (requestedIdentity acc) (requestedIdentity ri)).

(** Modelled from the spec: [prefixInfo.flatten], which is not among the
    sources. "Iterate byResource in source-precedence order (highest
    first), then by ResourceID [...]; higher precedence wins scalar
    conflicts; label keys from lower precedence fill only if absent; the
    result's source is the highest precedence among contributors." *)
Definition flatten (info : prefixInfo) : resourceInfo :=
  foldl flattenStep (newResourceInfo source.Unspec)
        (sortedBySourceThenResourceID info).

(** ** Iteration order of Go maps

    [for k, v := range m] visits the entries of a map in an order the
    language leaves open. Every function that ranges over a map takes the
    order as a [RangeOrder]; the properties below are proved for every
    order that visits each entry exactly once ([rangeValid]). *)

Record RangeOrder : Type := mkRangeOrder {
  range : forall (K : Type) (eqK : EqDecision K) (cntK : Countable K) (V : Type),
      gmap K V -> list (K * V)
}.

Arguments range _ {K _ _ V} _.

Definition rangeValid (rng : RangeOrder) : Prop :=
  forall (K : Type) (eqK : EqDecision K) (cntK : Countable K) (V : Type)
         (mp : gmap K V),
    range rng mp ≡ₚ map_to_list mp.

(** The order in which [gmap] lists its entries is one such order. *)
Definition listOrder : RangeOrder :=
  mkRangeOrder (fun K _ _ V mp => map_to_list mp).

(** ** [pkg/container/bitlpm]: one trie of prefixes per cluster *)

Module bitlpm.

Abbreviation CIDRTrieMap := (gmap N (gmap netip.Prefix unit)).

(** Modelled from the spec: the trie package, which is not among the
    sources. "Upsert(clusterID, prefix, value) idempotent." *)
Definition Upsert (t : CIDRTrieMap) (c : N) (p : netip.Prefix) : CIDRTrieMap :=
  <[ c := <[ p := tt ]> (default ∅ (t !! c)) ]> t.

(** Modelled from the spec: "Delete(clusterID, prefix) idempotent." *)
Definition Delete (t : CIDRTrieMap) (c : N) (p : netip.Prefix) : CIDRTrieMap :=
  match t !! c with
  | Some tr => <[ c := delete p tr ]> t
  | None => t
  end.

(** Modelled from the spec: "Descendants(clusterID, parent, visit)
    enumerates, in arbitrary order, all stored prefixes [...] contained in
    parent". A stored parent is reported with its descendants: [remove]
    computes the affected prefixes before deletion "to ensure the prefix
    matches its own entry". *)
Definition Descendants (rng : RangeOrder) (t : CIDRTrieMap) (c : N)
    (parent : netip.Prefix) : list netip.Prefix :=
  List.filter (netip.covers parent)
    (List.map fst (range rng (default ∅ (t !! c)))).

(** The prefix is stored in the trie of the cluster. *)
Definition stored (t : CIDRTrieMap) (c : N) (p : netip.Prefix) : Prop :=
  is_Some (default ∅ (t !! c) !! p).

End bitlpm.

(** ** The metadata store *)

(** The fields of [metadata] that the functions below read or write; the
    locks, the logger and [prefixRefCounter] are left out. Every function
    runs with its mutex held and is one atomic step on this state. *)
Record metadata : Type := mkMetadata {
  m : gmap PrefixCluster prefixInfo;
  prefixes : bitlpm.CIDRTrieMap;
  queuedPrefixes : gmap PrefixCluster unit;
  queuedRevision : N;
  injectedRevision : N;
  reservedHostLabels : gmap netip.Prefix Labels
}.

Definition newMetadata : metadata := mkMetadata ∅ ∅ ∅ 1 0 ∅.

(** Unsigned 64-bit wrap-around. *)
Definition wrap64 (x : N) : N := (x mod 2 ^ 64)%N.

Definition set_store (md : metadata) (m' : gmap PrefixCluster prefixInfo)
    (t' : bitlpm.CIDRTrieMap) : metadata :=
  mkMetadata m' t' (queuedPrefixes md) (queuedRevision md)
    (injectedRevision md) (reservedHostLabels md).

(** [dequeuePrefixUpdates] returns the set of queued prefixes, as well as
    the revision that should be passed to [setInjectedRevision]. *)
Definition dequeuePrefixUpdates (rng : RangeOrder) (md : metadata)
    : (list PrefixCluster * N) * metadata :=
  let modifiedPrefixes := List.map fst (range rng (queuedPrefixes md)) in
  let revision := queuedRevision md in
  ((modifiedPrefixes, revision),
   mkMetadata (m md) (prefixes md) ∅ (wrap64 (queuedRevision md + 1))
     (injectedRevision md) (reservedHostLabels md)).

(** [enqueuePrefixUpdates] queues prefixes for label injection and returns
    the "next" queue revision number. *)
Definition enqueuePrefixUpdates (md : metadata) (pfxs : list PrefixCluster)
    : N * metadata :=
  let q := foldl (fun q p => <[ p := tt ]> q) (queuedPrefixes md) pfxs in
  (queuedRevision md,
   mkMetadata (m md) (prefixes md) q (queuedRevision md)
     (injectedRevision md) (reservedHostLabels md)).

(** [setInjectedRevision] updates the injected revision to a new value. *)
Definition setInjectedRevision (md : metadata) (rev : N) : metadata :=
  mkMetadata (m md) (prefixes md) (queuedPrefixes md) (queuedRevision md)
    rev (reservedHostLabels md).

(** [canonicalPrefix]: host bits zeroed, no IPv4-mapped IPv6 address; a
    prefix without canonical version is returned as it is. *)
Definition canonicalPrefix (prefixCluster : PrefixCluster) : PrefixCluster :=
  if negb (netip.IsValid (AsPrefix prefixCluster)) then prefixCluster
  else
    let prefix := AsPrefix prefixCluster in
    let clusterID := ClusterID prefixCluster in
    match netip.Addr_Prefix (netip.Unmap (netip.Addr_of prefix))
                            (netip.Bits prefix) with
    | None => prefixCluster
    | Some p => NewPrefixCluster p clusterID
    end.

(** [findAffectedChildPrefixes]: all child prefixes affected by an update
    to the parent prefix. *)
Definition findAffectedChildPrefixes (rng : RangeOrder) (md : metadata)
    (parent : PrefixCluster) : list PrefixCluster :=
  if IsSingleIP parent then [parent]
  else List.map (fun child => NewPrefixCluster child (ClusterID parent))
         (bitlpm.Descendants rng (prefixes md) (ClusterID parent)
            (AsPrefix parent)).

(** The loop [for _, i := range info] of [upsertLocked]. *)
Definition mergeAll (src : source.Source) (st : resourceInfo * bool)
    (info : list IPMetadata) : resourceInfo * bool :=
  foldl (fun st i =>
           let '(ri, c) := merge (fst st) i src in (ri, snd st || c))
        st info.

(** [upsertLocked] inserts / updates the set of metadata associated with
    this resource for this prefix and returns the affected prefixes; [[]]
    is Go's [nil]. The entry [m.m[prefix]] and the contribution
    [byResource[resource]] are pointers in the source: they are read
    once, updated, and written back. *)
Definition upsertLocked (rng : RangeOrder) (md : metadata)
    (prefix : PrefixCluster) (src : source.Source) (resource : ResourceID)
    (info : list IPMetadata) : list PrefixCluster * metadata :=
  let prefix := canonicalPrefix prefix in
  let changed := false in
  let '(changed, pi, trie) :=
    match m md !! prefix with
    | Some pi => (changed, pi, prefixes md)
    | None =>
        (true, newPrefixInfo,
         bitlpm.Upsert (prefixes md) (ClusterID prefix) (AsPrefix prefix))
    end in
  let '(changed, ri) :=
    match byResource pi !! resource with
    | Some ri => (changed, ri)
    | None => (true, newResourceInfo src)
    end in
  let '(ri, changed) := mergeAll src (ri, changed) info in
  let byRes := <[ resource := ri ]> (byResource pi) in
  if negb changed || has (flattened pi) src info
  then ([], set_store md (<[ prefix := mkPrefixInfo byRes (flattened pi) ]> (m md)) trie)
  else
    (* Invalidated flattened metadata. Will be re-populated on next read. *)
    let md' := set_store md (<[ prefix := mkPrefixInfo byRes None ]> (m md)) trie in
    (findAffectedChildPrefixes rng md' prefix, md').

(** [getLocked] returns a copy of the flattened prefix info, computing and
    caching it when it is absent. *)
Definition getLocked (md : metadata) (prefix : PrefixCluster)
    : option resourceInfo * metadata :=
  match m md !! canonicalPrefix prefix with
  | Some pi =>
      match flattened pi with
      | Some f => (Some f, md)
      | None =>
          let f := flatten pi in
          (Some f,
           set_store md
             (<[ canonicalPrefix prefix := mkPrefixInfo (byResource pi) (Some f) ]> (m md))
             (prefixes md))
      end
  | None => (None, md)
  end.

(** The body of [for k, v := range info.ToLabels()] in [mergeParentLabels];
    the state is the label map and [hasCIDR]. *)
Definition mergeParentLabel (st : Labels * bool) (kv : string * Label)
    : Labels * bool :=
  let '(lbls, hasCIDR) := st in
  let '(k, v) := kv in
  if bool_decide (Source v = LabelSourceCIDR) && hasCIDR then st
  else
    match lbls !! k with
    | Some _ => st
    | None =>
        (<[ k := v ]> lbls,
         if bool_decide (Source v = LabelSourceCIDR) then true else hasCIDR)
    end.

(** [parent, _ := prefix.Addr().Unmap().Prefix(bits)]: the error is
    dropped, which leaves the zero prefix. *)
Definition parentPrefix (prefix : netip.Prefix) (b : Z) : netip.Prefix :=
  default netip.zeroPrefix
    (netip.Addr_Prefix (netip.Unmap (netip.Addr_of prefix)) b).

(** One round of the loop over [bits] in [mergeParentLabels]. *)
Definition mergeParentStep (rng : RangeOrder) (prefixCluster : PrefixCluster)
    (b : Z) (st : metadata * (Labels * bool)) : metadata * (Labels * bool) :=
  let parent := parentPrefix (AsPrefix prefixCluster) b in
  match getLocked (fst st) (NewPrefixCluster parent (ClusterID prefixCluster)) with
  | (Some info, md') =>
      (md', foldl mergeParentLabel (snd st) (range rng (ToLabels info)))
  | (None, md') => (md', snd st)
  end.

(** [for bits := n - 1; bits >= 0; bits--]. *)
Fixpoint mergeParentLoop (rng : RangeOrder) (prefixCluster : PrefixCluster)
    (n : nat) (st : metadata * (Labels * bool)) : metadata * (Labels * bool) :=
  match n with
  | O => st
  | S b =>
      mergeParentLoop rng prefixCluster b
        (mergeParentStep rng prefixCluster (Z.of_nat b) st)
  end.

(** [mergeParentLabels] pulls down all labels from parent prefixes, with
    "longer" prefixes having preference. The caller's map is mutated in
    place, so the merged map is returned with the store. *)
Definition mergeParentLabels (rng : RangeOrder) (md : metadata)
    (lbls : Labels) (prefixCluster : PrefixCluster) : Labels * metadata :=
  let hasCIDR := HasSource lbls LabelSourceCIDR in
  let prefix := AsPrefix prefixCluster in
  let '(md', (lbls', _)) :=
    mergeParentLoop rng prefixCluster (Z.to_nat (netip.Bits prefix))
      (md, (lbls, hasCIDR)) in
  (lbls', md').

(** [remove] removes the labels association for a prefix. *)
Definition remove (rng : RangeOrder) (md : metadata) (prefix : PrefixCluster)
    (resource : ResourceID) (aux : list IPMetadata)
    : list PrefixCluster * metadata :=
  let prefix := canonicalPrefix prefix in
  match m md !! prefix with
  | None => ([], md)
  | Some info =>
      match byResource info !! resource with
      | None => ([], md)
      | Some ri =>
          (* compute affected prefixes before deletion *)
          let affected := findAffectedChildPrefixes rng md prefix in
          let ri := foldl unmerge ri aux in
          let byRes :=
            if negb (resourceInfo_isValid ri)
            then delete resource (byResource info)
            else <[ resource := ri ]> (byResource info) in
          let info' := mkPrefixInfo byRes (flattened info) in
          if negb (prefixInfo_isValid info')
          then
            (affected,
             set_store md (delete prefix (m md))
               (bitlpm.Delete (prefixes md) (ClusterID prefix) (AsPrefix prefix)))
          else
            (* erase flattened, we'll recompute on read *)
            (affected,
             set_store md (<[ prefix := mkPrefixInfo byRes None ]> (m md))
               (prefixes md))
      end
  end.

(** ** [pkg/identity]: identities and the local allocator *)

Record Identity : Type := mkIdentity {
  ID : N;
  Labels_ : Labels;
  CIDRLabel : Labels
}.

(** "if this prefix is no longer ID 1": the numeric identity of the host. *)
Definition ReservedIdentityHost : N := 1.
Definition InvalidIdentity : N := 0.

(** Modelled from the spec: [identity.AddReservedIdentityWithLabels], which
    is not among the sources; "the fixed ReservedIdentityHost with that
    merged label set". *)
Definition AddReservedIdentityWithLabels (id : N) (lbls : Labels) : Identity :=
  mkIdentity id lbls ∅.

(** The [IdentityAllocator] interface: a call takes the allocator's state,
    the labels, [notifyOwner] and the requested numeric identity, and
    answers with Go's [(id, isNew, err)]. *)
Record IdentityAllocator : Type := mkIdentityAllocator {
  AllocState : Type;
  AllocateLocalIdentity :
    AllocState -> Labels -> bool -> N ->
    (option Identity * bool * option string) * AllocState
}.

(** A call made to the allocator: labels, [notifyOwner], requested ID. *)
Definition AllocCall : Type := Labels * bool * N.

(** [updateReservedHostLabels] adds ([Some lbls]) or removes ([None], Go's
    nil map) the labels of a prefix of the local host, then aggregates the
    labels of all host prefixes into the [reserved:host] identity. *)
Definition updateReservedHostLabels (rng : RangeOrder) (md : metadata)
    (prefix : netip.Prefix) (lbls : option Labels) : Identity * metadata :=
  let rh :=
    match lbls with
    | None => delete prefix (reservedHostLabels md)
    | Some l => <[ prefix := l ]> (reservedHostLabels md)
    end in
  (* aggregate all labels and update static identity *)
  let newLabels :=
    foldl (fun acc kv => MergeLabels acc (snd kv)) (NewFrom LabelHost)
          (range rng rh) in
  (AddReservedIdentityWithLabels ReservedIdentityHost newLabels,
   mkMetadata (m md) (prefixes md) (queuedPrefixes md) (queuedRevision md)
     (injectedRevision md) rh).

(** Textual form of a prefix cluster, as in [prefix.String()]. *)
Definition PrefixCluster_String (pc : PrefixCluster) : string :=
  if (ClusterID pc =? 0)%N then netip.String (AsPrefix pc)
  else netip.String (AsPrefix pc) +:+ "@" +:+ pretty (ClusterID pc).

(** The state of the [IPCache] that [resolveIdentity] works on: the
    metadata store, the allocator's state and the calls made to it. *)
Record IPCache (A : IdentityAllocator) : Type := mkIPCache {
  ipc_metadata : metadata;
  ipc_alloc : AllocState A;
  ipc_allocCalls : list AllocCall
}.

Arguments mkIPCache {A} _ _ _.
Arguments ipc_metadata {A} _.
Arguments ipc_alloc {A} _.
Arguments ipc_allocCalls {A} _.

(** A call through the interface, recorded in the call log. *)
Definition callAllocator {A : IdentityAllocator} (ipc : IPCache A)
    (md : metadata) (lbls : Labels) (notifyOwner : bool) (oldNID : N)
    : (option Identity * bool * option string) * IPCache A :=
  let '(res, st) := AllocateLocalIdentity A (ipc_alloc ipc) lbls notifyOwner oldNID in
  (res, mkIPCache md st (ipc_allocCalls ipc ++ [(lbls, notifyOwner, oldNID)])%list).

(** [resolveIdentity] returns a previously-allocated identity for the
    prefix or allocates a new one for its labels. The result is Go's
    triple of an identity (or nil), [isNew] and an error (or nil). *)
Definition resolveIdentity {A : IdentityAllocator} (cfg : DaemonConfig)
    (rng : RangeOrder) (ipc : IPCache A) (prefix : PrefixCluster)
    (info : resourceInfo)
    : (option Identity * bool * option string) * IPCache A :=
  (* Override identities always take precedence *)
  if IdentityOverride info then
    callAllocator ipc (ipc_metadata ipc) (ToLabels info) false InvalidIdentity
  else
    let lbls := ToLabels info in
    (* unconditionally merge any parent labels down in to this prefix *)
    let '(lbls, md) := mergeParentLabels rng (ipc_metadata ipc) lbls prefix in
    (* Enforce certain label invariants *)
    let lbls := resolveLabels cfg lbls prefix in
    if (ClusterID prefix =? 0)%N && HasHostLabel lbls then
      let '(i, md) := updateReservedHostLabels rng md (AsPrefix prefix) (Some lbls) in
      ((Some i, false, None), mkIPCache md (ipc_alloc ipc) (ipc_allocCalls ipc))
    else
      let '(res, ipc') :=
        callAllocator ipc md lbls false (default 0%N (requestedIdentity info)) in
      match res with
      | (_, _, Some err) => ((None, false, Some err), ipc')
      | (Some id, isNew, None) =>
          let id :=
            if HasWorldLabel lbls
            then mkIdentity (ID id) (Labels_ id)
                   {[ PrefixCluster_String prefix :=
                        mkLabel (PrefixCluster_String prefix) "" LabelSourceCIDR ]}
            else id in
          ((Some id, isNew, None), ipc')
      | (None, isNew, None) => ((None, isNew, None), ipc')
      end.

(** [appendAPIServerLabelsForDeletion]: [MergeLabels] writes into [lbls],
    the map of the caller, and the same map is returned. *)
Definition appendAPIServerLabelsForDeletion (lbls currentLabels : Labels)
    : Labels :=
  if HasKubeAPIServerLabel currentLabels && HasWorldLabel currentLabels &&
     (size currentLabels =? 2)%nat
  then MergeLabels lbls LabelWorld
  else lbls.

(** Modelled from the spec: the test [bytes.Contains(lbls.SortedList(),
    sortedFilter)] of [filterByLabels], whose serialisation is not among
    the sources; "returns prefixes whose flattened labels are a superset",
    "a subset match, not a full match". *)
Definition containsLabels (lbls filter : Labels) : bool :=
  bool_decide (filter ⊆ lbls).

(** [filterByLabels] returns all the prefixes inside the metadata map which
    contain the given labels. Reading a prefix caches its flattened view. *)
Definition filterByLabels (rng : RangeOrder) (md : metadata) (filter : Labels)
    : list PrefixCluster * metadata :=
  foldl (fun st kv =>
           let '(matching, md) := st in
           let '(info, md') := getLocked md (fst kv) in
           let lbls := from_option ToLabels ∅ info in
           if containsLabels lbls filter
           then ((matching ++ [fst kv])%list, md')
           else (matching, md'))
        ([], md) (range rng (m md)).

(** The state of the loop of [RemoveLabelsExcluded]: the store, the map
    [lbls] of the caller, the affected prefixes, and the arguments of the
    calls to [remove] made so far. *)
Record removalState : Type := mkRemovalState {
  rs_metadata : metadata;
  rs_lbls : Labels;
  rs_affected : list PrefixCluster;
  rs_removeCalls : list (PrefixCluster * Labels)
}.

(** The body of the loop over [oldSet]. *)
Definition removeLabelsStep (rng : RangeOrder)
    (toExclude : gmap PrefixCluster unit) (rid : ResourceID)
    (st : removalState) (ip : PrefixCluster) : removalState :=
  match toExclude !! ip with
  | Some _ => st
  | None =>
      let '(info, md) := getLocked (rs_metadata st) ip in
      let prefixLabels := from_option ToLabels ∅ info in
      let lblsToRemove := appendAPIServerLabelsForDeletion (rs_lbls st) prefixLabels in
      let '(affected, md) := remove rng md ip rid [MLabels lblsToRemove] in
      mkRemovalState md lblsToRemove (rs_affected st ++ affected)%list
        (rs_removeCalls st ++ [(ip, lblsToRemove)])%list
  end.

(** [RemoveLabelsExcluded] removes the given labels from all prefixes of
    the store except those in the excluded set, and queues the affected
    prefixes. *)
Definition RemoveLabelsExcluded (rng : RangeOrder) (md : metadata)
    (lbls : Labels) (toExclude : gmap PrefixCluster unit) (rid : ResourceID)
    : removalState :=
  let '(oldSet, md) := filterByLabels rng md lbls in
  let st := foldl (removeLabelsStep rng toExclude rid)
                  (mkRemovalState md lbls [] []) oldSet in
  let '(_, md) := enqueuePrefixUpdates (rs_metadata st) (rs_affected st) in
  mkRemovalState md (rs_lbls st) (rs_affected st) (rs_removeCalls st).

(** ** Example inputs *)

(** An IPv4 prefix of the local cluster. *)
Definition exPrefix (a : N) (b : Z) : PrefixCluster :=
  NewPrefixCluster (netip.mkPrefix (netip.Addr4 a) b) 0.

Definition exLabel (src k v : string) : Labels := {[ k := mkLabel k v src ]}.

Definition exConfig : DaemonConfig := mkConfig false false false.

(** The store of the comment of [mergeParentLabels]:
    10.0.0.0/8 -> a=b, foo=bar; 10.1.0.0/16 -> a=c; 10.1.1.0/24 -> d=e. *)
Definition exParent8 : PrefixCluster := exPrefix 0x0a000000 8.
Definition exParent16 : PrefixCluster := exPrefix 0x0a010000 16.
Definition exChild24 : PrefixCluster := exPrefix 0x0a010100 24.

Definition exParents : metadata :=
  let s1 := snd (upsertLocked listOrder newMetadata exParent8 source.Local "r1"
                   [MLabels (exLabel "k8s" "a" "b" ∪ exLabel "k8s" "foo" "bar")]) in
  let s2 := snd (upsertLocked listOrder s1 exParent16 source.Local "r1"
                   [MLabels (exLabel "k8s" "a" "c")]) in
  snd (upsertLocked listOrder s2 exChild24 source.Local "r1"
         [MLabels (exLabel "k8s" "d" "e")]).

(** The zero [netip.Prefix], which is invalid. *)
Definition exInvalid : PrefixCluster := NewPrefixCluster netip.zeroPrefix 0.

(** Two prefixes that carry the labels of an API server outside the
    cluster; the second one carries a further label. *)
Definition LabelKubeAPIServer : Labels :=
  {[ IDNameKubeAPIServer := reservedLabel IDNameKubeAPIServer ]}.

Definition exServerA : PrefixCluster := exPrefix 0x0a000002 32.
Definition exServerB : PrefixCluster := exPrefix 0x0a000001 32.

Definition exServers : metadata :=
  let s1 := snd (upsertLocked listOrder newMetadata exServerA
                   source.KubeAPIServer "rid"
                   [MLabels (LabelKubeAPIServer ∪ LabelWorld)]) in
  snd (upsertLocked listOrder s1 exServerB source.KubeAPIServer "rid"
         [MLabels (LabelKubeAPIServer ∪ LabelWorld ∪ exLabel "k8s" "foo" "bar")]).

(** An allocator that hands out fresh numeric identities from 256 on. *)
Definition exAllocator : IdentityAllocator :=
  mkIdentityAllocator N
    (fun st lbls _ _ => ((Some (mkIdentity (256 + st) lbls ∅), true, None), (st + 1)%N)).

(** A host address with [reserved:host] and a node label. *)
Definition exHost : PrefixCluster := exPrefix 0xc0a80101 32.

Definition exHostInfo : resourceInfo :=
  mkResourceInfo (LabelHost ∪ exLabel "node" "role" "cp") source.Local
    None None None false None.

(** ** Waiting for a revision *)

(** [waitForRevision] blocks on the condition variable until the injected
    revision reaches [rev]. The run of the loop is determined by what the
    waiter observes each time [Wait] returns with the lock held again: the
    injected revision, and the error of the context if it is done. The
    result is [Some None] for Go's [nil], [Some (Some e)] for the context
    error, and [None] while the waiter is still blocked after the last
    observation. [cur] is the injected revision at the time of the call. *)
Fixpoint waitForRevision (cur rev : N) (wakeups : list (N * option string))
    : option (option string) :=
  if (cur <? rev)%N then
    match wakeups with
    | [] => None
    | (cur', ctxErr) :: wakeups' =>
        match ctxErr with
        | Some e => Some (Some e)
        | None => waitForRevision cur' rev wakeups'
        end
    end
  else Some None.

(** ** The label injection tick *)

(** The outcome of waiting for the k8s caches at the start of
    [handleLabelInjection]: there is no [CacheStatus] channel, the channel
    was closed, or the context was done first. *)
Inductive CacheSync : Type :=
| NoCacheStatus
| CacheSynced
| ContextDone (err : string).

(** [doInjectLabels] as [handleLabelInjection] uses it: from the store
    and the rest of the IPCache (of type [S]: the IPCache writer, the
    identity allocator and updater, none of which is among the sources)
    and a chunk of prefixes, to the prefixes that remain to be processed
    and an error. *)
Definition Injector (S : Type) : Type :=
  metadata * S -> list PrefixCluster ->
  (list PrefixCluster * option string) * (metadata * S).

(** The variables of the loop of [handleLabelInjection] when it is left,
    and the chunks that were passed to [doInjectLabels]. *)
Record injectionLoop (S : Type) : Type := mkInjectionLoop {
  il_state : metadata * S;
  il_idsToModify : list PrefixCluster;
  il_retry : list PrefixCluster;
  il_err : option string;
  il_chunks : list (list PrefixCluster)
}.

Arguments mkInjectionLoop {S} _ _ _ _ _.
Arguments il_state {S} _.
Arguments il_idsToModify {S} _.
Arguments il_retry {S} _.
Arguments il_err {S} _.
Arguments il_chunks {S} _.

(** [for len(idsToModify) > 0 { ... }]: split the updates into chunks and
    inject them one after the other, until one fails. The loop does not
    end when [cs] is 0; [None] is the loop that is still running when the
    fuel is used up. (A negative chunk size, which makes the slice
    expression panic, is outside [nat].) *)
Fixpoint injectChunks {S : Type} (inject : Injector S) (cs : nat) (fuel : nat)
    (st : metadata * S) (idsToModify retry : list PrefixCluster)
    (chunks : list (list PrefixCluster)) : option (injectionLoop S) :=
  match idsToModify with
  | [] => Some (mkInjectionLoop st [] retry None chunks)
  | _ :: _ =>
      match fuel with
      | O => None
      | S fuel' =>
          let idx := Nat.min (length idsToModify) cs in
          let chunk := take idx idsToModify in
          let idsToModify := drop idx idsToModify in
          let '((failed, err), st') := inject st chunk in
          let retry := (retry ++ failed)%list in
          match err with
          | Some e =>
              Some (mkInjectionLoop st' idsToModify retry (Some e)
                      (chunks ++ [chunk])%list)
          | None =>
              injectChunks inject cs fuel' st' idsToModify retry
                (chunks ++ [chunk])%list
          end
      end
  end.

(** What is done after the loop: failed and unprocessed prefixes are
    queued again; the injected revision is bumped if there are none. *)
Definition finishInjection (md : metadata) (rev : N)
    (retry idsToModify : list PrefixCluster) : metadata :=
  let ok := true in
  let '(md, ok) :=
    if (0 <? length retry)%nat
    then (snd (enqueuePrefixUpdates md retry), false)
    else (md, ok) in
  let '(md, ok) :=
    if (0 <? length idsToModify)%nat
    then (snd (enqueuePrefixUpdates md idsToModify), false)
    else (md, ok) in
  if ok then setInjectedRevision md rev else md.

(** [handleLabelInjection] dequeues the set of pending prefixes and
    processes their metadata updates. The result is the returned error,
    the state, and the chunks passed to [doInjectLabels]. *)
Definition handleLabelInjection {S : Type} (rng : RangeOrder)
    (inject : Injector S) (chunkSize : nat) (fuel : nat) (sync : CacheSync)
    (st : metadata * S)
    : option (option string * (metadata * S) * list (list PrefixCluster)) :=
  match sync with
  | ContextDone e => Some (Some e, st, [])
  | _ =>
      let '((idsToModify, rev), md) := dequeuePrefixUpdates rng (fst st) in
      let cs := if (rev =? 1)%N then length idsToModify else chunkSize in
      match injectChunks inject cs fuel (md, snd st) idsToModify [] [] with
      | None => None
      | Some r =>
          Some (il_err r,
                (finishInjection (fst (il_state r)) rev (il_retry r)
                   (il_idsToModify r),
                 snd (il_state r)),
                il_chunks r)
      end
  end.

(** ** [pkg/k8s]: rate-limited logging of k8s errors *)

(** [k8sErrLogTimeout = time.Minute]; times and durations are counted in
    nanoseconds. *)
Definition k8sErrLogTimeout : Z := 60 * 1000000000.

(** [k8sErrorUpdateCheckUnmuteTime] returns whether the message should be
    logged; [k8sErrMsg] stores the time after which a repeated message can
    be printed again. *)
Definition k8sErrorUpdateCheckUnmuteTime (k8sErrMsg : gmap string Z)
    (errstr : string) (now : Z) : bool * gmap string Z :=
  match k8sErrMsg !! errstr with
  | Some unmuteDeadline =>
      if (unmuteDeadline <? now)%Z
      then (true, <[ errstr := (now + k8sErrLogTimeout)%Z ]> k8sErrMsg)
      else (false, k8sErrMsg)
  | None => (true, <[ errstr := (now + k8sErrLogTimeout)%Z ]> k8sErrMsg)
  end.

(** A sequence of calls, with the answers in order. *)
Fixpoint k8sErrorCalls (k8sErrMsg : gmap string Z) (calls : list (string * Z))
    : list bool * gmap string Z :=
  match calls with
  | [] => ([], k8sErrMsg)
  | (errstr, now) :: calls' =>
      let '(b, mp) := k8sErrorUpdateCheckUnmuteTime k8sErrMsg errstr now in
      let '(bs, mp') := k8sErrorCalls mp calls' in
      (b :: bs, mp')
  end.

(** ** Further example inputs *)

(** An injector that succeeds on every chunk and counts its calls. *)
Definition exInjector : Injector nat :=
  fun st chunk => (([], None), (fst st, Datatypes.S (snd st))).


(** A store with three queued prefixes that has been dequeued once. *)
Definition exQueued : metadata :=
  snd (enqueuePrefixUpdates
         (snd (dequeuePrefixUpdates listOrder newMetadata))
         [exParent8; exParent16; exChild24]).

(** An IPv4-mapped IPv6 prefix, ::ffff:10.1.2.3/104. *)
Definition exMapped : PrefixCluster :=
  NewPrefixCluster (netip.mkPrefix (netip.Addr6 0xffff0a010203) 104) 0.

(** The prefix 10.1.2.3/16, with host bits set. *)
Definition exUnmasked : PrefixCluster := exPrefix 0x0a010203 16.

(** ::ffff:0:0/96, which covers every IPv4-mapped address. *)
Definition exMapped96 : PrefixCluster :=
  NewPrefixCluster (netip.mkPrefix (netip.Addr6 0xffff00000000) 96) 0.

(** A store with ::ffff:0:0/96 -> x=1, 10.1.2.3/32 -> y=2 and the zero
    prefix -> z=3. *)
Definition exMappedStore : metadata :=
  let s1 := snd (upsertLocked listOrder newMetadata exMapped96 source.Local "r1"
                   [MLabels (exLabel "k8s" "x" "1")]) in
  let s2 := snd (upsertLocked listOrder s1 (exPrefix 0x0a010203 32)
                   source.Local "r1" [MLabels (exLabel "k8s" "y" "2")]) in
  snd (upsertLocked listOrder s2 exInvalid source.Local "r1"
         [MLabels (exLabel "k8s" "z" "3")]).


(** * Properties *)

(** ** Label maps *)

Section LabelFacts.
Implicit Types (l from : Labels) (k src : string) (v : Label).

Lemma lookup_Remove_Some l from k v :
  Remove l from !! k = Some v <-> l !! k = Some v /\ from !! k = None.
Proof. unfold Remove. apply lookup_difference_Some. Qed.

Lemma lookup_RemoveFromSource_Some l src k v :
  RemoveFromSource l src !! k = Some v <-> l !! k = Some v /\ Source v <> src.
Proof. unfold RemoveFromSource. by rewrite map_lookup_filter_Some. Qed.

Lemma HasSource_true l src :
  HasSource l src = true <-> exists k v, l !! k = Some v /\ Source v = src.
Proof.
  unfold HasSource. rewrite bool_decide_eq_true. unfold map_Exists.
  naive_solver.
Qed.

Lemma HasSource_false l src :
  HasSource l src = false <-> forall k v, l !! k = Some v -> Source v <> src.
Proof.
  rewrite <- not_true_iff_false, HasSource_true. naive_solver.
Qed.

Lemma HasSource_RemoveFromSource l src : HasSource (RemoveFromSource l src) src = false.
Proof.
  apply HasSource_false. intros k v Hk.
  by apply lookup_RemoveFromSource_Some in Hk as [_ ?].
Qed.

Lemma HasSource_false_mono l l' src :
  (forall k v, l' !! k = Some v -> l !! k = Some v) ->
  HasSource l src = false -> HasSource l' src = false.
Proof. rewrite !HasSource_false. naive_solver. Qed.

Lemma carriesReserved_true l k :
  carriesReserved l k = true <->
  exists v, l !! k = Some v /\ Source v = LabelSourceReserved.
Proof.
  unfold carriesReserved. destruct (l !! k) as [v|].
  - rewrite bool_decide_eq_true. naive_solver.
  - naive_solver.
Qed.

Lemma lookup_MergeLabels l from k :
  MergeLabels l from !! k =
  match from !! k with Some v => Some v | None => l !! k end.
Proof.
  unfold MergeLabels. destruct (from !! k) as [v|] eqn:E.
  - by apply lookup_union_Some_l.
  - rewrite lookup_union_r; done.
Qed.

Lemma size_zero_empty l : (size l =? 0)%nat = true <-> l = ∅.
Proof. rewrite Nat.eqb_eq. apply map_size_empty_iff. Qed.

End LabelFacts.

(** ** Label resolution *)

(** The labels that make a prefix an in-cluster entity. *)
Definition marksInCluster (lbls : Labels) : bool :=
  HasHostLabel lbls || HasRemoteNodeLabel lbls ||
  HasHealthLabel lbls || HasIngressLabel lbls.

Definition marksNode (lbls : Labels) : bool :=
  HasRemoteNodeLabel lbls || HasHostLabel lbls.

Lemma marksInCluster_witness lbls :
  marksInCluster lbls = true ->
  exists k v, lbls !! k = Some v /\ Source v = LabelSourceReserved /\
    k <> IDNameWorld /\ k <> IDNameWorldIPv4 /\ k <> IDNameWorldIPv6.
Proof.
  unfold marksInCluster, HasHostLabel, HasRemoteNodeLabel, HasHealthLabel,
    HasIngressLabel.
  rewrite !orb_true_iff, !carriesReserved_true.
  intros [[[(v & ? & ?)|(v & ? & ?)]|(v & ? & ?)]|(v & ? & ?)];
    eexists _, v; repeat split; eauto; discriminate.
Qed.

Lemma marksInCluster_split lbls :
  marksInCluster lbls =
  (HasRemoteNodeLabel lbls || HasHostLabel lbls) || HasHealthLabel lbls
  || HasIngressLabel lbls.
Proof.
  unfold marksInCluster.
  destruct (HasHostLabel lbls), (HasRemoteNodeLabel lbls); reflexivity.
Qed.

(** What an in-cluster label map resolves to: a sub-map of the input in
    which the witness label survives. *)
Lemma resolveLabels_in_cluster cfg lbls p :
  marksInCluster lbls = true ->
  let r := resolveLabels cfg lbls p in
  (forall k v, r !! k = Some v -> lbls !! k = Some v) /\
  r <> ∅ /\
  r !! IDNameWorld = None /\ r !! IDNameWorldIPv4 = None /\
  r !! IDNameWorldIPv6 = None /\
  (marksNode lbls && PolicyCIDRMatchesNodes cfg = false ->
   HasSource r LabelSourceCIDR = false /\
   HasSource r LabelSourceFQDN = false /\
   HasSource r LabelSourceCIDRGroup = false).
Proof.
  intros Hin.
  destruct (marksInCluster_witness lbls Hin) as (k0 & v0 & Hk0 & Hs0 & Hw & Hw4 & Hw6).
  unfold resolveLabels. rewrite <- marksInCluster_split, Hin. fold (marksNode lbls).
  cbn [negb andb].
  set (l1 := Remove (Remove (Remove lbls LabelWorld) LabelWorldIPv4) LabelWorldIPv6).
  set (l2 := if negb (marksNode lbls && PolicyCIDRMatchesNodes cfg)
             then RemoveFromSource (RemoveFromSource (RemoveFromSource l1
                    LabelSourceCIDR) LabelSourceFQDN) LabelSourceCIDRGroup
             else l1).
  set (l3 := if negb (marksNode lbls && PerNodeLabelsEnabled cfg)
             then RemoveFromSource l2 LabelSourceNode else l2).
  assert (H1 : forall k v, l1 !! k = Some v <->
            lbls !! k = Some v /\ k <> IDNameWorld /\ k <> IDNameWorldIPv4 /\
            k <> IDNameWorldIPv6).
  { intros k v. unfold l1. rewrite !lookup_Remove_Some.
    unfold LabelWorld, LabelWorldIPv4, LabelWorldIPv6.
    rewrite !lookup_singleton_None. naive_solver. }
  assert (H21 : forall k v, l2 !! k = Some v -> l1 !! k = Some v).
  { intros k v. unfold l2.
    destruct (negb (marksNode lbls && PolicyCIDRMatchesNodes cfg)); [|tauto].
    rewrite !lookup_RemoveFromSource_Some. tauto. }
  assert (H32 : forall k v, l3 !! k = Some v -> l2 !! k = Some v).
  { intros k v. unfold l3.
    destruct (negb (marksNode lbls && PerNodeLabelsEnabled cfg)); [|tauto].
    rewrite !lookup_RemoveFromSource_Some. tauto. }
  assert (Hk3 : l3 !! k0 = Some v0).
  { assert (Hk1 : l1 !! k0 = Some v0) by (apply H1; auto).
    assert (Hk2 : l2 !! k0 = Some v0).
    { unfold l2.
      destruct (negb (marksNode lbls && PolicyCIDRMatchesNodes cfg)); [|done].
      rewrite !lookup_RemoveFromSource_Some. rewrite Hs0.
      repeat split; auto; discriminate. }
    unfold l3.
    destruct (negb (marksNode lbls && PerNodeLabelsEnabled cfg)); [|done].
    rewrite lookup_RemoveFromSource_Some, Hs0. split; auto; discriminate. }
  assert (Hne : l3 <> ∅).
  { intros E. rewrite E, lookup_empty in Hk3. discriminate. }
  destruct (size l3 =? 0)%nat eqn:Hsz.
  { apply size_zero_empty in Hsz. contradiction. }
  assert (Hnone : forall k, (forall v, l1 !! k <> Some v) -> l3 !! k = None).
  { intros k Hk. destruct (l3 !! k) as [v|] eqn:E; [|done].
    exfalso. apply (Hk v). auto. }
  repeat split.
  - intros k v Hk. apply H32, H21, H1 in Hk. tauto.
  - exact Hne.
  - apply Hnone. intros v Hv. apply H1 in Hv. tauto.
  - apply Hnone. intros v Hv. apply H1 in Hv. tauto.
  - apply Hnone. intros v Hv. apply H1 in Hv. tauto.
  - apply (HasSource_false_mono l2); [exact H32|].
    unfold l2. rewrite H. cbn [negb].
    apply HasSource_false. intros k v.
    rewrite !lookup_RemoveFromSource_Some. tauto.
  - apply (HasSource_false_mono l2); [exact H32|].
    unfold l2. rewrite H. cbn [negb].
    apply HasSource_false. intros k v.
    rewrite !lookup_RemoveFromSource_Some. tauto.
  - apply (HasSource_false_mono l2); [exact H32|].
    unfold l2. rewrite H. cbn [negb].
    apply HasSource_false. intros k v.
    rewrite !lookup_RemoveFromSource_Some. tauto.
Qed.

(** What a label map that is not in-cluster resolves to. *)
Lemma resolveLabels_not_in_cluster cfg lbls p :
  marksInCluster lbls = false ->
  resolveLabels cfg lbls p =
  AddWorldLabel (IsDualStack cfg) (netip.Addr_of (AsPrefix p))
    (if (size (RemoveFromSource lbls LabelSourceNode) =? 0)%nat
     then GetCIDRLabels (AsPrefix p)
     else RemoveFromSource lbls LabelSourceNode).
Proof.
  intros Hout. unfold resolveLabels.
  rewrite <- marksInCluster_split, Hout.
  assert (Hn : HasRemoteNodeLabel lbls || HasHostLabel lbls = false).
  { rewrite marksInCluster_split in Hout.
    destruct (HasRemoteNodeLabel lbls || HasHostLabel lbls); [|done].
    discriminate. }
  rewrite Hn. cbn [negb andb].
  destruct (size (RemoveFromSource lbls LabelSourceNode) =? 0)%nat eqn:Hsz; [|done].
  apply size_zero_empty in Hsz. rewrite Hsz.
  unfold maps_Copy. by rewrite (right_id_L ∅ (∪)).
Qed.

Lemma worldLabelFor_nonempty ds a : worldLabelFor ds a <> ∅.
Proof.
  unfold worldLabelFor, LabelWorld, LabelWorldIPv4, LabelWorldIPv6.
  destruct (negb ds), (netip.Is4 a); apply insert_non_empty.
Qed.

(** C1. After [resolveLabels]: a label map that marks the prefix as
    in-cluster resolves to a map without any of the three world labels
    and, unless the prefix is a node and [PolicyCIDRMatchesNodes] is set,
    without any label of source [cidr], [fqdn] or [cidrgroup]; any other
    label map resolves to a map that contains the world label of the
    prefix (the family variant on a dual-stack agent), on top of the
    [cidr:<prefix>] fallback when no other label is left; and the result
    is never empty. *)
Theorem resolveLabels_invariants (cfg : DaemonConfig) (lbls : Labels)
    (p : PrefixCluster) :
  let r := resolveLabels cfg lbls p in
  let world := worldLabelFor (IsDualStack cfg) (netip.Addr_of (AsPrefix p)) in
  (if marksInCluster lbls
   then r !! IDNameWorld = None /\ r !! IDNameWorldIPv4 = None /\
        r !! IDNameWorldIPv6 = None /\
        (if marksNode lbls && PolicyCIDRMatchesNodes cfg then True
         else HasSource r LabelSourceCIDR = false /\
              HasSource r LabelSourceFQDN = false /\
              HasSource r LabelSourceCIDRGroup = false)
   else world ⊆ r /\
        (if bool_decide (RemoveFromSource lbls LabelSourceNode = ∅)
         then r = MergeLabels (GetCIDRLabels (AsPrefix p)) world
         else True))
  /\ r <> ∅.
Proof.
  intros r world. destruct (marksInCluster lbls) eqn:Hin.
  - destruct (resolveLabels_in_cluster cfg lbls p Hin)
      as (_ & Hne & Hw & Hw4 & Hw6 & Hsrc).
    split; [|exact Hne]. repeat split; try assumption.
    destruct (marksNode lbls && PolicyCIDRMatchesNodes cfg); [done|].
    by apply Hsrc.
  - pose proof (resolveLabels_not_in_cluster cfg lbls p Hin) as Hr.
    fold r in Hr. unfold AddWorldLabel in Hr. fold world in Hr.
    assert (Hsub : world ⊆ r).
    { rewrite Hr. unfold MergeLabels. apply map_union_subseteq_l. }
    repeat split.
    + exact Hsub.
    + case_bool_decide as He; [|done].
      rewrite Hr, He. reflexivity.
    + intros E. rewrite E in Hsub.
      apply (worldLabelFor_nonempty (IsDualStack cfg) (netip.Addr_of (AsPrefix p))).
      fold world. apply map_empty; intros i.
      destruct (world !! i) as [v|] eqn:Ev; [|done].
      eapply lookup_weaken in Ev; [|exact Hsub]. by rewrite lookup_empty in Ev.
Qed.

(** ** Iteration orders *)

Lemma listOrder_valid : rangeValid listOrder.
Proof. intros K eqK cntK V mp. reflexivity. Qed.

Lemma range_elem_of (rng : RangeOrder) (Hrng : rangeValid rng)
    {K : Type} `{Countable K} {V : Type} (mp : gmap K V) (k : K) (v : V) :
  (k, v) ∈ range rng mp <-> mp !! k = Some v.
Proof. rewrite (Hrng K _ _ V mp). apply elem_of_map_to_list. Qed.

Lemma range_keys_NoDup (rng : RangeOrder) (Hrng : rangeValid rng)
    {K : Type} `{Countable K} {V : Type} (mp : gmap K V) :
  NoDup (List.map fst (range rng mp)).
Proof.
  assert (Hp : List.map fst (range rng mp) ≡ₚ List.map fst (map_to_list mp)).
  { apply Permutation_map. apply Hrng. }
  rewrite Hp. apply (NoDup_fst_map_to_list mp).
Qed.

Lemma range_keys_elem_of (rng : RangeOrder) (Hrng : rangeValid rng)
    {K : Type} `{Countable K} {V : Type} (mp : gmap K V) (k : K) :
  k ∈ List.map fst (range rng mp) <-> is_Some (mp !! k).
Proof.
  rewrite list_elem_of_In, in_map_iff. split.
  - intros ([k' v] & <- & Hin). apply list_elem_of_In in Hin.
    apply (range_elem_of rng Hrng) in Hin. by exists v.
  - intros [v Hv]. exists (k, v). split; [done|].
    apply list_elem_of_In. by apply (range_elem_of rng Hrng).
Qed.

(** ** Revisions and the change queue *)

(** C5 (as the code has it). [setInjectedRevision] stores the revision it
    is given, whatever the current one; the stored value is the maximum
    of the two exactly when the new revision is not below the current
    one. Nothing else in the store changes. *)
Theorem setInjectedRevision_assigns (md : metadata) (rev : N) :
  injectedRevision (setInjectedRevision md rev) = rev /\
  (injectedRevision (setInjectedRevision md rev)
     = N.max (injectedRevision md) rev <-> (injectedRevision md <= rev)%N) /\
  m (setInjectedRevision md rev) = m md /\
  prefixes (setInjectedRevision md rev) = prefixes md /\
  queuedPrefixes (setInjectedRevision md rev) = queuedPrefixes md /\
  queuedRevision (setInjectedRevision md rev) = queuedRevision md /\
  reservedHostLabels (setInjectedRevision md rev) = reservedHostLabels md.
Proof.
  cbn. repeat split; try reflexivity; lia.
Qed.

(** C5, counterexample. With injected revision 5, [setInjectedRevision 3]
    leaves 3: not the maximum, and below the value before the call. *)
Lemma setInjectedRevision_not_max :
  let md := mkMetadata ∅ ∅ ∅ 6 5 ∅ in
  injectedRevision (setInjectedRevision md 3) <> N.max (injectedRevision md) 3 /\
  (injectedRevision (setInjectedRevision md 3) < injectedRevision md)%N.
Proof. cbn. split; [discriminate | lia]. Qed.

Lemma enqueue_fold_lookup (q : gmap PrefixCluster unit)
    (pfxs : list PrefixCluster) (p : PrefixCluster) :
  is_Some (foldl (fun q p => <[ p := tt ]> q) q pfxs !! p) <->
  p ∈ pfxs \/ is_Some (q !! p).
Proof.
  revert q. induction pfxs as [|x pfxs IH]; intros q; cbn.
  - rewrite elem_of_nil. tauto.
  - rewrite IH, elem_of_cons, lookup_insert_is_Some'. naive_solver.
Qed.

(** Enqueueing any number of batches leaves the queue revision alone and
    only adds to the queue. *)
Lemma enqueue_batches (md : metadata) (later : list (list PrefixCluster)) :
  let md' := foldl (fun s b => snd (enqueuePrefixUpdates s b)) md later in
  queuedRevision md' = queuedRevision md /\
  (forall p, is_Some (queuedPrefixes md !! p) -> is_Some (queuedPrefixes md' !! p)).
Proof.
  revert md. induction later as [|b later IH]; intros md; cbn; [tauto|].
  specialize (IH (snd (enqueuePrefixUpdates md b))). cbn in IH.
  destruct IH as [IHr IHq]. split; [exact IHr|].
  intros p Hp. apply IHq. apply enqueue_fold_lookup. by right.
Qed.

(** C6. [enqueuePrefixUpdates] adds the prefixes to the queue and returns
    the queue revision without changing it; [dequeuePrefixUpdates] returns
    every queued prefix once, with the current queue revision, empties
    the queue and increments the revision (a 64-bit increment). Hence,
    whatever is enqueued in between, the dequeue that follows an enqueue
    returns the revision the enqueue returned and a batch that contains
    the enqueued prefixes. *)
Theorem queue_revision_protocol (rng : RangeOrder) (md : metadata)
    (pfxs : list PrefixCluster) (later : list (list PrefixCluster)) :
  rangeValid rng ->
  let r := fst (enqueuePrefixUpdates md pfxs) in
  let md1 := snd (enqueuePrefixUpdates md pfxs) in
  let md2 := foldl (fun s b => snd (enqueuePrefixUpdates s b)) md1 later in
  let batch := fst (fst (dequeuePrefixUpdates rng md2)) in
  let rev := snd (fst (dequeuePrefixUpdates rng md2)) in
  let md3 := snd (dequeuePrefixUpdates rng md2) in
  (* enqueue *)
  r = queuedRevision md /\
  queuedRevision md1 = queuedRevision md /\
  (forall p, is_Some (queuedPrefixes md1 !! p) <->
             p ∈ pfxs \/ is_Some (queuedPrefixes md !! p)) /\
  (* dequeue *)
  rev = queuedRevision md2 /\
  (forall p, p ∈ batch <-> is_Some (queuedPrefixes md2 !! p)) /\
  NoDup batch /\
  queuedPrefixes md3 = ∅ /\
  queuedRevision md3 = wrap64 (queuedRevision md2 + 1) /\
  ((queuedRevision md2 + 1 < 2 ^ 64)%N ->
   queuedRevision md3 = (queuedRevision md2 + 1)%N) /\
  (* an enqueue is covered by the dequeue that follows it *)
  rev = r /\ (r <= rev)%N /\ (forall p, p ∈ pfxs -> p ∈ batch).
Proof.
  intros Hrng r md1 md2 batch rev md3.
  destruct (enqueue_batches md1 later) as [Hrev Hq]. fold md2 in Hrev, Hq.
  assert (Hb : forall p, p ∈ batch <-> is_Some (queuedPrefixes md2 !! p)).
  { intros p. unfold batch. cbn. apply (range_keys_elem_of rng Hrng). }
  assert (H1 : forall p, is_Some (queuedPrefixes md1 !! p) <->
                         p ∈ pfxs \/ is_Some (queuedPrefixes md !! p)).
  { intros p. unfold md1. cbn. apply enqueue_fold_lookup. }
  assert (Hr : rev = r).
  { unfold rev, r. cbn. rewrite Hrev. reflexivity. }
  repeat split.
  - apply H1.
  - apply H1.
  - apply Hb.
  - apply Hb.
  - unfold batch. cbn. apply (range_keys_NoDup rng Hrng).
  - intros Hlt. unfold md3, wrap64. cbn. apply N.mod_small. exact Hlt.
  - exact Hr.
  - rewrite Hr. lia.
  - intros p Hp. apply Hb, Hq, H1. by left.
Qed.

(** ** The prefix map and the tries *)

Lemma stored_Upsert (t : bitlpm.CIDRTrieMap) (c c' : N) (p p' : netip.Prefix) :
  bitlpm.stored (bitlpm.Upsert t c p) c' p' <->
  (c' = c /\ p' = p) \/ bitlpm.stored t c' p'.
Proof.
  unfold bitlpm.stored, bitlpm.Upsert.
  destruct (decide (c' = c)) as [->|Hc].
  - rewrite lookup_insert_eq. cbn.
    rewrite lookup_insert_is_Some'. naive_solver.
  - rewrite lookup_insert_ne by congruence. naive_solver.
Qed.

Lemma stored_Delete (t : bitlpm.CIDRTrieMap) (c c' : N) (p p' : netip.Prefix) :
  bitlpm.stored (bitlpm.Delete t c p) c' p' <->
  bitlpm.stored t c' p' /\ ~ (c' = c /\ p' = p).
Proof.
  unfold bitlpm.stored, bitlpm.Delete.
  destruct (t !! c) as [tr|] eqn:Ht.
  - destruct (decide (c' = c)) as [->|Hc].
    + rewrite lookup_insert_eq, Ht. cbn.
      rewrite lookup_delete_is_Some. naive_solver.
    + rewrite lookup_insert_ne by congruence. naive_solver.
  - destruct (decide (c' = c)) as [->|Hc].
    + rewrite Ht. cbn. rewrite lookup_empty. split.
      * intros [? ?]. discriminate.
      * intros [[? ?] _]. discriminate.
    + naive_solver.
Qed.

Lemma PrefixCluster_eq (pc pc' : PrefixCluster) :
  ClusterID pc = ClusterID pc' -> AsPrefix pc = AsPrefix pc' -> pc = pc'.
Proof. destruct pc, pc'. cbn. congruence. Qed.

(** C10. When the canonical prefix has no entry in the map, or its entry
    records no contribution for the resource, [remove] returns no
    affected prefix and the whole store (the map with every other
    contribution, the tries, the queue) is what it was. *)
Theorem remove_absent_noop (rng : RangeOrder) (md : metadata)
    (prefix : PrefixCluster) (resource : ResourceID) (aux : list IPMetadata) :
  (m md !! canonicalPrefix prefix = None \/
   exists info, m md !! canonicalPrefix prefix = Some info /\
                byResource info !! resource = None) ->
  remove rng md prefix resource aux = ([], md).
Proof.
  intros [Hnone | (info & Hsome & Hres)]; unfold remove.
  - rewrite Hnone. reflexivity.
  - rewrite Hsome, Hres. reflexivity.
Qed.

(** A prefix fails canonicalization when it is invalid or when its
    unmapped address does not admit its length. *)
Definition failsCanonicalization (pc : PrefixCluster) : bool :=
  negb (netip.IsValid (AsPrefix pc)) ||
  bool_decide (netip.Addr_Prefix (netip.Unmap (netip.Addr_of (AsPrefix pc)))
                                 (netip.Bits (AsPrefix pc)) = None).

Lemma canonicalPrefix_fails (pc : PrefixCluster) :
  failsCanonicalization pc = true -> canonicalPrefix pc = pc.
Proof.
  unfold failsCanonicalization, canonicalPrefix.
  destruct (negb (netip.IsValid (AsPrefix pc))); [done|]. cbn.
  rewrite bool_decide_eq_true. intros ->. reflexivity.
Qed.

(** The map and the tries after [upsertLocked]: the entry of the canonical
    prefix is present, and it is put into the trie when it was created. *)
Lemma upsertLocked_store (rng : RangeOrder) (md : metadata)
    (prefix : PrefixCluster) (src : source.Source) (resource : ResourceID)
    (info : list IPMetadata) :
  let cp := canonicalPrefix prefix in
  let md' := snd (upsertLocked rng md prefix src resource info) in
  (exists pi', m md' = <[ cp := pi' ]> (m md)) /\
  prefixes md' =
    match m md !! cp with
    | Some _ => prefixes md
    | None => bitlpm.Upsert (prefixes md) (ClusterID cp) (AsPrefix cp)
    end.
Proof.
  cbn zeta. unfold upsertLocked.
  destruct (m md !! canonicalPrefix prefix) as [pi|];
    destruct (byResource _ !! resource) as [ri|];
    destruct (mergeAll _ _ _) as [ri' changed];
    destruct (negb changed || has _ _ _); cbn; eauto.
Qed.

(** C4 (as the code has it). A prefix that fails canonicalization is its
    own canonical form. [remove] does nothing for it when the map holds
    no entry under it. [upsertLocked] does not look at validity: it
    creates the entry under the prefix as given and puts the prefix into
    the trie of its cluster. *)
Theorem invalid_prefix_handling (rng : RangeOrder) (md : metadata)
    (pc : PrefixCluster) (src : source.Source) (resource : ResourceID)
    (info aux : list IPMetadata) :
  failsCanonicalization pc = true ->
  m md !! pc = None ->
  canonicalPrefix pc = pc /\
  remove rng md pc resource aux = ([], md) /\
  is_Some (m (snd (upsertLocked rng md pc src resource info)) !! pc) /\
  bitlpm.stored (prefixes (snd (upsertLocked rng md pc src resource info)))
    (ClusterID pc) (AsPrefix pc).
Proof.
  intros Hf Hnone. pose proof (canonicalPrefix_fails pc Hf) as Hc.
  split; [exact Hc|]. split.
  { unfold remove. rewrite Hc, Hnone. reflexivity. }
  destruct (upsertLocked_store rng md pc src resource info) as [[pi' Hm] Ht].
  rewrite Hc in Hm, Ht. rewrite Hnone in Ht. split.
  - rewrite Hm, lookup_insert_eq. eauto.
  - rewrite Ht. apply stored_Upsert. by left.
Qed.

(** The consistency of the map and the tries: a prefix cluster is a key of
    the map if and only if its prefix is in the trie of its cluster. *)
Definition trieConsistent (md : metadata) : Prop :=
  forall pc : PrefixCluster,
    is_Some (m md !! pc) <->
    bitlpm.stored (prefixes md) (ClusterID pc) (AsPrefix pc).

Lemma newMetadata_trieConsistent : trieConsistent newMetadata.
Proof.
  intros pc. unfold bitlpm.stored. cbn. rewrite !lookup_empty. cbn.
  rewrite lookup_empty. split; intros [? ?]; discriminate.
Qed.

Lemma upsertLocked_trieConsistent (rng : RangeOrder) (md : metadata)
    (prefix : PrefixCluster) (src : source.Source) (resource : ResourceID)
    (info : list IPMetadata) :
  trieConsistent md ->
  trieConsistent (snd (upsertLocked rng md prefix src resource info)).
Proof.
  intros Hinv pc.
  destruct (upsertLocked_store rng md prefix src resource info) as [[pi' Hm] Ht].
  rewrite Hm, Ht, lookup_insert_is_Some'.
  destruct (m md !! canonicalPrefix prefix) as [pi|] eqn:Hcp.
  - rewrite <- (Hinv pc). split; [|tauto].
    intros [<-|?]; [|done]. by rewrite Hcp.
  - rewrite stored_Upsert, <- (Hinv pc). split.
    + intros [<-|?]; [left|right]; done.
    + intros [[Hc Hp]|?]; [left|right]; [|done].
      symmetry. by apply PrefixCluster_eq.
Qed.

(** The map and the tries after [remove]: untouched, or the entry of the
    canonical prefix is deleted from both, or it is replaced in the map. *)
Lemma remove_store (rng : RangeOrder) (md : metadata) (prefix : PrefixCluster)
    (resource : ResourceID) (aux : list IPMetadata) :
  let cp := canonicalPrefix prefix in
  let md' := snd (remove rng md prefix resource aux) in
  (m md' = m md /\ prefixes md' = prefixes md) \/
  (m md' = delete cp (m md) /\
   prefixes md' = bitlpm.Delete (prefixes md) (ClusterID cp) (AsPrefix cp)) \/
  (is_Some (m md !! cp) /\ (exists pi', m md' = <[ cp := pi' ]> (m md)) /\
   prefixes md' = prefixes md).
Proof.
  cbn zeta. unfold remove.
  destruct (m md !! canonicalPrefix prefix) as [pi|] eqn:Hcp; [|by left].
  destruct (byResource pi !! resource) as [ri|]; [|by left].
  destruct (negb (prefixInfo_isValid _)); cbn.
  - right. left. done.
  - right. right. eauto.
Qed.

Lemma remove_trieConsistent (rng : RangeOrder) (md : metadata)
    (prefix : PrefixCluster) (resource : ResourceID) (aux : list IPMetadata) :
  trieConsistent md ->
  trieConsistent (snd (remove rng md prefix resource aux)).
Proof.
  intros Hinv pc.
  destruct (remove_store rng md prefix resource aux)
    as [[Hm Ht] | [[Hm Ht] | (Hin & [pi' Hm] & Ht)]]; rewrite Hm, Ht.
  - apply Hinv.
  - rewrite lookup_delete_is_Some, stored_Delete, <- (Hinv pc). split.
    + intros [Hne ?]. split; [done|]. intros [Hc Hp]. apply Hne.
      symmetry. by apply PrefixCluster_eq.
    + intros [? Hne]. split; [|done]. intros <-. by apply Hne.
  - rewrite lookup_insert_is_Some', <- (Hinv pc). split; [|tauto].
    intros [<-|?]; done.
Qed.

(** C8. The consistency of the map and the tries holds for the empty
    store and is preserved by every [upsertLocked] and every [remove]. *)
Theorem trie_consistency_preserved (rng : RangeOrder) (md : metadata)
    (prefix : PrefixCluster) (src : source.Source) (resource : ResourceID)
    (info aux : list IPMetadata) :
  trieConsistent md ->
  trieConsistent (snd (upsertLocked rng md prefix src resource info)) /\
  trieConsistent (snd (remove rng md prefix resource aux)).
Proof.
  intros Hinv. split.
  - by apply upsertLocked_trieConsistent.
  - by apply remove_trieConsistent.
Qed.

(** ** Merging contributions *)

Lemma outranks_irrefl (s : source.Source) : source.outranks s s = false.
Proof. unfold source.outranks. apply Nat.ltb_irrefl. Qed.

Lemma merge_unfold (ri : resourceInfo) (i : IPMetadata) (src : source.Source) :
  merge ri i src =
  (fst (merge ri i src), bool_decide (fst (merge ri i src) <> ri)).
Proof. reflexivity. Qed.

(** A contribution is absorbed when merging it changes nothing. *)
Definition absorbed (ri : resourceInfo) (i : IPMetadata)
    (src : source.Source) : Prop :=
  merge ri i src = (ri, false).

Lemma absorbed_fst (ri : resourceInfo) (i : IPMetadata) (src : source.Source) :
  absorbed ri i src <-> fst (merge ri i src) = ri.
Proof.
  unfold absorbed. split.
  - intros ->. reflexivity.
  - intros E. rewrite merge_unfold, E. f_equal.
    apply bool_decide_eq_false. tauto.
Qed.

(** What is left to fill in an attribute of the given kind. *)
Definition settled (ri : resourceInfo) (i : IPMetadata) : Prop :=
  match i with
  | MLabels l => ri_labels ri ∪ l = ri_labels ri
  | MTunnelPeer _ => is_Some (tunnelPeer ri)
  | MEncryptKey _ => is_Some (encryptKey ri)
  | MEndpointFlags _ => is_Some (endpointFlags ri)
  | MIdentityOverride b => identityOverride ri || b = identityOverride ri
  | MRequestedIdentity _ => is_Some (requestedIdentity ri)
  end.

Lemma mergeScalar_keep {A : Type} (cur : option A) (new : A) :
  mergeScalar false cur new = cur <-> is_Some cur.
Proof.
  destruct cur as [c|]; cbn.
  - split; eauto.
  - split; [discriminate | intros [? ?]; discriminate].
Qed.

Lemma absorbed_iff (ri : resourceInfo) (i : IPMetadata) (src : source.Source) :
  absorbed ri i src <->
  source.outranks src (ri_source ri) = false /\ settled ri i.
Proof.
  rewrite absorbed_fst. unfold merge. cbn [fst].
  destruct (source.outranks src (ri_source ri)) eqn:Hw.
  - split; [|intros [? _]; discriminate].
    intros E. exfalso.
    assert (Hs : src = ri_source ri).
    { destruct i; apply (f_equal ri_source) in E; exact E. }
    rewrite Hs, outranks_irrefl in Hw. discriminate.
  - destruct ri as [L s tp ek ef io rq]. cbn in *.
    destruct i; cbn; (split; [intros E; split; [done|] | intros [_ E]]).
    + by injection E.
    + by rewrite E.
    + injection E as E. by apply mergeScalar_keep in E.
    + f_equal. by apply mergeScalar_keep.
    + injection E as E. by apply mergeScalar_keep in E.
    + f_equal. by apply mergeScalar_keep.
    + injection E as E. by apply mergeScalar_keep in E.
    + f_equal. by apply mergeScalar_keep.
    + by injection E.
    + by rewrite E.
    + injection E as E. by apply mergeScalar_keep in E.
    + f_equal. by apply mergeScalar_keep.
Qed.

Lemma merge_source_settled (ri : resourceInfo) (i : IPMetadata)
    (src : source.Source) :
  source.outranks src (ri_source (fst (merge ri i src))) = false.
Proof.
  unfold merge. cbn [fst].
  destruct (source.outranks src (ri_source ri)) eqn:Hw;
    destruct i; cbn [ri_source];
    first [apply outranks_irrefl | exact Hw].
Qed.

Lemma union_absorb_l (l L : Labels) : (l ∪ L) ∪ l = l ∪ L.
Proof.
  apply map_eq. intros k. rewrite !lookup_union.
  destruct (l !! k), (L !! k); reflexivity.
Qed.

Lemma union_absorb_r (l L : Labels) : (L ∪ l) ∪ l = L ∪ l.
Proof.
  apply map_eq. intros k. rewrite !lookup_union.
  destruct (l !! k), (L !! k); reflexivity.
Qed.

Lemma union_settled_mono (L l l' : Labels) :
  L ∪ l = L -> (L ∪ l') ∪ l = L ∪ l' /\ (l' ∪ L) ∪ l = l' ∪ L.
Proof.
  intros E.
  assert (Hk : forall k, is_Some (l !! k) -> is_Some (L !! k)).
  { intros k [v Hv]. apply (f_equal (fun mp => mp !! k)) in E.
    rewrite lookup_union, Hv in E. destruct (L !! k); eauto; discriminate. }
  split; apply map_eq; intros k; rewrite !lookup_union; specialize (Hk k);
    destruct (l !! k), (L !! k), (l' !! k); try reflexivity;
    destruct Hk as [? ?]; eauto; discriminate.
Qed.

Lemma mergeScalar_is_Some {A : Type} (w : bool) (cur : option A) (new : A) :
  is_Some (mergeScalar w cur new).
Proof. destruct cur, w; cbn; eauto. Qed.

Lemma mergeScalar_is_Some_mono {A : Type} (w : bool) (cur : option A) (new : A) :
  is_Some cur -> is_Some (mergeScalar w cur new).
Proof. intros _. apply mergeScalar_is_Some. Qed.

(** What has just been merged is absorbed. *)
Lemma merge_absorbed (ri : resourceInfo) (i : IPMetadata) (src : source.Source) :
  absorbed (fst (merge ri i src)) i src.
Proof.
  apply absorbed_iff. split; [apply merge_source_settled|].
  unfold merge. cbn [fst].
  destruct i; cbn; auto using @mergeScalar_is_Some.
  - destruct (source.outranks src (ri_source ri));
      [apply union_absorb_l | apply union_absorb_r].
  - by destruct (identityOverride ri), b.
Qed.

(** What is absorbed stays absorbed through further merges from the same
    source. *)
Lemma absorbed_preserved (ri : resourceInfo) (i j : IPMetadata)
    (src : source.Source) :
  absorbed ri i src -> absorbed (fst (merge ri j src)) i src.
Proof.
  rewrite !absorbed_iff. intros [Hw Hs].
  split; [apply merge_source_settled|].
  unfold merge. cbn [fst]. rewrite Hw.
  destruct i, j; cbn in *; auto using @mergeScalar_is_Some_mono.
  - by apply (union_settled_mono _ l l0).
  - destruct (identityOverride ri), b, b0; cbn in *; congruence.
Qed.

Lemma mergeAll_cons (src : source.Source) (ri : resourceInfo) (c : bool)
    (i : IPMetadata) (info : list IPMetadata) :
  mergeAll src (ri, c) (i :: info) =
  mergeAll src (fst (merge ri i src), c || snd (merge ri i src)) info.
Proof. reflexivity. Qed.

Lemma mergeAll_absorbs (src : source.Source) (info : list IPMetadata) :
  forall (ri : resourceInfo) (c : bool) (pre : list IPMetadata),
    Forall (fun i => absorbed ri i src) pre ->
    Forall (fun i => absorbed (fst (mergeAll src (ri, c) info)) i src)
           (pre ++ info).
Proof.
  induction info as [|i info IH]; intros ri c pre Hpre.
  - cbn. by rewrite app_nil_r.
  - rewrite mergeAll_cons.
    replace (pre ++ i :: info)%list with ((pre ++ [i]) ++ info)%list
      by (by rewrite <- app_assoc).
    apply IH. apply Forall_app. split.
    + eapply Forall_impl; [exact Hpre|]. intros x. apply absorbed_preserved.
    + apply Forall_singleton. apply merge_absorbed.
Qed.

Lemma mergeAll_fixed (src : source.Source) (info : list IPMetadata)
    (ri : resourceInfo) :
  Forall (fun i => absorbed ri i src) info ->
  mergeAll src (ri, false) info = (ri, false).
Proof.
  induction info as [|i info IH]; intros Hall; [reflexivity|].
  apply Forall_cons in Hall as [Hi Hall].
  rewrite mergeAll_cons. unfold absorbed in Hi. rewrite Hi. cbn.
  by apply IH.
Qed.

(** Merging the same items from the same source a second time changes
    nothing and reports no change. *)
Lemma mergeAll_idempotent (src : source.Source) (info : list IPMetadata)
    (ri : resourceInfo) (c : bool) :
  mergeAll src (fst (mergeAll src (ri, c) info), false) info =
  (fst (mergeAll src (ri, c) info), false).
Proof.
  apply mergeAll_fixed.
  apply (mergeAll_absorbs src info ri c []). constructor.
Qed.

(** C7. Two calls of [upsertLocked] in a row with the same arguments: the
    store after the second call is the store after the first, and the
    second call returns no affected prefix. *)
Theorem upsertLocked_idempotent (rng : RangeOrder) (md : metadata)
    (prefix : PrefixCluster) (src : source.Source) (resource : ResourceID)
    (info : list IPMetadata) :
  let md1 := snd (upsertLocked rng md prefix src resource info) in
  upsertLocked rng md1 prefix src resource info = ([], md1).
Proof.
  cbn zeta.
  set (cp := canonicalPrefix prefix).
  assert (H1 : exists pi0 ri0 c0 fl,
             let ri1 := fst (mergeAll src (ri0, c0) info) in
             m (snd (upsertLocked rng md prefix src resource info)) =
             <[ cp := mkPrefixInfo (<[ resource := ri1 ]> (byResource pi0)) fl ]> (m md)).
  { unfold upsertLocked. fold cp.
    destruct (m md !! cp) as [pi|];
      [exists pi | exists newPrefixInfo];
      (destruct (byResource _ !! resource) as [ri|];
        [exists ri | exists (newResourceInfo src)]).
    all: eexists.
    all: destruct (mergeAll _ _ _) as [ri' changed] eqn:Em.
    all: destruct (negb changed || has _ _ _); cbn.
    all: eexists; rewrite Em; reflexivity. }
  generalize dependent (snd (upsertLocked rng md prefix src resource info)).
  intros md1 H1. unfold upsertLocked. fold cp.
  destruct H1 as (pi0 & ri0 & c0 & fl & Hm). cbn zeta in Hm.
  rewrite Hm, lookup_insert_eq. cbn [byResource flattened].
  rewrite lookup_insert_eq, mergeAll_idempotent. cbn [negb orb].
  f_equal. rewrite !insert_insert_eq.
  rewrite <- Hm. by destruct md1.
Qed.

(** ** Inheritance of parent labels *)

(** The flattened view that [getLocked] returns for a prefix. *)
Definition flatView (md : metadata) (pc : PrefixCluster) : option resourceInfo :=
  fst (getLocked md pc).

(** The ancestor of length [b] that [mergeParentLabels] looks up. *)
Definition ancestor (pc : PrefixCluster) (b : Z) : PrefixCluster :=
  NewPrefixCluster (parentPrefix (AsPrefix pc) b) (ClusterID pc).

Definition isCIDR (v : Label) : Prop := Source v = LabelSourceCIDR.

(** Caching a flattened view does not change what [getLocked] returns. *)
Lemma getLocked_view_stable (md : metadata) (pc pc' : PrefixCluster) :
  flatView (snd (getLocked md pc')) pc = flatView md pc.
Proof.
  unfold flatView, getLocked.
  destruct (m md !! canonicalPrefix pc') as [pi'|] eqn:E'; [|done].
  destruct (flattened pi') as [f'|] eqn:Ef'; [done|]. cbn.
  destruct (decide (canonicalPrefix pc' = canonicalPrefix pc)) as [Heq|Hne].
  - rewrite Heq, lookup_insert_eq. rewrite <- Heq, E', Ef'. reflexivity.
  - rewrite lookup_insert_ne by done.
    destruct (m md !! canonicalPrefix pc) as [pi|]; [|done].
    by destruct (flattened pi).
Qed.

(** A view comes from an entry of the map. *)
Lemma flatView_stored (md : metadata) (pc : PrefixCluster) (info : resourceInfo) :
  flatView md pc = Some info -> is_Some (m md !! canonicalPrefix pc).
Proof.
  unfold flatView, getLocked.
  destruct (m md !! canonicalPrefix pc) as [pi|]; [eauto|discriminate].
Qed.

(** The state of the scan: no label of source [cidr] while [hasCIDR] is
    unset, and a [cidr] label that was not in the caller's map is the
    only [cidr] label there is. *)
Definition cidrInv (lbls0 : Labels) (st : Labels * bool) : Prop :=
  (snd st = false -> forall k v, fst st !! k = Some v -> ~ isCIDR v) /\
  (forall k1 v1 k2 v2,
     fst st !! k1 = Some v1 -> isCIDR v1 -> lbls0 !! k1 = None ->
     fst st !! k2 = Some v2 -> isCIDR v2 -> k2 = k1).

Lemma mergeParentLabel_cases (L : Labels) (h : bool) (k : string) (v : Label) :
  (mergeParentLabel (L, h) (k, v) = (L, h) /\
   ((isCIDR v /\ h = true) \/ is_Some (L !! k))) \/
  (mergeParentLabel (L, h) (k, v) =
     (<[ k := v ]> L, if bool_decide (isCIDR v) then true else h) /\
   L !! k = None /\ (isCIDR v -> h = false)).
Proof.
  unfold mergeParentLabel, isCIDR.
  destruct (bool_decide (Source v = LabelSourceCIDR)) eqn:Hc, h; cbn.
  - left. apply bool_decide_eq_true in Hc. auto.
  - destruct (L !! k) eqn:E; [left; eauto | right; auto].
  - apply bool_decide_eq_false in Hc.
    destruct (L !! k) eqn:E; [left; eauto | right; tauto].
  - apply bool_decide_eq_false in Hc.
    destruct (L !! k) eqn:E; [left; eauto | right; tauto].
Qed.

Lemma cidrInv_step (lbls0 : Labels) (st : Labels * bool) (kv : string * Label) :
  cidrInv lbls0 st -> cidrInv lbls0 (mergeParentLabel st kv).
Proof.
  destruct st as [L h], kv as [k v]. intros [I1 I2].
  destruct (mergeParentLabel_cases L h k v) as [[-> _] | (-> & Hk & Hh)];
    [split; assumption|].
  unfold cidrInv. cbn [fst snd] in *. split.
  - case_bool_decide as Hc; [discriminate|].
    intros -> k' v'. rewrite lookup_insert_Some.
    intros [[<- <-] | [_ Hv']]; [done | by apply (I1 eq_refl k' v')].
  - intros k1 v1 k2 v2.
    rewrite !lookup_insert_Some.
    intros [[<- <-] | [Hne1 H1]] Hc1 Hn1 [[<- <-] | [Hne2 H2]] Hc2; try done.
    + exfalso. by apply (I1 (Hh Hc1) k2 v2).
    + exfalso. by apply (I1 (Hh Hc2) k1 v1).
    + by apply (I2 k1 v1 k2 v2).
Qed.

(** The scan of the labels [kvs] of one ancestor. *)
Lemma mergeParentLabel_fold (kvs : list (string * Label)) :
  forall (L : Labels) (h : bool),
    let L' := fst (foldl mergeParentLabel (L, h) kvs) in
    let h' := snd (foldl mergeParentLabel (L, h) kvs) in
    (forall k v, L !! k = Some v -> L' !! k = Some v) /\
    (forall k v, L' !! k = Some v ->
       L !! k = Some v \/ ((k, v) ∈ kvs /\ L !! k = None)) /\
    (forall k v, (k, v) ∈ kvs -> ~ isCIDR v -> is_Some (L' !! k)) /\
    (forall k v, (k, v) ∈ kvs -> L' !! k = None -> isCIDR v).
Proof.
  induction kvs as [|[k0 v0] kvs IH]; intros L h; cbn zeta.
  { cbn. repeat split; auto; intros k v Hin; by apply elem_of_nil in Hin. }
  cbn [foldl].
  destruct (mergeParentLabel_cases L h k0 v0) as [[-> Hc] | (-> & Hk & Hh)].
  - destruct (IH L h) as (Ha & Hb & Hc' & Hd). cbn zeta in *.
    repeat split.
    + exact Ha.
    + intros k v Hv. destruct (Hb k v Hv) as [?|[? ?]]; [by left|right].
      split; [by apply elem_of_cons; right | done].
    + intros k v Hin Hn. apply elem_of_cons in Hin as [[= -> ->] | Hin].
      * destruct Hc as [[? _]|[w Hw]]; [done|]. exists w. by apply Ha.
      * by apply (Hc' k v).
    + intros k v Hin Hnone. apply elem_of_cons in Hin as [[= -> ->] | Hin].
      * destruct Hc as [[? _]|[w Hw]]; [done|].
        apply Ha in Hw. congruence.
      * by apply (Hd k v).
  - destruct (IH (<[ k0 := v0 ]> L) (if bool_decide (isCIDR v0) then true else h))
      as (Ha & Hb & Hc' & Hd). cbn zeta in *.
    assert (Hk0 : fst (foldl mergeParentLabel
                (<[ k0 := v0 ]> L, if bool_decide (isCIDR v0) then true else h) kvs)
              !! k0 = Some v0) by (apply Ha, lookup_insert_eq).
    repeat split.
    + intros k v Hv. apply Ha. rewrite lookup_insert_ne; [done|]. congruence.
    + intros k v Hv. destruct (Hb k v Hv) as [Hi|[Hin Hi]].
      * apply lookup_insert_Some in Hi as [[<- <-]|[? ?]]; [right|by left].
        split; [by apply elem_of_cons; left | done].
      * apply lookup_insert_None in Hi as [? ?]. right.
        split; [by apply elem_of_cons; right | done].
    + intros k v Hin Hn. apply elem_of_cons in Hin as [[= -> ->] | Hin];
        [eauto | by apply (Hc' k v)].
    + intros k v Hin Hnone. apply elem_of_cons in Hin as [[= -> ->] | Hin];
        [congruence | by apply (Hd k v)].
Qed.

Lemma cidrInv_fold (lbls0 : Labels) (kvs : list (string * Label))
    (st : Labels * bool) :
  cidrInv lbls0 st -> cidrInv lbls0 (foldl mergeParentLabel st kvs).
Proof.
  revert st. induction kvs as [|kv kvs IH]; intros st Hinv; [done|].
  cbn. by apply IH, cidrInv_step.
Qed.

(** The scan and [hasCIDR]: the flag stays set; a [cidr] label is left
    out only when its key is taken or the flag is set; and the flag gets
    set only by a [cidr] label that the scan adds. *)
Lemma mergeParentLabel_fold_cidr (kvs : list (string * Label)) :
  forall (L : Labels) (h : bool),
    let L' := fst (foldl mergeParentLabel (L, h) kvs) in
    let h' := snd (foldl mergeParentLabel (L, h) kvs) in
    (h = true -> h' = true) /\
    (forall k v, (k, v) ∈ kvs -> isCIDR v -> is_Some (L' !! k) \/ h' = true) /\
    (h' = true ->
     h = true \/
     exists k v, (k, v) ∈ kvs /\ isCIDR v /\ L' !! k = Some v /\ L !! k = None).
Proof.
  induction kvs as [|[k0 v0] kvs IH]; intros L h; cbn zeta.
  { cbn. repeat split; auto. intros k v Hin. by apply elem_of_nil in Hin. }
  cbn [foldl].
  destruct (mergeParentLabel_cases L h k0 v0) as [[-> Hc] | (-> & Hk & Hh)].
  - destruct (IH L h) as (Hm & He & Hf).
    destruct (mergeParentLabel_fold kvs L h) as (Ha & _). cbn zeta in *.
    repeat split.
    + exact Hm.
    + intros k v Hin Hcidr. apply elem_of_cons in Hin as [[= -> ->] | Hin].
      * destruct Hc as [[_ Hh]|[w Hw]]; [right; auto | left].
        exists w. by apply Ha.
      * by apply (He k v).
    + intros Hh'. destruct (Hf Hh') as [?|(k & v & Hin & ?)]; [by left|right].
      exists k, v. split; [by apply elem_of_cons; right | done].
  - set (h2 := if bool_decide (isCIDR v0) then true else h) in *.
    destruct (IH (<[ k0 := v0 ]> L) h2) as (Hm & He & Hf).
    destruct (mergeParentLabel_fold kvs (<[ k0 := v0 ]> L) h2) as (Ha & _).
    cbn zeta in *.
    assert (Hk0 : fst (foldl mergeParentLabel (<[ k0 := v0 ]> L, h2) kvs)
              !! k0 = Some v0) by (apply Ha, lookup_insert_eq).
    repeat split.
    + intros ->. apply Hm. unfold h2. by case_bool_decide.
    + intros k v Hin Hcidr. apply elem_of_cons in Hin as [[= -> ->] | Hin];
        [left; eauto | by apply (He k v)].
    + intros Hh'. destruct (Hf Hh') as [Hh2|(k & v & Hin & Hcv & Hkv & Hnone)].
      * unfold h2 in Hh2. case_bool_decide as Hc0; [right | by left].
        exists k0, v0. split; [by apply elem_of_cons; left | done].
      * right. exists k, v. apply lookup_insert_None in Hnone as [? ?].
        split; [by apply elem_of_cons; right | done].
Qed.

Section ParentLoop.
Variable rng : RangeOrder.
Hypothesis Hrng : rangeValid rng.
Variable pc : PrefixCluster.

(** The labels of the ancestor of length [b], as the store has them. *)
Definition hasAncestorLabel (md : metadata) (b : nat) (k : string) (v : Label)
    : Prop :=
  exists info, flatView md (ancestor pc (Z.of_nat b)) = Some info /\
               ToLabels info !! k = Some v.

Lemma mergeParentStep_spec (b : nat) (md : metadata) (st : Labels * bool) :
  let res := mergeParentStep rng pc (Z.of_nat b) (md, st) in
  (forall q, flatView (fst res) q = flatView md q) /\
  exists kvs, snd res = foldl mergeParentLabel st kvs /\
    forall k v, (k, v) ∈ kvs <-> hasAncestorLabel md b k v.
Proof.
  cbn zeta. unfold mergeParentStep, hasAncestorLabel. cbn [fst snd].
  fold (ancestor pc (Z.of_nat b)).
  pose proof (getLocked_view_stable md) as Hst.
  unfold flatView in *.
  destruct (getLocked md (ancestor pc (Z.of_nat b))) as [[info|] md'] eqn:E;
    cbn [fst snd].
  - split.
    + intros q. specialize (Hst q (ancestor pc (Z.of_nat b))).
      by rewrite E in Hst.
    + exists (range rng (ToLabels info)). split; [done|].
      intros k v. rewrite (range_elem_of rng Hrng). split.
      * intros Hv. exists info. done.
      * intros (info' & [= <-] & Hv). done.
  - split.
    + intros q. specialize (Hst q (ancestor pc (Z.of_nat b))).
      by rewrite E in Hst.
    + exists []. split; [done|]. intros k v. split.
      * intros Hin. by apply elem_of_nil in Hin.
      * intros (info' & [=] & _).
Qed.

Lemma hasAncestorLabel_views (md md' : metadata) (b : nat) (k : string) (v : Label) :
  (forall q, flatView md' q = flatView md q) ->
  hasAncestorLabel md' b k v <-> hasAncestorLabel md b k v.
Proof. intros Hv. unfold hasAncestorLabel. by rewrite Hv. Qed.

(** The loop over the ancestors of length [n - 1] down to [0]. *)
Lemma mergeParentLoop_spec (lbls0 : Labels) (n : nat) :
  forall (md : metadata) (L : Labels) (h : bool),
    let res := mergeParentLoop rng pc n (md, (L, h)) in
    let L' := fst (snd res) in
    (forall q, flatView (fst res) q = flatView md q) /\
    (forall k v, L !! k = Some v -> L' !! k = Some v) /\
    (forall k v, L' !! k = Some v ->
       L !! k = Some v \/
       exists b, (b < n)%nat /\ hasAncestorLabel md b k v /\ L !! k = None /\
         forall b' v', (b < b' < n)%nat -> hasAncestorLabel md b' k v' ->
                       isCIDR v') /\
    (forall b k v, (b < n)%nat -> hasAncestorLabel md b k v -> ~ isCIDR v ->
       is_Some (L' !! k)) /\
    (forall b k v, (b < n)%nat -> hasAncestorLabel md b k v -> isCIDR v ->
       is_Some (L' !! k) \/ h = true \/
       exists b' k' v', (b <= b' < n)%nat /\ hasAncestorLabel md b' k' v' /\
         isCIDR v' /\ L' !! k' = Some v' /\ L !! k' = None) /\
    (cidrInv lbls0 (L, h) -> cidrInv lbls0 (snd res)).
Proof.
  induction n as [|b IH]; intros md L h; cbn zeta.
  { cbn. split; [done|]. split; [done|]. split; [by left|].
    split; [intros; lia|]. split; [intros; lia | done]. }
  cbn [mergeParentLoop].
  destruct (mergeParentStep_spec b md (L, h)) as (Hviews & kvs & Hst & Hkvs).
  destruct (mergeParentStep rng pc (Z.of_nat b) (md, (L, h))) as [md1 [L1 h1]] eqn:E.
  cbn [fst snd] in Hviews, Hst.
  destruct (mergeParentLabel_fold kvs L h) as (Fa & Fb & Fc & Fd).
  destruct (mergeParentLabel_fold_cidr kvs L h) as (Fm & Fe & Ff).
  rewrite <- Hst in Fa, Fb, Fc, Fd, Fm, Fe, Ff. cbn [fst snd] in *.
  destruct (IH md1 L1 h1) as (Iv & Ia & Ib & Ic & Ig & Ii). cbn zeta in *.
  set (res := mergeParentLoop rng pc b (md1, (L1, h1))) in *.
  assert (Hnone : forall k, L1 !! k = None -> L !! k = None).
  { intros k H1. destruct (L !! k) as [w|] eqn:Ew; [|done].
    apply Fa in Ew. congruence. }
  split; [|split; [|split; [|split; [|split]]]].
  - intros q. by rewrite Iv, Hviews.
  - intros k v Hv. by apply Ia, Fa.
  - intros k v Hv. destruct (Ib k v Hv) as [H1 | (b0 & Hlt & Hanc & H1 & Hlong)].
    + destruct (Fb k v H1) as [?|[Hin HL]]; [by left|right].
      exists b. split; [lia|]. split; [by apply Hkvs|]. split; [done|].
      intros b' v' Hb'. lia.
    + right. exists b0. split; [lia|].
      split; [by apply (hasAncestorLabel_views md md1)|].
      split; [by apply Hnone|].
      intros b' v' Hb' Hanc'. destruct (decide (b' = b)) as [->|Hne].
      * apply (Fd k v'); [by apply Hkvs | done].
      * apply (Hlong b' v'); [lia|]. by apply (hasAncestorLabel_views md md1).
  - intros b0 k v Hlt Hanc Hn. destruct (decide (b0 = b)) as [->|Hne].
    + destruct (Fc k v) as [w Hw]; [by apply Hkvs | done |].
      exists w. by apply Ia.
    + apply (Ic b0 k v); [lia | | done].
      by apply (hasAncestorLabel_views md md1).
  - assert (Hh1 : h1 = true -> h = true \/
              exists b' k' v', (b <= b' < S b)%nat /\
                hasAncestorLabel md b' k' v' /\ isCIDR v' /\
                fst (snd res) !! k' = Some v' /\ L !! k' = None).
    { intros Hh. destruct (Ff Hh) as [?|(k' & v' & Hin & Hc & H1 & HL)];
        [by left|right].
      exists b, k', v'. split; [lia|]. split; [by apply Hkvs|].
      split; [done|]. split; [by apply Ia | done]. }
    intros b0 k v Hlt Hanc Hc. destruct (decide (b0 = b)) as [->|Hne].
    + destruct (Fe k v) as [[w Hw]|Hh]; [by apply Hkvs | done | |].
      * left. exists w. by apply Ia.
      * right. by apply Hh1.
    + destruct (Ig b0 k v) as [?|[Hh|(b' & k' & v' & Hb' & Hanc' & Hc' & Hr & H1)]];
        [lia | by apply (hasAncestorLabel_views md md1) | done | by left | |].
      * right. destruct (Hh1 Hh) as [?|(b' & k' & v' & Hb' & ?)]; [by left|right].
        exists b', k', v'. split; [lia | done].
      * right. right. exists b', k', v'. split; [lia|].
        split; [by apply (hasAncestorLabel_views md md1)|].
        split; [done|]. split; [done | by apply Hnone].
  - intros Hinv. apply Ii. rewrite Hst. by apply cidrInv_fold.
Qed.

End ParentLoop.

Lemma mergeParentLabels_unfold (rng : RangeOrder) (md : metadata)
    (lbls : Labels) (pc : PrefixCluster) :
  let res := mergeParentLoop rng pc (Z.to_nat (netip.Bits (AsPrefix pc)))
               (md, (lbls, HasSource lbls LabelSourceCIDR)) in
  mergeParentLabels rng md lbls pc = (fst (snd res), fst res).
Proof.
  cbn zeta. unfold mergeParentLabels.
  by destruct (mergeParentLoop _ _ _ _) as [md' [L' h']].
Qed.

Lemma cidrInv_init (lbls : Labels) :
  cidrInv lbls (lbls, HasSource lbls LabelSourceCIDR).
Proof.
  split; cbn [fst snd].
  - intros Hh k v Hv. by apply (proj1 (HasSource_false lbls _) Hh k v).
  - intros k1 v1 k2 v2 H1 _ Hn. congruence.
Qed.

(** What [mergeParentLabels] does in terms of the keys that its loop
    reads, for every prefix: [ancestor pc b] is the key read for the
    length [b]. *)
Lemma mergeParentLabels_reads (rng : RangeOrder) (md : metadata)
    (lbls : Labels) (pc : PrefixCluster) :
  rangeValid rng ->
  let r := fst (mergeParentLabels rng md lbls pc) in
  let md' := snd (mergeParentLabels rng md lbls pc) in
  let n := netip.Bits (AsPrefix pc) in
  (forall k v, lbls !! k = Some v -> r !! k = Some v) /\
  (forall k v, r !! k = Some v ->
     lbls !! k = Some v \/
     exists b, (Z.of_nat b < n)%Z /\ hasAncestorLabel pc md b k v /\
       lbls !! k = None /\
       forall b' v', (b < b')%nat -> (Z.of_nat b' < n)%Z ->
                     hasAncestorLabel pc md b' k v' -> isCIDR v') /\
  (forall b k v, (Z.of_nat b < n)%Z -> hasAncestorLabel pc md b k v ->
     ~ isCIDR v -> is_Some (r !! k)) /\
  (forall k1 v1 k2 v2,
     r !! k1 = Some v1 -> isCIDR v1 -> lbls !! k1 = None ->
     r !! k2 = Some v2 -> isCIDR v2 -> k2 = k1) /\
  (forall b k v, (Z.of_nat b < n)%Z -> hasAncestorLabel pc md b k v ->
     isCIDR v ->
     is_Some (r !! k) \/ HasSource lbls LabelSourceCIDR = true \/
     exists b' k' v', (b <= b')%nat /\ (Z.of_nat b' < n)%Z /\
       hasAncestorLabel pc md b' k' v' /\ isCIDR v' /\
       r !! k' = Some v' /\ lbls !! k' = None) /\
  (forall b k v, hasAncestorLabel pc md b k v ->
     is_Some (m md !! canonicalPrefix (ancestor pc (Z.of_nat b)))) /\
  (forall q, flatView md' q = flatView md q).
Proof.
  intros Hrng. cbn zeta. rewrite mergeParentLabels_unfold. cbn [fst snd].
  destruct (mergeParentLoop_spec rng Hrng pc lbls
              (Z.to_nat (netip.Bits (AsPrefix pc))) md lbls
              (HasSource lbls LabelSourceCIDR))
    as (Hv & Ha & Hb & Hc & Hg & Hi).
  cbn zeta in *.
  set (res := mergeParentLoop rng pc _ _) in *.
  specialize (Hi (cidrInv_init lbls)). destruct Hi as [_ Hi2].
  split; [exact Ha|]. split; [|split; [|split; [|split; [|split]]]].
  - intros k v Hr. destruct (Hb k v Hr) as [?|(b & Hlt & Hanc & Hn & Hlong)];
      [by left|right].
    exists b. split; [lia|]. split; [done|]. split; [done|].
    intros b' v' H1 H2. apply Hlong. lia.
  - intros b k v Hlt. apply Hc. lia.
  - exact Hi2.
  - intros b k v Hlt Hanc Hcv.
    destruct (Hg b k v) as [?|[?|(b' & k' & v' & Hb' & ?)]];
      [lia | done | done | by left | by right; left | right; right].
    exists b', k', v'. split; [lia|]. split; [lia | done].
  - intros b k v (info & Hview & _). by apply (flatView_stored md _ info).
  - exact Hv.
Qed.

(** ** The reserved host identity *)

(** Merging a sequence of label maps into [init], later maps replacing
    earlier entries of the same key. *)
Lemma MergeLabels_fold {P : Type} (kvs : list (P * Labels)) :
  forall init : Labels,
    let res := foldl (fun acc kv => MergeLabels acc (snd kv)) init kvs in
    (forall k, is_Some (res !! k) <->
       is_Some (init !! k) \/ exists p l, (p, l) ∈ kvs /\ is_Some (l !! k)) /\
    (forall k v, res !! k = Some v ->
       (exists p l, (p, l) ∈ kvs /\ l !! k = Some v) \/
       (init !! k = Some v /\ forall p l, (p, l) ∈ kvs -> l !! k = None)).
Proof.
  induction kvs as [|[p0 l0] kvs IH]; intros init; cbn zeta.
  { cbn. split.
    - intros k. split; [by left|]. intros [?|(p & l & Hin & _)]; [done|].
      by apply elem_of_nil in Hin.
    - intros k v Hv. right. split; [done|]. intros p l Hin.
      by apply elem_of_nil in Hin. }
  cbn [foldl snd]. destruct (IH (MergeLabels init l0)) as [Hk Hv].
  cbn zeta in *. split.
  - intros k. rewrite Hk, lookup_MergeLabels. split.
    + intros [Hs|(p & l & Hin & Hl)].
      * destruct (l0 !! k) as [w|] eqn:E; [right|by left].
        exists p0, l0. split; [by apply elem_of_cons; left | by rewrite E].
      * right. exists p, l. split; [by apply elem_of_cons; right | done].
    + intros [Hs|(p & l & Hin & Hl)].
      * left. by destruct (l0 !! k).
      * apply elem_of_cons in Hin as [[= -> ->]|Hin].
        -- left. destruct Hl as [w ->]. eauto.
        -- right. eauto.
  - intros k v Hr. destruct (Hv k v Hr) as [(p & l & Hin & Hl)|[Hi Hnone]].
    + left. exists p, l. split; [by apply elem_of_cons; right | done].
    + rewrite lookup_MergeLabels in Hi.
      destruct (l0 !! k) as [w|] eqn:E.
      * left. exists p0, l0. split; [by apply elem_of_cons; left | congruence].
      * right. split; [done|]. intros p l Hin.
        apply elem_of_cons in Hin as [[= -> ->]|Hin]; [done | eauto].
Qed.

(** The identity that [updateReservedHostLabels] returns after recording
    the labels of a prefix. *)
Lemma updateReservedHostLabels_spec (rng : RangeOrder) (md : metadata)
    (p0 : netip.Prefix) (lbls : Labels) :
  rangeValid rng ->
  let i := fst (updateReservedHostLabels rng md p0 (Some lbls)) in
  let md' := snd (updateReservedHostLabels rng md p0 (Some lbls)) in
  let rh := <[ p0 := lbls ]> (reservedHostLabels md) in
  ID i = ReservedIdentityHost /\
  reservedHostLabels md' = rh /\
  m md' = m md /\ prefixes md' = prefixes md /\
  (forall k, is_Some (Labels_ i !! k) <->
     k = IDNameHost \/ exists p l, rh !! p = Some l /\ is_Some (l !! k)) /\
  (forall k v, Labels_ i !! k = Some v ->
     (exists p l, rh !! p = Some l /\ l !! k = Some v) \/
     (LabelHost !! k = Some v /\ forall p l, rh !! p = Some l -> l !! k = None)).
Proof.
  intros Hrng. cbn zeta. unfold updateReservedHostLabels. cbn.
  unfold NewFrom.
  destruct (MergeLabels_fold
              (range rng (<[ p0 := lbls ]> (reservedHostLabels md))) LabelHost)
    as [Hk Hv]. cbn zeta in *.
  repeat split; try reflexivity.
  - rewrite Hk. intros [Hh|(p & l & Hin & Hl)].
    + left. unfold LabelHost in Hh.
      destruct Hh as [w Hw]. by apply lookup_singleton_Some in Hw as [? _].
    + right. exists p, l. split; [|done]. by apply (range_elem_of rng Hrng).
  - rewrite Hk. intros [->|(p & l & Hin & Hl)].
    + left. unfold LabelHost. rewrite lookup_singleton_eq. eauto.
    + right. exists p, l. split; [|done]. by apply (range_elem_of rng Hrng).
  - intros k v Hr. destruct (Hv k v Hr) as [(p & l & Hin & Hl)|[Hi Hnone]].
    + left. exists p, l. split; [|done]. by apply (range_elem_of rng Hrng).
    + right. split; [done|]. intros p l Hin. apply (Hnone p l).
      by apply (range_elem_of rng Hrng).
Qed.

(** C3. For a prefix of cluster 0 whose labels, after the merge of the
    parent labels and [resolveLabels], contain [reserved:host], and whose
    info does not set [identityOverride], [resolveIdentity] returns the
    identity [ReservedIdentityHost] with [isNew = false] and no error; the
    allocator is not called and its state is untouched. The labels of the
    prefix are recorded in [reservedHostLabels], and the labels of the
    returned identity are [reserved:host] merged with every recorded
    label map: the keys are exactly those of [reserved:host] and of the
    recorded maps, every value is the value of some recorded map (or of
    [reserved:host] itself), and every recorded map is contained in
    the result when the recorded maps agree on the keys they share. *)
Theorem resolveIdentity_host (A : IdentityAllocator) (cfg : DaemonConfig)
    (rng : RangeOrder) (ipc : IPCache A) (prefix : PrefixCluster)
    (info : resourceInfo) :
  rangeValid rng ->
  IdentityOverride info = false ->
  ClusterID prefix = 0%N ->
  let lbls :=
    resolveLabels cfg
      (fst (mergeParentLabels rng (ipc_metadata ipc) (ToLabels info) prefix))
      prefix in
  HasHostLabel lbls = true ->
  let res := resolveIdentity cfg rng ipc prefix info in
  let rh := <[ AsPrefix prefix := lbls ]> (reservedHostLabels (ipc_metadata ipc)) in
  exists i,
    fst res = (Some i, false, None) /\
    ID i = ReservedIdentityHost /\
    ipc_alloc (snd res) = ipc_alloc ipc /\
    ipc_allocCalls (snd res) = ipc_allocCalls ipc /\
    reservedHostLabels (ipc_metadata (snd res)) = rh /\
    (forall k, is_Some (Labels_ i !! k) <->
       k = IDNameHost \/ exists p l, rh !! p = Some l /\ is_Some (l !! k)) /\
    (forall k v, Labels_ i !! k = Some v ->
       (exists p l, rh !! p = Some l /\ l !! k = Some v) \/
       LabelHost !! k = Some v) /\
    (forall k, is_Some (lbls !! k) -> is_Some (Labels_ i !! k)) /\
    ((forall p1 l1 p2 l2 k v1 v2,
        rh !! p1 = Some l1 -> rh !! p2 = Some l2 ->
        l1 !! k = Some v1 -> l2 !! k = Some v2 -> v1 = v2) ->
     forall p l, rh !! p = Some l -> l ⊆ Labels_ i).
Proof.
  intros Hrng Hov Hc. cbn zeta. intros Hhost.
  unfold resolveIdentity. rewrite Hov.
  destruct (mergeParentLabels rng (ipc_metadata ipc) (ToLabels info) prefix)
    as [merged md1] eqn:Em. cbn [fst] in *.
  rewrite Hc, Hhost. cbn [N.eqb andb].
  pose proof (updateReservedHostLabels_spec rng md1 (AsPrefix prefix)
                (resolveLabels cfg merged prefix) Hrng) as Hu.
  cbn zeta in Hu.
  destruct (updateReservedHostLabels rng md1 (AsPrefix prefix)
              (Some (resolveLabels cfg merged prefix))) as [i md2] eqn:Eu.
  cbn [fst snd] in *.
  assert (Hrh : reservedHostLabels md1 = reservedHostLabels (ipc_metadata ipc)).
  { pose proof (mergeParentLabels_unfold rng (ipc_metadata ipc) (ToLabels info) prefix) as Hun.
    cbn zeta in Hun. rewrite Em in Hun. injection Hun as _ ->.
    clear. generalize (ToLabels info, HasSource (ToLabels info) LabelSourceCIDR).
    generalize (ipc_metadata ipc).
    induction (Z.to_nat (netip.Bits (AsPrefix prefix))) as [|b IH];
      intros md st; [done|].
    cbn [mergeParentLoop]. unfold mergeParentStep at 1. cbn [fst snd].
    unfold getLocked.
    destruct (m md !! canonicalPrefix _) as [pi|]; [|by rewrite IH].
    destruct (flattened pi); by rewrite IH. }
  rewrite Hrh in Hu. destruct Hu as (Hid & Hrec & _ & _ & Hkeys & Hvals).
  exists i. split; [done|]. split; [done|]. split; [done|]. split; [done|].
  split; [done|]. split; [done|]. split; [|split].
  - intros k v Hv. destruct (Hvals k v Hv) as [?|[? _]]; [by left | by right].
  - intros k Hk. apply Hkeys. right.
    exists (AsPrefix prefix), (resolveLabels cfg merged prefix).
    by rewrite lookup_insert_eq.
  - intros Hagree p l Hl. apply map_subseteq_spec. intros k v Hv.
    assert (Hs : is_Some (Labels_ i !! k)).
    { apply Hkeys. right. exists p, l. rewrite Hv. eauto. }
    destruct Hs as [w Hw]. rewrite Hw. f_equal.
    destruct (Hvals k w Hw) as [(p' & l' & Hl' & Hw')|[_ Hnone]].
    + by apply (Hagree p' l' p l k w v).
    + specialize (Hnone p l Hl). congruence.
Qed.

(** ** Removal of labels *)

(** [appendAPIServerLabelsForDeletion] merges [reserved:world] into the
    map it is given exactly when the current labels are the two labels
    [kube-apiserver] and [world]. *)
Lemma appendAPIServerLabelsForDeletion_spec (lbls cur : Labels) :
  appendAPIServerLabelsForDeletion lbls cur =
  if HasKubeAPIServerLabel cur && HasWorldLabel cur && (size cur =? 2)%nat
  then MergeLabels lbls LabelWorld else lbls.
Proof. reflexivity. Qed.

(** C9, at the failing input. The store holds [exServerA] with exactly
    the labels [kube-apiserver] and [world] and [exServerB] with a third
    label; the caller asks to remove [kube-apiserver]. The loop visits
    [exServerA] first, where [reserved:world] is merged into the caller's
    map; the same map is then passed to [remove] for [exServerB], whose
    labels are not the special case: its [world] label is removed too. *)
Theorem RemoveLabelsExcluded_world_leaks :
  let out := RemoveLabelsExcluded listOrder exServers LabelKubeAPIServer ∅ "rid" in
  (size <$> (ToLabels <$> flatView exServers exServerB)) = Some 3%nat /\
  rs_removeCalls out =
    [ (exServerA, MergeLabels LabelKubeAPIServer LabelWorld);
      (exServerB, MergeLabels LabelKubeAPIServer LabelWorld) ] /\
  rs_lbls out = MergeLabels LabelKubeAPIServer LabelWorld /\
  (ToLabels <$> flatView (rs_metadata out) exServerB)
    = Some (exLabel "k8s" "foo" "bar").
Proof. cbn zeta. repeat split; compute_done. Qed.

(** ** The properties at concrete inputs *)

(** C2, counterexample: the store of the comment of [mergeParentLabels].
    The child 10.1.1.0/24 resolves to a=c, d=e, foo=bar (and the world
    label); its ancestor 10.0.0.0/8 has the label a=b, which is not of
    source [cidr] and which the child's labels do not contain. *)
Lemma mergeParentLabels_not_superset :
  let merged :=
    fst (mergeParentLabels listOrder exParents (exLabel "k8s" "d" "e") exChild24) in
  let resolved := resolveLabels exConfig merged exChild24 in
  netip.covers (AsPrefix exParent8) (AsPrefix exChild24) = true /\
  (ToLabels <$> flatView exParents exParent8) =
    Some (exLabel "k8s" "a" "b" ∪ exLabel "k8s" "foo" "bar") /\
  merged = exLabel "k8s" "a" "c" ∪ exLabel "k8s" "d" "e" ∪ exLabel "k8s" "foo" "bar" /\
  ~ (RemoveFromSource (exLabel "k8s" "a" "b" ∪ exLabel "k8s" "foo" "bar")
       LabelSourceCIDR ⊆ merged) /\
  ~ (RemoveFromSource (exLabel "k8s" "a" "b" ∪ exLabel "k8s" "foo" "bar")
       LabelSourceCIDR ⊆ resolved).
Proof.
  cbn zeta. split; [compute_done|]. split; [compute_done|].
  split; [compute_done|].
  assert (Ha : RemoveFromSource (exLabel "k8s" "a" "b" ∪ exLabel "k8s" "foo" "bar")
                 LabelSourceCIDR !! "a" = Some (mkLabel "a" "b" "k8s"))
    by compute_done.
  split; intros Hsub; apply (lookup_weaken _ _ _ _ Ha) in Hsub;
    revert Hsub; compute_done.
Qed.

(** C3, at a host address on an empty store. *)
Lemma resolveIdentity_host_witness :
  let ipc := @mkIPCache exAllocator newMetadata 0%N [] in
  exists i,
    fst (resolveIdentity exConfig listOrder ipc exHost exHostInfo)
      = (Some i, false, None) /\
    ID i = ReservedIdentityHost /\
    ipc_allocCalls (snd (resolveIdentity exConfig listOrder ipc exHost exHostInfo)) = [].
Proof.
  cbn zeta.
  destruct (resolveIdentity_host exAllocator exConfig listOrder
              (@mkIPCache exAllocator newMetadata 0%N []) exHost exHostInfo
              listOrder_valid eq_refl eq_refl ltac:(compute_done))
    as (i & H1 & H2 & _ & H4 & _).
  exists i. split; [exact H1|]. split; [exact H2 | exact H4].
Defined.

(** C4, counterexample: [upsertLocked] on the zero prefix, which is
    invalid, changes the map and the tries: the prefix is inserted. *)
Lemma upsertLocked_invalid_prefix_inserted :
  let md' := snd (upsertLocked listOrder newMetadata exInvalid source.Local "r1"
                    [MLabels (exLabel "k8s" "a" "b")]) in
  netip.IsValid (AsPrefix exInvalid) = false /\
  canonicalPrefix exInvalid = exInvalid /\
  m md' <> m newMetadata /\
  prefixes md' <> prefixes newMetadata /\
  m md' !! exInvalid =
    Some (mkPrefixInfo
            {[ "r1" := mkResourceInfo (exLabel "k8s" "a" "b") source.Local
                         None None None false None ]} None).
Proof.
  cbn zeta. split; [reflexivity|]. split; [reflexivity|].
  repeat split; compute_done.
Qed.

(** C4, at the zero prefix on the empty store. *)
Lemma invalid_prefix_handling_witness :
  failsCanonicalization exInvalid = true /\
  m newMetadata !! exInvalid = None /\
  canonicalPrefix exInvalid = exInvalid /\
  remove listOrder newMetadata exInvalid "r1" [] = ([], newMetadata) /\
  is_Some (m (snd (upsertLocked listOrder newMetadata exInvalid source.Local
                     "r1" [])) !! exInvalid).
Proof.
  split; [reflexivity|]. split; [reflexivity|].
  destruct (invalid_prefix_handling listOrder newMetadata exInvalid
              source.Local "r1" [] [] eq_refl eq_refl) as (H1 & H2 & H3 & _).
  split; [exact H1|]. split; [exact H2 | exact H3].
Defined.

(** C6, on the empty store: a prefix enqueued under revision 1 is in the
    batch of the next dequeue, which returns revision 1 and leaves 2. *)
Lemma queue_revision_protocol_witness :
  rangeValid listOrder /\
  let md1 := snd (enqueuePrefixUpdates newMetadata [exChild24]) in
  let md2 := snd (enqueuePrefixUpdates md1 [exParent8]) in
  fst (enqueuePrefixUpdates newMetadata [exChild24]) = 1%N /\
  snd (fst (dequeuePrefixUpdates listOrder md2)) = 1%N /\
  exChild24 ∈ fst (fst (dequeuePrefixUpdates listOrder md2)) /\
  queuedRevision (snd (dequeuePrefixUpdates listOrder md2)) = 2%N.
Proof.
  split; [exact listOrder_valid|].
  pose proof (queue_revision_protocol listOrder newMetadata [exChild24]
                [[exParent8]] listOrder_valid) as H.
  cbn zeta in *.
  destruct H as (Hr & _ & _ & Hrev & _ & _ & _ & _ & Hinc & Heq & _ & Hin).
  split; [exact Hr|]. split; [exact Heq|]. split.
  - apply Hin. apply list_elem_of_here.
  - apply Hinc. reflexivity.
Defined.

(** C8, on the empty store. *)
Lemma trie_consistency_preserved_witness :
  trieConsistent newMetadata /\
  trieConsistent (snd (upsertLocked listOrder newMetadata exChild24
                         source.Local "r1" [MLabels (exLabel "k8s" "d" "e")])) /\
  trieConsistent (snd (remove listOrder newMetadata exChild24 "r1" [])).
Proof.
  split; [exact newMetadata_trieConsistent|].
  apply (trie_consistency_preserved listOrder newMetadata exChild24
           source.Local "r1" [MLabels (exLabel "k8s" "d" "e")] []).
  exact newMetadata_trieConsistent.
Defined.

(** C10, on the store of the comment: resource [r2] never contributed to
    10.0.0.0/8, to which [r1] contributes; removing for [r2] is a no-op. *)
Lemma remove_absent_noop_witness :
  (exists info, m exParents !! canonicalPrefix exParent8 = Some info /\
                is_Some (byResource info !! "r1") /\
                byResource info !! "r2" = None) /\
  remove listOrder exParents exParent8 "r2"
    [MLabels (exLabel "k8s" "a" "b")] = ([], exParents).
Proof.
  assert (H : exists info, m exParents !! canonicalPrefix exParent8 = Some info /\
                is_Some (byResource info !! "r1") /\
                byResource info !! "r2" = None).
  { exists (mkPrefixInfo
              {[ "r1" := mkResourceInfo
                           (exLabel "k8s" "a" "b" ∪ exLabel "k8s" "foo" "bar")
                           source.Local None None None false None ]} None).
    repeat split; compute_done. }
  split; [exact H|].
  apply (remove_absent_noop listOrder exParents exParent8 "r2").
  right. destruct H as (info & Hm & _ & Hr). by exists info.
Defined.

(** * Further properties *)

(** ** Canonical prefixes *)

Lemma maskHigh_idem (w x b : N) :
  netip.maskHigh w (netip.maskHigh w x b) b = netip.maskHigh w x b.
Proof.
  unfold netip.maskHigh. by rewrite <- N.land_assoc, N.land_diag.
Qed.

Lemma maskHigh_low_bits (w x b : N) (n : N) :
  (n < w - b)%N -> N.testbit (netip.maskHigh w x b) n = false.
Proof.
  intros Hn. unfold netip.maskHigh.
  rewrite N.land_spec, N.shiftl_spec_low by exact Hn.
  apply andb_false_r.
Qed.

Lemma maskHigh_host_bits_zero (w x b : N) :
  N.land (netip.maskHigh w x b) (N.ones (w - b)) = 0%N.
Proof.
  apply N.bits_inj. intros n. rewrite N.land_spec, N.bits_0.
  destruct (decide (n < w - b)%N) as [Hlt|Hge].
  - by rewrite maskHigh_low_bits.
  - rewrite N.ones_spec_high by lia. apply andb_false_r.
Qed.

Lemma maskHigh_short_not_mapped (x : N) (b : N) :
  (b <= 32)%N -> N.shiftr (netip.maskHigh 128 x b) 32 <> 0xffff%N.
Proof.
  intros Hb E. apply (f_equal (fun y => N.testbit y 0)) in E.
  rewrite N.shiftr_spec' in E. rewrite maskHigh_low_bits in E by lia.
  vm_compute in E. discriminate.
Qed.

Lemma PrefixFrom_in_range (a : netip.Addr) (b : Z) :
  netip.Addr_IsValid a = true -> (0 <= b <= netip.BitLen a)%Z ->
  netip.PrefixFrom a b = netip.mkPrefix a b.
Proof.
  intros Ha Hb. unfold netip.PrefixFrom. rewrite Ha.
  destruct (Z.leb_spec 0 b); [|lia].
  destruct (Z.leb_spec b (netip.BitLen a)); [|lia]. reflexivity.
Qed.

(** The canonical form of an IPv4 prefix whose length is in range. *)
Lemma Addr_Prefix_v4 (x : N) (b : Z) :
  (0 <= b <= 32)%Z ->
  netip.Addr_Prefix (netip.Addr4 x) b =
  Some (netip.mkPrefix (netip.Addr4 (netip.maskHigh 32 x (Z.to_N b))) b).
Proof.
  intros Hb. unfold netip.Addr_Prefix.
  destruct (Z.ltb_spec b 0); [lia|].
  destruct (Z.ltb_spec 32 b); [lia|].
  by rewrite PrefixFrom_in_range.
Qed.

Lemma Addr_Prefix_v6 (x : N) (b : Z) :
  (0 <= b <= 128)%Z ->
  netip.Addr_Prefix (netip.Addr6 x) b =
  Some (netip.mkPrefix (netip.Addr6 (netip.maskHigh 128 x (Z.to_N b))) b).
Proof.
  intros Hb. unfold netip.Addr_Prefix.
  destruct (Z.ltb_spec b 0); [lia|].
  destruct (Z.ltb_spec 128 b); [lia|].
  by rewrite PrefixFrom_in_range.
Qed.

Lemma canonicalPrefix_valid (pc : PrefixCluster) :
  netip.IsValid (AsPrefix pc) = true ->
  canonicalPrefix pc =
  match netip.Addr_Prefix (netip.Unmap (netip.ip (prefix pc)))
                          (netip.bits (prefix pc)) with
  | None => pc
  | Some p => NewPrefixCluster p (clusterID pc)
  end.
Proof. intros Hv. unfold canonicalPrefix. rewrite Hv. reflexivity. Qed.

Lemma IsValid_mkPrefix (a : netip.Addr) (b : Z) :
  (0 <= b)%Z -> netip.IsValid (netip.mkPrefix a b) = true.
Proof. intros Hb. unfold netip.IsValid. cbn. by apply Z.leb_le. Qed.

(** A masked IPv4 prefix is its own canonical form. *)
Lemma canonicalPrefix_v4_masked (x : N) (b : Z) (c : N) :
  (0 <= b <= 32)%Z ->
  let p := netip.mkPrefix (netip.Addr4 (netip.maskHigh 32 x (Z.to_N b))) b in
  canonicalPrefix (NewPrefixCluster p c) = NewPrefixCluster p c.
Proof.
  intros Hb. cbn zeta.
  rewrite canonicalPrefix_valid by (apply IsValid_mkPrefix; lia). cbn.
  rewrite Addr_Prefix_v4 by done. by rewrite maskHigh_idem.
Qed.

(** A masked IPv6 prefix is its own canonical form. *)
Lemma canonicalPrefix_v6_masked (x : N) (b : Z) (c : N) :
  (0 <= b <= 128)%Z ->
  let p := netip.mkPrefix (netip.Addr6 (netip.maskHigh 128 x (Z.to_N b))) b in
  canonicalPrefix (NewPrefixCluster p c) = NewPrefixCluster p c.
Proof.
  intros Hb. cbn zeta.
  rewrite canonicalPrefix_valid by (apply IsValid_mkPrefix; lia).
  cbn [prefix clusterID NewPrefixCluster netip.ip netip.bits netip.Unmap netip.Is4In6].
  destruct (N.eqb_spec (N.shiftr (netip.maskHigh 128 x (Z.to_N b)) 32) 0xffff)
    as [E|E].
  - (* the masked address reads as a mapped one: its length is over 32 *)
    destruct (Z.leb_spec b 32) as [Hle|Hgt].
    + exfalso. revert E. apply maskHigh_short_not_mapped. lia.
    + unfold netip.Addr_Prefix.
      destruct (Z.ltb_spec b 0); [lia|].
      destruct (Z.ltb_spec 32 b); [|lia]. reflexivity.
  - rewrite Addr_Prefix_v6 by done. by rewrite maskHigh_idem.
Qed.

(** The canonical form of a prefix is its own canonical form. *)
Lemma canonicalPrefix_idem (pc : PrefixCluster) :
  canonicalPrefix (canonicalPrefix pc) = canonicalPrefix pc.
Proof.
  destruct (failsCanonicalization pc) eqn:Hf.
  { by rewrite !(canonicalPrefix_fails pc Hf). }
  unfold failsCanonicalization in Hf.
  apply orb_false_iff in Hf as [Hv Hp].
  apply negb_false_iff in Hv. apply bool_decide_eq_false in Hp.
  rewrite (canonicalPrefix_valid pc Hv).
  destruct pc as [[a b] c].
  unfold netip.IsValid in Hv. apply Z.leb_le in Hv.
  cbn [prefix clusterID AsPrefix netip.ip netip.bits netip.Addr_of netip.Bits] in *.
  destruct a as [|x|x];
    cbn [netip.Unmap netip.Is4In6] in *.
  - (* the zero address *)
    unfold netip.Addr_Prefix. destruct (Z.ltb_spec b 0); [lia|].
    reflexivity.
  - destruct (Z.leb_spec b 32) as [Hle|Hgt].
    + rewrite Addr_Prefix_v4 by lia. apply canonicalPrefix_v4_masked. lia.
    + exfalso. apply Hp. unfold netip.Addr_Prefix.
      destruct (Z.ltb_spec b 0); [lia|].
      destruct (Z.ltb_spec 32 b); [done|lia].
  - destruct (N.eqb_spec (N.shiftr x 32) 0xffff) as [E|E].
    + destruct (Z.leb_spec b 32) as [Hle|Hgt].
      * rewrite Addr_Prefix_v4 by lia. apply canonicalPrefix_v4_masked. lia.
      * exfalso. apply Hp. unfold netip.Addr_Prefix.
        destruct (Z.ltb_spec b 0); [lia|].
        destruct (Z.ltb_spec 32 b); [done|lia].
    + destruct (Z.leb_spec b 128) as [Hle|Hgt].
      * rewrite Addr_Prefix_v6 by lia. apply canonicalPrefix_v6_masked. lia.
      * exfalso. apply Hp. unfold netip.Addr_Prefix.
        destruct (Z.ltb_spec b 0); [lia|].
        destruct (Z.ltb_spec 128 b); [done|lia].
Qed.

(** X1. [canonicalPrefix] is idempotent: the canonical form of a prefix is
    its own canonical form. *)
Theorem canonicalPrefix_idempotent (pc : PrefixCluster) :
  canonicalPrefix (canonicalPrefix pc) = canonicalPrefix pc.
Proof. exact (canonicalPrefix_idem pc). Qed.

(** The address is a 32-bit or a 128-bit value. *)
Definition addrInRange (a : netip.Addr) : Prop :=
  match a with
  | netip.AddrZero => False
  | netip.Addr4 x => (x < 2 ^ 32)%N
  | netip.Addr6 x => (x < 2 ^ 128)%N
  end.

(** The bits of the address below the prefix length are zero. *)
Definition hostBitsZero (p : netip.Prefix) : Prop :=
  match netip.ip p with
  | netip.AddrZero => False
  | netip.Addr4 y => N.land y (N.ones (32 - Z.to_N (netip.bits p))) = 0%N
  | netip.Addr6 y => N.land y (N.ones (128 - Z.to_N (netip.bits p))) = 0%N
  end.

Lemma testbit_above (x n k : N) :
  (x < 2 ^ k)%N -> (k <= n)%N -> N.testbit x n = false.
Proof.
  intros Hx Hn. destruct (decide (x = 0%N)) as [->|Hne].
  - apply N.bits_0.
  - apply N.bits_above_log2.
    assert (N.log2 x < k)%N by (apply N.log2_lt_pow2; lia). lia.
Qed.

Lemma maskHigh_v6_not_mapped (x : N) (b : N) :
  (x < 2 ^ 128)%N -> (b <= 128)%N ->
  N.shiftr x 32 <> 0xffff%N ->
  N.shiftr (netip.maskHigh 128 x b) 32 <> 0xffff%N.
Proof.
  intros Hx Hb Hnot E. destruct (decide (b < 96)%N) as [Hlt|Hge].
  - apply (f_equal (fun y => N.testbit y 0)) in E.
    rewrite N.shiftr_spec' in E. rewrite maskHigh_low_bits in E by lia.
    vm_compute in E. discriminate.
  - apply Hnot. rewrite <- E. apply N.bits_inj. intros n.
    rewrite !N.shiftr_spec'. unfold netip.maskHigh. rewrite N.land_spec.
    destruct (decide (n + 32 < 128)%N) as [Hin|Hout].
    + rewrite N.shiftl_spec_high' by lia.
      rewrite N.ones_spec_low by lia. by rewrite andb_true_r.
    + rewrite (testbit_above x (n + 32) 128) by lia. reflexivity.
Qed.

(** ** Ancestors of a canonical prefix *)

(** A prefix is canonical when canonicalization succeeds on it and returns
    it as it is: it is valid, its address is not IPv4-mapped and its host
    bits are zero. These are the keys that [upsertLocked] creates for the
    prefixes that have a canonical form. *)
Definition isCanonical (pc : PrefixCluster) : Prop :=
  failsCanonicalization pc = false /\ canonicalPrefix pc = pc.

(** [q] is a proper ancestor of [pc]: it is of the same cluster, covers
    [pc] and is strictly shorter. *)
Definition properAncestor (q pc : PrefixCluster) : Prop :=
  ClusterID q = ClusterID pc /\
  netip.covers (AsPrefix q) (AsPrefix pc) = true /\
  (netip.Bits (AsPrefix q) < netip.Bits (AsPrefix pc))%Z.

(** The store has an entry under [q] whose flattened labels hold [v]
    under the key [k]. *)
Definition storedLabel (md : metadata) (q : PrefixCluster) (k : string)
    (v : Label) : Prop :=
  is_Some (m md !! q) /\
  exists info, flatView md q = Some info /\ ToLabels info !! k = Some v.

Lemma lt_pow2_of_bits (y w : N) :
  (forall n, (w <= n)%N -> N.testbit y n = false) -> (y < 2 ^ w)%N.
Proof.
  intros Hb. destruct (decide (y = 0%N)) as [->|Hne].
  - apply N.neq_0_lt_0, N.pow_nonzero. lia.
  - apply N.log2_lt_pow2; [lia|].
    destruct (decide (N.log2 y < w)%N) as [?|Hge]; [done|].
    pose proof (N.bit_log2 y Hne) as Ht. rewrite Hb in Ht by lia.
    discriminate.
Qed.

Lemma maskHigh_lt (w x b : N) :
  (b <= w)%N -> (netip.maskHigh w x b < 2 ^ w)%N.
Proof.
  intros Hb. apply lt_pow2_of_bits. intros n Hn. unfold netip.maskHigh.
  rewrite N.land_spec, N.shiftl_spec_high' by lia.
  rewrite N.ones_spec_high by lia. apply andb_false_r.
Qed.

(** The shape of a canonical prefix. *)
Lemma isCanonical_shape (pc : PrefixCluster) :
  isCanonical pc ->
  exists a b c,
    pc = mkPrefixCluster (netip.mkPrefix a b) c /\
    netip.Unmap a = a /\
    ((exists x, a = netip.Addr4 x /\ (0 <= b <= 32)%Z /\
                netip.maskHigh 32 x (Z.to_N b) = x) \/
     (exists x, a = netip.Addr6 x /\ (0 <= b <= 128)%Z /\
                netip.maskHigh 128 x (Z.to_N b) = x /\
                N.shiftr x 32 <> 0xffff%N)).
Proof.
  intros [Hf Hc]. unfold failsCanonicalization in Hf.
  apply orb_false_iff in Hf as [Hv Hp].
  apply negb_false_iff in Hv. apply bool_decide_eq_false in Hp.
  rewrite (canonicalPrefix_valid pc Hv) in Hc.
  destruct pc as [[a b] c]. exists a, b, c. split; [done|].
  unfold netip.IsValid in Hv. apply Z.leb_le in Hv.
  cbn [prefix clusterID AsPrefix netip.ip netip.bits netip.Addr_of netip.Bits] in *.
  destruct a as [|x|x]; cbn [netip.Unmap netip.Is4In6] in *.
  - exfalso. unfold netip.Addr_Prefix in Hc.
    destruct (Z.ltb_spec b 0); [lia|].
    unfold netip.zeroPrefix, NewPrefixCluster in Hc.
    injection Hc as Hb. lia.
  - split; [done|]. left. exists x.
    destruct (Z.leb_spec b 32) as [Hle|Hgt].
    + rewrite Addr_Prefix_v4 in Hc by lia.
      unfold NewPrefixCluster in Hc. injection Hc as Hx.
      split; [done|]. split; [lia | done].
    + exfalso. apply Hp. unfold netip.Addr_Prefix.
      destruct (Z.ltb_spec b 0); [lia|].
      destruct (Z.ltb_spec 32 b); [done|lia].
  - destruct (N.eqb_spec (N.shiftr x 32) 0xffff) as [E|E].
    + exfalso. destruct (Z.leb_spec b 32) as [Hle|Hgt].
      * rewrite Addr_Prefix_v4 in Hc by lia.
        unfold NewPrefixCluster in Hc. discriminate Hc.
      * apply Hp. unfold netip.Addr_Prefix.
        destruct (Z.ltb_spec b 0); [lia|].
        destruct (Z.ltb_spec 32 b); [done|lia].
    + split; [done|]. right. exists x.
      destruct (Z.leb_spec b 128) as [Hle|Hgt].
      * rewrite Addr_Prefix_v6 in Hc by lia.
        unfold NewPrefixCluster in Hc. injection Hc as Hx.
        split; [done|]. split; [lia|]. split; done.
      * exfalso. apply Hp. unfold netip.Addr_Prefix.
        destruct (Z.ltb_spec b 0); [lia|].
        destruct (Z.ltb_spec 128 b); [done|lia].
Qed.

(** A masked IPv4 prefix, and a masked IPv6 prefix whose address is not
    IPv4-mapped, is canonical. *)
Lemma isCanonical_v4_masked (x : N) (b : Z) (c : N) :
  (0 <= b <= 32)%Z ->
  isCanonical (mkPrefixCluster
                 (netip.mkPrefix (netip.Addr4 (netip.maskHigh 32 x (Z.to_N b))) b) c).
Proof.
  intros Hb. split; [|by apply (canonicalPrefix_v4_masked x b c)].
  unfold failsCanonicalization. apply orb_false_iff. split.
  - apply negb_false_iff, IsValid_mkPrefix. lia.
  - apply bool_decide_eq_false. cbn. by rewrite Addr_Prefix_v4.
Qed.

Lemma isCanonical_v6_masked (x : N) (b : Z) (c : N) :
  (0 <= b <= 128)%Z ->
  N.shiftr (netip.maskHigh 128 x (Z.to_N b)) 32 <> 0xffff%N ->
  isCanonical (mkPrefixCluster
                 (netip.mkPrefix (netip.Addr6 (netip.maskHigh 128 x (Z.to_N b))) b) c).
Proof.
  intros Hb Hn. split; [|by apply (canonicalPrefix_v6_masked x b c)].
  unfold failsCanonicalization. apply orb_false_iff. split.
  - apply negb_false_iff, IsValid_mkPrefix. lia.
  - apply bool_decide_eq_false.
    cbn [AsPrefix prefix netip.Addr_of netip.Bits netip.ip netip.bits
         netip.Unmap netip.Is4In6].
    destruct (N.eqb_spec (N.shiftr (netip.maskHigh 128 x (Z.to_N b)) 32) 0xffff);
      [done|].
    by rewrite Addr_Prefix_v6.
Qed.

(** The key that [mergeParentLabels] reads for a length below that of a
    canonical prefix is canonical, has that length and covers the
    prefix. *)
Lemma ancestor_of_canonical (pc : PrefixCluster) (b : Z) :
  isCanonical pc -> (0 <= b < netip.Bits (AsPrefix pc))%Z ->
  isCanonical (ancestor pc b) /\
  properAncestor (ancestor pc b) pc /\
  netip.Bits (AsPrefix (ancestor pc b)) = b.
Proof.
  intros Hc Hb.
  destruct (isCanonical_shape pc Hc) as (a & bp & c & -> & Hu & Hs).
  unfold ancestor, parentPrefix, properAncestor.
  cbn [AsPrefix ClusterID prefix clusterID netip.Addr_of netip.Bits
       netip.ip netip.bits] in *.
  rewrite Hu.
  destruct Hs as [(x & -> & Hbp & Hx) | (x & -> & Hbp & Hx & Hn)].
  - rewrite Addr_Prefix_v4 by lia.
    cbn [default from_option id NewPrefixCluster AsPrefix ClusterID prefix
         clusterID netip.Bits netip.bits netip.ip].
    split; [apply isCanonical_v4_masked; lia|]. split; [|done].
    split; [done|]. split; [|lia].
    unfold netip.covers, netip.IsValid. cbn [netip.bits netip.ip].
    rewrite maskHigh_idem, N.eqb_refl.
    destruct (Z.leb_spec 0 b); [|lia]. destruct (Z.leb_spec 0 bp); [|lia].
    destruct (Z.leb_spec b bp); [done|lia].
  - rewrite Addr_Prefix_v6 by lia.
    cbn [default from_option id NewPrefixCluster AsPrefix ClusterID prefix
         clusterID netip.Bits netip.bits netip.ip].
    split; [|split; [|done]].
    + apply isCanonical_v6_masked; [lia|].
      apply maskHigh_v6_not_mapped; [|lia|done].
      rewrite <- Hx. apply maskHigh_lt. lia.
    + split; [done|]. split; [|lia].
      unfold netip.covers, netip.IsValid. cbn [netip.bits netip.ip].
      rewrite maskHigh_idem, N.eqb_refl.
      destruct (Z.leb_spec 0 b); [|lia]. destruct (Z.leb_spec 0 bp); [|lia].
      destruct (Z.leb_spec b bp); [done|lia].
Qed.

(** Every canonical proper ancestor of a canonical prefix is the key that
    [mergeParentLabels] reads for its length. *)
Lemma canonical_ancestor_read (q pc : PrefixCluster) :
  isCanonical pc -> isCanonical q -> properAncestor q pc ->
  q = ancestor pc (netip.Bits (AsPrefix q)) /\
  (0 <= netip.Bits (AsPrefix q))%Z.
Proof.
  intros Hc Hq (Hcl & Hcov & Hlt).
  destruct (isCanonical_shape pc Hc) as (a & bp & c & -> & Hu & Hs).
  destruct (isCanonical_shape q Hq) as (aq & bq & cq & -> & _ & Hsq).
  unfold ancestor, parentPrefix.
  cbn [AsPrefix ClusterID prefix clusterID netip.Addr_of netip.Bits
       netip.ip netip.bits] in *.
  subst cq. rewrite Hu.
  unfold netip.covers in Hcov. cbn [netip.bits netip.ip] in Hcov.
  apply andb_true_iff in Hcov as [_ Hcov].
  destruct Hs as [(x & -> & Hbp & Hx) | (x & -> & Hbp & Hx & Hn)];
    destruct Hsq as [(y & -> & Hbq & Hy) | (y & -> & Hbq & Hy & Hny)];
    try discriminate Hcov; apply N.eqb_eq in Hcov.
  - rewrite Addr_Prefix_v4 by lia. cbn [default from_option id]. split; [|lia].
    unfold NewPrefixCluster. by rewrite <- Hcov, Hy.
  - rewrite Addr_Prefix_v6 by lia. cbn [default from_option id]. split; [|lia].
    unfold NewPrefixCluster. by rewrite <- Hcov, Hy.
Qed.

(** C2 (as the code has it). [mergeParentLabels] keeps every entry of the
    caller's map and adds a label only under a key that the map lacks.
    For each length [b] below that of the prefix it reads one key,
    [ancestor pc b]: [prefix.Addr().Unmap().Prefix(b)] in the cluster of
    the prefix, the zero prefix where that call fails.

    For every prefix, in terms of the keys read: a label that is added
    comes from a key read that is stored, and no key read for a greater
    length offers the label key with a label that is not of source
    [cidr]; every key of a label of a key read that is not of source
    [cidr] is a key of the result (with the value of the child or of the
    longest key read that defines it, not with the value of every one);
    a [cidr] label that is added is the only [cidr] label of the result,
    so at most one is added and none when the caller's map has one; a
    [cidr] label is left out only when its key is taken, or the caller's
    map has a [cidr] label, or a [cidr] label of a key read for a length
    at least as great was added.

    For a canonical prefix the keys read are exactly its canonical
    proper ancestors: the key read for [b] is canonical, of the cluster
    of the prefix, of length [b] and covers the prefix, and every
    canonical prefix of the cluster that covers the prefix and is
    strictly shorter is the key read for its length. The three
    statements above then hold with "canonical proper ancestor that the
    store holds" for "key read". *)
Theorem mergeParentLabels_inherits (rng : RangeOrder) (md : metadata)
    (lbls : Labels) (pc : PrefixCluster) :
  rangeValid rng ->
  let r := fst (mergeParentLabels rng md lbls pc) in
  let md' := snd (mergeParentLabels rng md lbls pc) in
  let n := netip.Bits (AsPrefix pc) in
  (forall k v, lbls !! k = Some v -> r !! k = Some v) /\
  (forall k v, r !! k = Some v ->
     lbls !! k = Some v \/
     exists b, (Z.of_nat b < n)%Z /\ hasAncestorLabel pc md b k v /\
       lbls !! k = None /\
       forall b' v', (b < b')%nat -> (Z.of_nat b' < n)%Z ->
                     hasAncestorLabel pc md b' k v' -> isCIDR v') /\
  (forall b k v, (Z.of_nat b < n)%Z -> hasAncestorLabel pc md b k v ->
     ~ isCIDR v -> is_Some (r !! k)) /\
  (forall k1 v1 k2 v2,
     r !! k1 = Some v1 -> isCIDR v1 -> lbls !! k1 = None ->
     r !! k2 = Some v2 -> isCIDR v2 -> k2 = k1) /\
  (forall b k v, (Z.of_nat b < n)%Z -> hasAncestorLabel pc md b k v ->
     isCIDR v ->
     is_Some (r !! k) \/ HasSource lbls LabelSourceCIDR = true \/
     exists b' k' v', (b <= b')%nat /\ (Z.of_nat b' < n)%Z /\
       hasAncestorLabel pc md b' k' v' /\ isCIDR v' /\
       r !! k' = Some v' /\ lbls !! k' = None) /\
  (forall b k v, hasAncestorLabel pc md b k v ->
     is_Some (m md !! canonicalPrefix (ancestor pc (Z.of_nat b)))) /\
  (forall b : nat, ClusterID (ancestor pc (Z.of_nat b)) = ClusterID pc) /\
  (forall q, flatView md' q = flatView md q) /\
  (isCanonical pc ->
   (forall b : nat, (Z.of_nat b < n)%Z ->
      isCanonical (ancestor pc (Z.of_nat b)) /\
      properAncestor (ancestor pc (Z.of_nat b)) pc /\
      netip.Bits (AsPrefix (ancestor pc (Z.of_nat b))) = Z.of_nat b) /\
   (forall q, isCanonical q -> properAncestor q pc ->
      exists b : nat, (Z.of_nat b < n)%Z /\ q = ancestor pc (Z.of_nat b)) /\
   (forall k v, r !! k = Some v ->
      lbls !! k = Some v \/
      exists q, isCanonical q /\ properAncestor q pc /\
        storedLabel md q k v /\ lbls !! k = None /\
        forall q' v', isCanonical q' -> properAncestor q' pc ->
          (netip.Bits (AsPrefix q) < netip.Bits (AsPrefix q'))%Z ->
          storedLabel md q' k v' -> isCIDR v') /\
   (forall q k v, isCanonical q -> properAncestor q pc ->
      storedLabel md q k v -> ~ isCIDR v -> is_Some (r !! k)) /\
   (forall q k v, isCanonical q -> properAncestor q pc ->
      storedLabel md q k v -> isCIDR v ->
      is_Some (r !! k) \/ HasSource lbls LabelSourceCIDR = true \/
      exists q' k' v', isCanonical q' /\ properAncestor q' pc /\
        (netip.Bits (AsPrefix q) <= netip.Bits (AsPrefix q'))%Z /\
        storedLabel md q' k' v' /\ isCIDR v' /\
        r !! k' = Some v' /\ lbls !! k' = None)).
Proof.
  intros Hrng.
  pose proof (mergeParentLabels_reads rng md lbls pc Hrng) as H.
  cbn zeta in *.
  destruct H as (Hkeep & Hadd & Hkeys & Hone & Hcidr & Hstored & Hview).
  split; [exact Hkeep|]. split; [exact Hadd|]. split; [exact Hkeys|].
  split; [exact Hone|]. split; [exact Hcidr|]. split; [exact Hstored|].
  split; [done|]. split; [exact Hview|].
  intros Hc.
  assert (Hanc : forall b : nat, (Z.of_nat b < netip.Bits (AsPrefix pc))%Z ->
            isCanonical (ancestor pc (Z.of_nat b)) /\
            properAncestor (ancestor pc (Z.of_nat b)) pc /\
            netip.Bits (AsPrefix (ancestor pc (Z.of_nat b))) = Z.of_nat b).
  { intros b Hb. apply ancestor_of_canonical; [done | lia]. }
  assert (Hread : forall q, isCanonical q -> properAncestor q pc ->
            exists b : nat, (Z.of_nat b < netip.Bits (AsPrefix pc))%Z /\
                            q = ancestor pc (Z.of_nat b) /\
                            netip.Bits (AsPrefix q) = Z.of_nat b).
  { intros q Hq Hp. destruct (canonical_ancestor_read q pc Hc Hq Hp) as [He Hn].
    exists (Z.to_nat (netip.Bits (AsPrefix q))).
    rewrite Z2Nat.id by done. destruct Hp as (_ & _ & Hlt). done. }
  assert (Hsl : forall b k v, (Z.of_nat b < netip.Bits (AsPrefix pc))%Z ->
            hasAncestorLabel pc md b k v ->
            storedLabel md (ancestor pc (Z.of_nat b)) k v).
  { intros b k v Hb Hl. split; [|exact Hl].
    destruct (Hanc b Hb) as [[_ Hcan] _]. rewrite <- Hcan.
    by apply (Hstored b k v). }
  split; [exact Hanc|]. split; [|split; [|split]].
  - intros q Hq Hp. destruct (Hread q Hq Hp) as (b & Hb & He & _). eauto.
  - intros k v Hr.
    destruct (Hadd k v Hr) as [?|(b & Hb & Hl & Hn & Hlong)]; [by left|right].
    destruct (Hanc b Hb) as (Hcb & Hpb & Hbb).
    exists (ancestor pc (Z.of_nat b)).
    split; [done|]. split; [done|]. split; [by apply Hsl|]. split; [done|].
    intros q' v' Hq' Hp' Hlt [_ Hl'].
    destruct (Hread q' Hq' Hp') as (b' & Hb' & -> & Hbits).
    apply (Hlong b' v'); [lia | done | exact Hl'].
  - intros q k v Hq Hp [_ Hl] Hnc.
    destruct (Hread q Hq Hp) as (b & Hb & -> & _).
    by apply (Hkeys b k v).
  - intros q k v Hq Hp [_ Hl] Hcv.
    destruct (Hread q Hq Hp) as (b & Hb & -> & Hbits).
    destruct (Hcidr b k v Hb Hl Hcv)
      as [?|[?|(b' & k' & v' & Hle & Hb' & Hl' & Hc' & Hr' & Hn')]];
      [by left | by right; left | right; right].
    destruct (Hanc b' Hb') as (Hcb & Hpb & Hbb).
    exists (ancestor pc (Z.of_nat b')), k', v'.
    split; [done|]. split; [done|]. split; [lia|].
    split; [by apply Hsl|]. done.
Qed.

(** C2, at the store of the comment: the labels of the child are kept,
    the key [a] of the shorter ancestor is present, and the key read for
    the length 8 covers the child. *)
Lemma mergeParentLabels_inherits_witness :
  rangeValid listOrder /\
  let r := fst (mergeParentLabels listOrder exParents (exLabel "k8s" "d" "e") exChild24) in
  (forall k v, exLabel "k8s" "d" "e" !! k = Some v -> r !! k = Some v) /\
  is_Some (r !! "a") /\
  netip.covers (AsPrefix (ancestor exChild24 8)) (AsPrefix exChild24) = true.
Proof.
  split; [exact listOrder_valid|].
  pose proof (mergeParentLabels_inherits listOrder exParents
                (exLabel "k8s" "d" "e") exChild24 listOrder_valid) as H.
  cbn zeta in *. destruct H as (Hkeep & _ & Hkeys & _ & _ & _ & _ & _ & Hcan).
  split; [exact Hkeep|]. split.
  - apply (Hkeys 8%nat "a" (mkLabel "a" "b" "k8s")).
    + reflexivity.
    + exists (mkResourceInfo (exLabel "k8s" "a" "b" ∪ exLabel "k8s" "foo" "bar")
                source.Local None None None false None).
      split; compute_done.
    + discriminate.
  - destruct (Hcan ltac:(split; reflexivity)) as (Hanc & _).
    destruct (Hanc 8%nat ltac:(reflexivity)) as (_ & (_ & Hcov & _) & _).
    exact Hcov.
Defined.

(** C2, at a prefix that is not canonical: the IPv4-mapped
    ::ffff:10.1.2.3/104 has no canonical form and is a key of the store
    as it is. For the lengths over 32 the loop reads the zero prefix, for
    the length 32 it reads 10.1.2.3/32, which does not cover the prefix;
    the stored ::ffff:0:0/96, which covers it, is read for no length, and
    its label is not inherited. *)
Lemma mergeParentLabels_mapped_reads :
  failsCanonicalization exMapped = true /\
  canonicalPrefix exMapped = exMapped /\
  properAncestor exMapped96 exMapped /\
  (ToLabels <$> flatView exMappedStore exMapped96) = Some (exLabel "k8s" "x" "1") /\
  (forall b, (32 < b)%Z -> ancestor exMapped b = exInvalid) /\
  (forall b, ancestor exMapped b <> exMapped96) /\
  ancestor exMapped 32 = exPrefix 0x0a010203 32 /\
  netip.covers (AsPrefix (ancestor exMapped 32)) (AsPrefix exMapped) = false /\
  fst (mergeParentLabels listOrder exMappedStore ∅ exMapped)
    = exLabel "k8s" "y" "2" ∪ exLabel "k8s" "z" "3".
Proof.
  assert (Hu : forall b, ancestor exMapped b =
            NewPrefixCluster
              (default netip.zeroPrefix
                 (netip.Addr_Prefix (netip.Addr4 0x0a010203) b)) 0)
    by reflexivity.
  split; [reflexivity|]. split; [reflexivity|].
  split; [repeat split; compute_done|]. split; [compute_done|].
  split; [|split].
  - intros b Hb. rewrite Hu. unfold netip.Addr_Prefix.
    destruct (Z.ltb_spec b 0); [lia|].
    destruct (Z.ltb_spec 32 b); [reflexivity|lia].
  - intros b. rewrite Hu. unfold netip.Addr_Prefix, netip.PrefixFrom.
    destruct (b <? 0)%Z; [discriminate|].
    destruct (32 <? b)%Z; [discriminate|].
    destruct (_ && _ && _); discriminate.
  - repeat split; compute_done.
Qed.

(** X2. When canonicalization succeeds on a prefix with a well-formed
    address, the canonical prefix is valid, has the same cluster and the
    same length, has its host bits zeroed and its address is not an
    IPv4-mapped IPv6 address. *)
Theorem canonicalPrefix_canonical (pc : PrefixCluster) :
  failsCanonicalization pc = false ->
  addrInRange (netip.Addr_of (AsPrefix pc)) ->
  let cp := canonicalPrefix pc in
  ClusterID cp = ClusterID pc /\
  netip.Bits (AsPrefix cp) = netip.Bits (AsPrefix pc) /\
  netip.IsValid (AsPrefix cp) = true /\
  netip.Is4In6 (netip.Addr_of (AsPrefix cp)) = false /\
  hostBitsZero (AsPrefix cp).
Proof.
  intros Hf Hwf. cbn zeta.
  unfold failsCanonicalization in Hf.
  apply orb_false_iff in Hf as [Hv Hp].
  apply negb_false_iff in Hv. apply bool_decide_eq_false in Hp.
  rewrite (canonicalPrefix_valid pc Hv).
  destruct pc as [[a b] c].
  pose proof Hv as Hv'. unfold netip.IsValid in Hv'. apply Z.leb_le in Hv'.
  cbn [prefix clusterID AsPrefix netip.ip netip.bits netip.Addr_of netip.Bits] in *.
  assert (Hfin : forall (p : netip.Prefix),
            netip.bits p = b -> netip.Is4In6 (netip.ip p) = false ->
            hostBitsZero p ->
            ClusterID (NewPrefixCluster p c) = c /\
            netip.bits (prefix (NewPrefixCluster p c)) = b /\
            netip.IsValid (prefix (NewPrefixCluster p c)) = true /\
            netip.Is4In6 (netip.ip (prefix (NewPrefixCluster p c))) = false /\
            hostBitsZero (prefix (NewPrefixCluster p c))).
  { intros p Hb H4 Hz. cbn. repeat split; try done.
    unfold netip.IsValid. rewrite Hb. by apply Z.leb_le. }
  destruct a as [|x|x]; cbn [netip.Unmap netip.Is4In6 addrInRange] in *;
    [done| |].
  - destruct (Z.leb_spec b 32) as [Hle|Hgt].
    + rewrite Addr_Prefix_v4 by lia. apply Hfin; [done|done|].
      unfold hostBitsZero. cbn. apply maskHigh_host_bits_zero.
    + exfalso. apply Hp. unfold netip.Addr_Prefix.
      destruct (Z.ltb_spec b 0); [lia|].
      destruct (Z.ltb_spec 32 b); [done|lia].
  - destruct (N.eqb_spec (N.shiftr x 32) 0xffff) as [E|E].
    + destruct (Z.leb_spec b 32) as [Hle|Hgt].
      * rewrite Addr_Prefix_v4 by lia. apply Hfin; [done|done|].
        unfold hostBitsZero. cbn. apply maskHigh_host_bits_zero.
      * exfalso. apply Hp. unfold netip.Addr_Prefix.
        destruct (Z.ltb_spec b 0); [lia|].
        destruct (Z.ltb_spec 32 b); [done|lia].
    + destruct (Z.leb_spec b 128) as [Hle|Hgt].
      * rewrite Addr_Prefix_v6 by lia. apply Hfin; [done| |].
        -- cbn. apply N.eqb_neq. apply maskHigh_v6_not_mapped; [done|lia|done].
        -- unfold hostBitsZero. cbn. apply maskHigh_host_bits_zero.
      * exfalso. apply Hp. unfold netip.Addr_Prefix.
        destruct (Z.ltb_spec b 0); [lia|].
        destruct (Z.ltb_spec 128 b); [done|lia].
Qed.

(** X3. An IPv4-mapped IPv6 prefix with a length over 32 has no canonical
    form: [canonicalPrefix] returns it as it is, still IPv4-mapped, so the
    store keeps it under a key that is not canonical. A mapped prefix of
    length at most 32 becomes the IPv4 prefix of the same length. *)
Theorem canonicalPrefix_mapped (x : N) (b : Z) (c : N) :
  netip.Is4In6 (netip.Addr6 x) = true ->
  (0 <= b <= 128)%Z ->
  let pc := NewPrefixCluster (netip.mkPrefix (netip.Addr6 x) b) c in
  canonicalPrefix pc =
  if (32 <? b)%Z then pc
  else NewPrefixCluster
         (netip.mkPrefix
            (netip.Addr4 (netip.maskHigh 32 (N.land x 0xffffffff) (Z.to_N b))) b)
         c.
Proof.
  intros Hm Hb. cbn zeta.
  rewrite canonicalPrefix_valid by (apply IsValid_mkPrefix; lia).
  cbn [prefix clusterID NewPrefixCluster netip.ip netip.bits netip.Unmap].
  rewrite Hm. destruct (Z.ltb_spec 32 b) as [Hgt|Hle].
  - unfold netip.Addr_Prefix. destruct (Z.ltb_spec b 0); [lia|].
    destruct (Z.ltb_spec 32 b); [done|lia].
  - by rewrite Addr_Prefix_v4 by lia.
Qed.

(** ** Reads and writes of the store *)

(** What a read returns and what it leaves of the store. *)
Lemma getLocked_stable (md : metadata) (pc : PrefixCluster) :
  let r := getLocked md pc in
  getLocked (snd r) pc = r /\
  (fst r = None <-> m md !! canonicalPrefix pc = None) /\
  (m md !! canonicalPrefix pc = None -> snd r = md) /\
  (forall q, byResource <$> (m (snd r) !! q) = byResource <$> (m md !! q)) /\
  prefixes (snd r) = prefixes md /\
  queuedPrefixes (snd r) = queuedPrefixes md /\
  queuedRevision (snd r) = queuedRevision md /\
  injectedRevision (snd r) = injectedRevision md /\
  reservedHostLabels (snd r) = reservedHostLabels md.
Proof.
  cbn zeta. unfold getLocked.
  destruct (m md !! canonicalPrefix pc) as [pi|] eqn:E.
  - destruct (flattened pi) as [f|] eqn:Ef; cbn [fst snd].
    + rewrite E, Ef. repeat split; try done.
    + cbn. rewrite lookup_insert_eq. cbn.
      split; [done|]. split; [done|]. split; [done|].
      split; [|done]. intros q.
      destruct (decide (canonicalPrefix pc = q)) as [<-|Hne].
      * by rewrite lookup_insert_eq, E.
      * by rewrite lookup_insert_ne.
  - cbn. rewrite E. repeat split; done.
Qed.

(** X4. Reading a prefix is repeatable: a second [getLocked] returns the
    same view and leaves the store as the first read left it. A prefix
    without entry reads as nil and the store is untouched. A read changes
    nothing but the cached view: the contributions of every prefix, the
    tries, the queue and the revisions stay as they are. *)
Theorem getLocked_repeatable (md : metadata) (pc : PrefixCluster) :
  let r := getLocked md pc in
  getLocked (snd r) pc = r /\
  (fst r = None <-> m md !! canonicalPrefix pc = None) /\
  (m md !! canonicalPrefix pc = None -> snd r = md) /\
  (forall q, byResource <$> (m (snd r) !! q) = byResource <$> (m md !! q)) /\
  prefixes (snd r) = prefixes md /\
  queuedPrefixes (snd r) = queuedPrefixes md /\
  queuedRevision (snd r) = queuedRevision md /\
  injectedRevision (snd r) = injectedRevision md /\
  reservedHostLabels (snd r) = reservedHostLabels md.
Proof. exact (getLocked_stable md pc). Qed.

(** X5. [upsertLocked] writes one contribution: the entries of all other
    prefixes and the contributions of all other resources to the prefix
    stay as they are, the entry of the canonical prefix exists afterwards
    and holds a contribution of the resource, nothing leaves the tries,
    and the queue, the revisions and the host labels are not touched. *)
Theorem upsertLocked_frame (rng : RangeOrder) (md : metadata)
    (prefix : PrefixCluster) (src : source.Source) (resource : ResourceID)
    (info : list IPMetadata) :
  let md' := snd (upsertLocked rng md prefix src resource info) in
  let cp := canonicalPrefix prefix in
  (forall q, q <> cp -> m md' !! q = m md !! q) /\
  (exists pi', m md' !! cp = Some pi' /\
     is_Some (byResource pi' !! resource) /\
     forall r, r <> resource ->
       byResource pi' !! r =
       match m md !! cp with
       | Some pi => byResource pi !! r
       | None => None
       end) /\
  (forall c p, bitlpm.stored (prefixes md) c p ->
               bitlpm.stored (prefixes md') c p) /\
  queuedPrefixes md' = queuedPrefixes md /\
  queuedRevision md' = queuedRevision md /\
  injectedRevision md' = injectedRevision md /\
  reservedHostLabels md' = reservedHostLabels md.
Proof.
  cbn zeta.
  destruct (upsertLocked_store rng md prefix src resource info) as [_ Ht].
  cbn zeta in Ht. split; [|split; [|split]].
  - intros q Hq. unfold upsertLocked.
    destruct (m md !! canonicalPrefix prefix) as [pi|];
      destruct (byResource _ !! resource) as [ri|];
      destruct (mergeAll _ _ _) as [ri' changed];
      destruct (negb changed || has _ _ _); cbn;
      by rewrite lookup_insert_ne.
  - unfold upsertLocked.
    destruct (m md !! canonicalPrefix prefix) as [pi|];
      destruct (byResource _ !! resource) as [ri|];
      destruct (mergeAll _ _ _) as [ri' changed];
      destruct (negb changed || has _ _ _); cbn;
      rewrite lookup_insert_eq; eexists; (split; [reflexivity|]);
      cbn; rewrite lookup_insert_eq; (split; [eauto|]);
      intros r Hr; by rewrite lookup_insert_ne.
  - intros c p Hs. rewrite Ht.
    destruct (m md !! canonicalPrefix prefix); [done|].
    apply stored_Upsert. by right.
  - unfold upsertLocked.
    destruct (m md !! canonicalPrefix prefix) as [pi|];
      destruct (byResource _ !! resource) as [ri|];
      destruct (mergeAll _ _ _) as [ri' changed];
      destruct (negb changed || has _ _ _); cbn; done.
Qed.

(** What [remove] leaves as it is. *)
Lemma remove_others (rng : RangeOrder) (md : metadata)
    (prefix : PrefixCluster) (resource : ResourceID) (aux : list IPMetadata) :
  let md' := snd (remove rng md prefix resource aux) in
  let cp := canonicalPrefix prefix in
  (forall q, q <> cp -> m md' !! q = m md !! q) /\
  (forall pi', m md' !! cp = Some pi' ->
     exists pi, m md !! cp = Some pi /\
       forall r, r <> resource -> byResource pi' !! r = byResource pi !! r) /\
  (forall c p, bitlpm.stored (prefixes md') c p ->
               bitlpm.stored (prefixes md) c p) /\
  queuedPrefixes md' = queuedPrefixes md /\
  queuedRevision md' = queuedRevision md /\
  injectedRevision md' = injectedRevision md /\
  reservedHostLabels md' = reservedHostLabels md.
Proof.
  cbn zeta. unfold remove.
  destruct (m md !! canonicalPrefix prefix) as [pi|] eqn:Hcp.
  2:{ cbn. rewrite Hcp. repeat split; try done. }
  destruct (byResource pi !! resource) as [ri|] eqn:Hres.
  2:{ cbn. rewrite Hcp. repeat split; try done.
      intros pi' [= <-]. eauto. }
  destruct (negb (prefixInfo_isValid _)); cbn.
  - split; [|split; [|split]]; try done.
    + intros q Hq. by rewrite lookup_delete_ne.
    + intros pi'. rewrite lookup_delete_eq. discriminate.
    + intros c p Hs. by apply stored_Delete in Hs as [? _].
  - split; [|split; [|split]]; try done.
    + intros q Hq. by rewrite lookup_insert_ne.
    + intros pi'. rewrite lookup_insert_eq. intros [= <-].
      exists pi. split; [done|]. intros r Hr. cbn.
      destruct (negb (resourceInfo_isValid _)).
      * by rewrite lookup_delete_ne.
      * by rewrite lookup_insert_ne.
Qed.

(** X6. [remove] takes away from one contribution: the entries of all
    other prefixes stay as they are; if the entry of the canonical prefix
    is still there, the contributions of all other resources to it are
    what they were; nothing is added to the map or to the tries; the
    queue, the revisions and the host labels are not touched. *)
Theorem remove_frame (rng : RangeOrder) (md : metadata)
    (prefix : PrefixCluster) (resource : ResourceID) (aux : list IPMetadata) :
  let md' := snd (remove rng md prefix resource aux) in
  let cp := canonicalPrefix prefix in
  (forall q, q <> cp -> m md' !! q = m md !! q) /\
  (forall pi', m md' !! cp = Some pi' ->
     exists pi, m md !! cp = Some pi /\
       forall r, r <> resource -> byResource pi' !! r = byResource pi !! r) /\
  (forall c p, bitlpm.stored (prefixes md') c p ->
               bitlpm.stored (prefixes md) c p) /\
  queuedPrefixes md' = queuedPrefixes md /\
  queuedRevision md' = queuedRevision md /\
  injectedRevision md' = injectedRevision md /\
  reservedHostLabels md' = reservedHostLabels md.
Proof. exact (remove_others rng md prefix resource aux). Qed.

Lemma canonicalPrefix_ClusterID (pc : PrefixCluster) :
  ClusterID (canonicalPrefix pc) = ClusterID pc.
Proof.
  unfold canonicalPrefix.
  destruct (negb (netip.IsValid (AsPrefix pc))); [done|].
  by destruct (netip.Addr_Prefix _ _).
Qed.

(** X7. Reads and writes canonicalize their argument: [getLocked],
    [upsertLocked] and [remove] behave on a prefix as they do on its
    canonical form. *)
Theorem store_canonicalizes (rng : RangeOrder) (md : metadata)
    (prefix : PrefixCluster) (src : source.Source) (resource : ResourceID)
    (info aux : list IPMetadata) :
  getLocked md (canonicalPrefix prefix) = getLocked md prefix /\
  upsertLocked rng md (canonicalPrefix prefix) src resource info =
    upsertLocked rng md prefix src resource info /\
  remove rng md (canonicalPrefix prefix) resource aux =
    remove rng md prefix resource aux.
Proof.
  unfold getLocked, upsertLocked, remove.
  by rewrite !canonicalPrefix_idem.
Qed.

Lemma findAffectedChildPrefixes_cluster (rng : RangeOrder) (md : metadata)
    (parent q : PrefixCluster) :
  q ∈ findAffectedChildPrefixes rng md parent ->
  ClusterID q = ClusterID parent /\
  (q = parent \/ netip.covers (AsPrefix parent) (AsPrefix q) = true).
Proof.
  unfold findAffectedChildPrefixes. destruct (IsSingleIP parent).
  - intros Hin. apply list_elem_of_singleton in Hin as ->. auto.
  - rewrite list_elem_of_In, in_map_iff. intros (child & <- & Hin).
    split; [done|]. right. unfold bitlpm.Descendants in Hin.
    apply filter_In in Hin as [_ Hc]. exact Hc.
Qed.

(** X8. The affected prefixes that [upsertLocked] and [remove] return all
    belong to the cluster of the prefix that was written, and each of
    them is the canonical prefix itself or lies inside it: a write never
    causes a prefix of another cluster or outside the prefix to be
    injected again. *)
Theorem affected_prefixes_within (rng : RangeOrder) (md : metadata)
    (prefix : PrefixCluster) (src : source.Source) (resource : ResourceID)
    (info aux : list IPMetadata) (q : PrefixCluster) :
  q ∈ fst (upsertLocked rng md prefix src resource info) \/
  q ∈ fst (remove rng md prefix resource aux) ->
  ClusterID q = ClusterID prefix /\
  (q = canonicalPrefix prefix \/
   netip.covers (AsPrefix (canonicalPrefix prefix)) (AsPrefix q) = true).
Proof.
  rewrite <- (canonicalPrefix_ClusterID prefix).
  intros [Hin|Hin].
  - revert Hin. unfold upsertLocked.
    destruct (m md !! canonicalPrefix prefix) as [pi|];
      destruct (byResource _ !! resource) as [ri|];
      destruct (mergeAll _ _ _) as [ri' changed];
      destruct (negb changed || has _ _ _); cbn [fst];
      try (intros Hin; by apply elem_of_nil in Hin);
      apply findAffectedChildPrefixes_cluster.
  - revert Hin. unfold remove.
    destruct (m md !! canonicalPrefix prefix) as [pi|];
      [|intros Hin; by apply elem_of_nil in Hin].
    destruct (byResource pi !! resource) as [ri|];
      [|intros Hin; by apply elem_of_nil in Hin].
    destruct (negb (prefixInfo_isValid _)); cbn [fst];
      apply findAffectedChildPrefixes_cluster.
Qed.

(** ** Identity resolution outside the host path *)


(** X9. With [identityOverride] set, [resolveIdentity] asks the allocator
    once, for the flattened labels as they are (no parent labels, no
    label invariants), without a requested identity, and returns its
    answer as it is; the store is not touched. *)
Theorem resolveIdentity_override (A : IdentityAllocator) (cfg : DaemonConfig)
    (rng : RangeOrder) (ipc : IPCache A) (prefix : PrefixCluster)
    (info : resourceInfo) :
  IdentityOverride info = true ->
  let res := resolveIdentity cfg rng ipc prefix info in
  let ans := AllocateLocalIdentity A (ipc_alloc ipc) (ToLabels info) false
               InvalidIdentity in
  fst res = fst ans /\
  ipc_alloc (snd res) = snd ans /\
  ipc_allocCalls (snd res) =
    (ipc_allocCalls ipc ++ [(ToLabels info, false, InvalidIdentity)])%list /\
  ipc_metadata (snd res) = ipc_metadata ipc.
Proof.
  intros Hov. cbn zeta. unfold resolveIdentity, callAllocator. rewrite Hov.
  by destruct (AllocateLocalIdentity A _ _ _ _) as [ans st].
Qed.


(** ** Removal of host labels *)

Lemma range_empty (rng : RangeOrder) (Hrng : rangeValid rng)
    {K : Type} `{Countable K} {V : Type} :
  range rng (∅ : gmap K V) = [].
Proof.
  apply Permutation_nil_r. rewrite (Hrng K _ _ V ∅).
  by rewrite map_to_list_empty.
Qed.

(** X11. [updateReservedHostLabels] with a nil label map forgets the
    labels of the prefix: the host identity keeps the ID
    [ReservedIdentityHost], its label keys are those of [reserved:host]
    and of the label maps of the other host prefixes, and once no host
    prefix is left its labels are [reserved:host] alone. Recording the
    labels of a new prefix and removing them again restores the recorded
    host labels. *)
Theorem updateReservedHostLabels_remove (rng : RangeOrder) (md : metadata)
    (p0 : netip.Prefix) (lbls : Labels) :
  rangeValid rng ->
  let i := fst (updateReservedHostLabels rng md p0 None) in
  let md' := snd (updateReservedHostLabels rng md p0 None) in
  let rh := reservedHostLabels md in
  ID i = ReservedIdentityHost /\
  reservedHostLabels md' = delete p0 rh /\
  (forall k, is_Some (Labels_ i !! k) <->
     k = IDNameHost \/
     exists p l, p <> p0 /\ rh !! p = Some l /\ is_Some (l !! k)) /\
  ((forall p, p <> p0 -> rh !! p = None) -> Labels_ i = LabelHost) /\
  (rh !! p0 = None ->
   reservedHostLabels
     (snd (updateReservedHostLabels rng
             (snd (updateReservedHostLabels rng md p0 (Some lbls))) p0 None))
   = rh).
Proof.
  intros Hrng. cbn zeta. unfold updateReservedHostLabels. cbn.
  unfold NewFrom.
  destruct (MergeLabels_fold (range rng (delete p0 (reservedHostLabels md)))
              LabelHost) as [Hk _]. cbn zeta in Hk.
  split; [done|]. split; [done|]. split; [|split].
  - intros k. rewrite Hk. split.
    + intros [Hh|(p & l & Hin & Hl)].
      * left. destruct Hh as [w Hw]. unfold LabelHost in Hw.
        by apply lookup_singleton_Some in Hw as [? _].
      * right. apply (range_elem_of rng Hrng) in Hin.
        apply lookup_delete_Some in Hin as [? ?]. eauto.
    + intros [->|(p & l & Hne & Hp & Hl)].
      * left. unfold LabelHost. rewrite lookup_singleton_eq. eauto.
      * right. exists p, l. split; [|done].
        apply (range_elem_of rng Hrng). by apply lookup_delete_Some.
  - intros Hnone.
    assert (He : delete p0 (reservedHostLabels md) = ∅).
    { apply map_eq. intros p. rewrite lookup_empty.
      destruct (decide (p = p0)) as [->|Hne].
      - apply lookup_delete_eq.
      - rewrite lookup_delete_ne by done. by apply Hnone. }
    rewrite He, (range_empty rng Hrng). reflexivity.
  - intros Hnone. rewrite delete_insert_eq. by apply delete_id.
Qed.

(** ** More on label resolution *)

Lemma map_eq_Some {V : Type} (m1 m2 : gmap string V) :
  (forall k v, m1 !! k = Some v <-> m2 !! k = Some v) -> m1 = m2.
Proof.
  intros H. apply map_eq. intros k.
  destruct (m1 !! k) as [v|] eqn:E1.
  - symmetry. by apply H.
  - destruct (m2 !! k) as [v|] eqn:E2; [|done].
    apply H in E2. congruence.
Qed.

Definition isWorldKey (k : string) : Prop :=
  k = IDNameWorld \/ k = IDNameWorldIPv4 \/ k = IDNameWorldIPv6.

Definition isCIDRLike (v : Label) : Prop :=
  Source v = LabelSourceCIDR \/ Source v = LabelSourceFQDN \/
  Source v = LabelSourceCIDRGroup.

(** The labels that an in-cluster label map keeps. *)
Definition keptInCluster (cfg : DaemonConfig) (lbls : Labels)
    (k : string) (v : Label) : Prop :=
  lbls !! k = Some v /\ ~ isWorldKey k /\
  (marksNode lbls && PolicyCIDRMatchesNodes cfg = true \/ ~ isCIDRLike v) /\
  (marksNode lbls && PerNodeLabelsEnabled cfg = true \/
   Source v <> LabelSourceNode).

(** The labels that [resolveLabels] keeps of an in-cluster label map. *)
Lemma resolveLabels_in_cluster_kept (cfg : DaemonConfig) (lbls : Labels)
    (p : PrefixCluster) (k : string) (v : Label) :
  marksInCluster lbls = true ->
  resolveLabels cfg lbls p !! k = Some v <-> keptInCluster cfg lbls k v.
Proof.
  intros Hin.
  destruct (marksInCluster_witness lbls Hin)
    as (k0 & v0 & Hk0 & Hs0 & Hw & Hw4 & Hw6).
  assert (Hchar : forall l3,
    l3 = (if negb (marksNode lbls && PerNodeLabelsEnabled cfg)
          then RemoveFromSource
                 (if negb (marksNode lbls && PolicyCIDRMatchesNodes cfg)
                  then RemoveFromSource (RemoveFromSource (RemoveFromSource
                         (Remove (Remove (Remove lbls LabelWorld) LabelWorldIPv4)
                            LabelWorldIPv6)
                         LabelSourceCIDR) LabelSourceFQDN) LabelSourceCIDRGroup
                  else Remove (Remove (Remove lbls LabelWorld) LabelWorldIPv4)
                         LabelWorldIPv6)
                 LabelSourceNode
          else (if negb (marksNode lbls && PolicyCIDRMatchesNodes cfg)
                then RemoveFromSource (RemoveFromSource (RemoveFromSource
                       (Remove (Remove (Remove lbls LabelWorld) LabelWorldIPv4)
                          LabelWorldIPv6)
                       LabelSourceCIDR) LabelSourceFQDN) LabelSourceCIDRGroup
                else Remove (Remove (Remove lbls LabelWorld) LabelWorldIPv4)
                       LabelWorldIPv6)) ->
    forall k v, l3 !! k = Some v <-> keptInCluster cfg lbls k v).
  { intros l3 -> k' v'. unfold keptInCluster, isWorldKey, isCIDRLike.
    destruct (marksNode lbls && PerNodeLabelsEnabled cfg),
             (marksNode lbls && PolicyCIDRMatchesNodes cfg); cbn [negb];
      rewrite ?lookup_RemoveFromSource_Some, !lookup_Remove_Some;
      unfold LabelWorld, LabelWorldIPv4, LabelWorldIPv6;
      rewrite !lookup_singleton_None; naive_solver. }
  unfold resolveLabels. rewrite <- marksInCluster_split, Hin.
  fold (marksNode lbls). cbn [negb andb].
  match goal with
  | |- (if (size ?l =? 0)%nat then _ else _) !! _ = _ <-> _ =>
      specialize (Hchar l eq_refl);
      destruct (size l =? 0)%nat eqn:Hsz
  end.
  - exfalso. apply size_zero_empty in Hsz.
    assert (Hk3 : keptInCluster cfg lbls k0 v0).
    { unfold keptInCluster, isWorldKey, isCIDRLike. rewrite Hs0.
      split; [done|]. split; [naive_solver|].
      split; right; [intros [?|[?|?]]|]; discriminate. }
    apply Hchar in Hk3. rewrite Hsz, lookup_empty in Hk3. discriminate.
  - apply Hchar.
Qed.

(** X12. For a label map that marks the prefix as in-cluster,
    [resolveLabels] returns exactly the labels of the map that are not
    under a world key, not of source [cidr], [fqdn] or [cidrgroup]
    (unless the prefix is a node and [PolicyCIDRMatchesNodes] is set) and
    not of source [node] (unless the prefix is a node and
    [PerNodeLabelsEnabled] is set): nothing is added, nothing else is
    dropped, and no fallback label is injected. *)
Theorem resolveLabels_in_cluster_exact (cfg : DaemonConfig) (lbls : Labels)
    (p : PrefixCluster) (k : string) (v : Label) :
  marksInCluster lbls = true ->
  resolveLabels cfg lbls p !! k = Some v <-> keptInCluster cfg lbls k v.
Proof. exact (resolveLabels_in_cluster_kept cfg lbls p k v). Qed.

Lemma carriesReserved_ext (l l' : Labels) (name : string) :
  (forall v, Source v = LabelSourceReserved ->
             l' !! name = Some v <-> l !! name = Some v) ->
  carriesReserved l' name = carriesReserved l name.
Proof.
  intros H. apply eq_true_iff_eq. rewrite !carriesReserved_true.
  split; intros (v & Hv & Hs); exists v; (split; [|done]); by apply (H v Hs).
Qed.

Lemma carriesReserved_in_cluster (cfg : DaemonConfig) (lbls : Labels)
    (p : PrefixCluster) (name : string) :
  marksInCluster lbls = true -> ~ isWorldKey name ->
  carriesReserved (resolveLabels cfg lbls p) name = carriesReserved lbls name.
Proof.
  intros Hin Hname. apply carriesReserved_ext. intros v Hs.
  rewrite (resolveLabels_in_cluster_kept cfg lbls p name v Hin).
  unfold keptInCluster, isCIDRLike. rewrite Hs. split; [tauto|].
  intros Hv. split; [done|]. split; [done|].
  split; right; [intros [?|[?|?]]|]; discriminate.
Qed.

Lemma worldLabelFor_lookup (ds : bool) (a : netip.Addr) (k : string) (v : Label) :
  worldLabelFor ds a !! k = Some v ->
  isWorldKey k /\ Source v = LabelSourceReserved.
Proof.
  unfold worldLabelFor, LabelWorld, LabelWorldIPv4, LabelWorldIPv6, isWorldKey.
  destruct (negb ds), (netip.Is4 a); intros Hv;
    apply lookup_singleton_Some in Hv as [<- <-]; auto.
Qed.

(** X13. [resolveLabels] is idempotent: resolving labels that are already
    resolved, for the same prefix and configuration, changes nothing. *)
Theorem resolveLabels_idempotent (cfg : DaemonConfig) (lbls : Labels)
    (p : PrefixCluster) :
  resolveLabels cfg (resolveLabels cfg lbls p) p = resolveLabels cfg lbls p.
Proof.
  destruct (marksInCluster lbls) eqn:Hin.
  - (* in-cluster: the marks survive, the second pass keeps everything *)
    assert (Hc : forall name, ~ isWorldKey name ->
              carriesReserved (resolveLabels cfg lbls p) name
              = carriesReserved lbls name)
      by (intros; by apply carriesReserved_in_cluster).
    assert (Hnw : ~ isWorldKey IDNameHost /\ ~ isWorldKey IDNameRemoteNode /\
                  ~ isWorldKey IDNameHealth /\ ~ isWorldKey IDNameIngress).
    { unfold isWorldKey. repeat split; intros [?|[?|?]]; discriminate. }
    destruct Hnw as (N1 & N2 & N3 & N4).
    assert (Hin' : marksInCluster (resolveLabels cfg lbls p) = true).
    { rewrite <- Hin. unfold marksInCluster, HasHostLabel, HasRemoteNodeLabel,
        HasHealthLabel, HasIngressLabel. by rewrite !Hc. }
    assert (Hnode : marksNode (resolveLabels cfg lbls p) = marksNode lbls).
    { unfold marksNode, HasHostLabel, HasRemoteNodeLabel. by rewrite !Hc. }
    apply map_eq_Some. intros k v.
    rewrite (resolveLabels_in_cluster_kept cfg _ p k v Hin').
    unfold keptInCluster at 1. rewrite Hnode.
    rewrite (resolveLabels_in_cluster_kept cfg lbls p k v Hin).
    unfold keptInCluster. tauto.
  - (* not in-cluster: the world label is there, no node label is left *)
    rewrite (resolveLabels_not_in_cluster cfg lbls p Hin).
    set (world := worldLabelFor (IsDualStack cfg) (netip.Addr_of (AsPrefix p))).
    set (X := if (size (RemoveFromSource lbls LabelSourceNode) =? 0)%nat
              then GetCIDRLabels (AsPrefix p)
              else RemoveFromSource lbls LabelSourceNode).
    unfold AddWorldLabel. fold world.
    assert (HX : forall k v, X !! k = Some v ->
              Source v <> LabelSourceNode /\
              (Source v = LabelSourceReserved -> lbls !! k = Some v)).
    { intros k v. unfold X.
      destruct (size (RemoveFromSource lbls LabelSourceNode) =? 0)%nat.
      - unfold GetCIDRLabels. intros Hv.
        apply lookup_singleton_Some in Hv as [_ <-]. cbn.
        split; [discriminate|]. discriminate.
      - rewrite lookup_RemoveFromSource_Some. tauto. }
    assert (Hr : forall k v, MergeLabels X world !! k = Some v ->
              Source v <> LabelSourceNode /\
              (Source v = LabelSourceReserved ->
               isWorldKey k \/ lbls !! k = Some v)).
    { intros k v. rewrite lookup_MergeLabels.
      destruct (world !! k) as [w|] eqn:Ew.
      - intros [= <-]. apply worldLabelFor_lookup in Ew as [? Hs].
        rewrite Hs. split; [discriminate | auto].
      - intros Hv. apply HX in Hv as [? ?]. auto. }
    assert (Hcr : forall name, ~ isWorldKey name ->
              carriesReserved (MergeLabels X world) name = true ->
              carriesReserved lbls name = true).
    { intros name Hname. rewrite !carriesReserved_true.
      intros (v & Hv & Hs). destruct (proj2 (Hr name v Hv) Hs); [done|eauto]. }
    assert (Hout : marksInCluster (MergeLabels X world) = false).
    { apply not_true_iff_false. intros Hm.
      apply not_true_iff_false in Hin. apply Hin. revert Hm.
      unfold marksInCluster, HasHostLabel, HasRemoteNodeLabel, HasHealthLabel,
        HasIngressLabel. rewrite !orb_true_iff.
      intros [[[H|H]|H]|H]; apply Hcr in H; auto;
        unfold isWorldKey; intros [?|[?|?]]; discriminate. }
    rewrite (resolveLabels_not_in_cluster cfg _ p Hout).
    assert (Hsame : RemoveFromSource (MergeLabels X world) LabelSourceNode
                    = MergeLabels X world).
    { apply map_eq_Some. intros k v. rewrite lookup_RemoveFromSource_Some.
      split; [tauto|]. intros Hv. split; [done|]. by apply (Hr k v). }
    rewrite Hsame.
    destruct (size (MergeLabels X world) =? 0)%nat eqn:Hsz.
    { exfalso. apply size_zero_empty in Hsz. unfold MergeLabels in Hsz.
      apply map_positive_l in Hsz.
      by apply (worldLabelFor_nonempty (IsDualStack cfg)
                  (netip.Addr_of (AsPrefix p))). }
    unfold AddWorldLabel, MergeLabels. fold world.
    by rewrite (assoc_L (∪)), (idemp_L (∪)).
Qed.

(** ** Edge cases of the parent merge, and the keys of the map *)

(** X14. When the store holds none of the ancestors that
    [mergeParentLabels] looks up (in particular for a prefix of length 0
    and for an invalid prefix, which have none), the labels and the store
    come back unchanged. *)
Theorem mergeParentLabels_no_ancestors (rng : RangeOrder) (md : metadata)
    (lbls : Labels) (pc : PrefixCluster) :
  (forall b : nat, (Z.of_nat b < netip.Bits (AsPrefix pc))%Z ->
     m md !! canonicalPrefix (ancestor pc (Z.of_nat b)) = None) ->
  mergeParentLabels rng md lbls pc = (lbls, md).
Proof.
  intros Hnone. rewrite mergeParentLabels_unfold. cbn zeta.
  assert (Hloop : forall n st,
            (forall b, (b < n)%nat ->
               m md !! canonicalPrefix (ancestor pc (Z.of_nat b)) = None) ->
            mergeParentLoop rng pc n (md, st) = (md, st)).
  { induction n as [|b IH]; intros st Hb; [done|].
    cbn [mergeParentLoop]. unfold mergeParentStep. cbn [fst snd].
    fold (ancestor pc (Z.of_nat b)). unfold getLocked.
    rewrite (Hb b) by lia. apply IH. intros b' Hb'. apply Hb. lia. }
  rewrite Hloop; [done|]. intros b Hb. apply Hnone. lia.
Qed.

(** Every key of the map is its own canonical form. *)
Definition keysCanonical (md : metadata) : Prop :=
  forall pc, is_Some (m md !! pc) -> canonicalPrefix pc = pc.

(** X15. The keys of the map are canonical: this holds for the empty
    store and is preserved by [upsertLocked], [remove] and [getLocked],
    whatever prefix they are given. *)
Theorem keysCanonical_preserved (rng : RangeOrder) (md : metadata)
    (prefix : PrefixCluster) (src : source.Source) (resource : ResourceID)
    (info aux : list IPMetadata) :
  keysCanonical newMetadata /\
  (keysCanonical md ->
   keysCanonical (snd (upsertLocked rng md prefix src resource info)) /\
   keysCanonical (snd (remove rng md prefix resource aux)) /\
   keysCanonical (snd (getLocked md prefix))).
Proof.
  split.
  { intros pc [x Hx]. cbn in Hx. by rewrite lookup_empty in Hx. }
  intros Hinv. split; [|split].
  - destruct (upsertLocked_store rng md prefix src resource info)
      as [[pi' Hm] _]. intros pc. rewrite Hm.
    rewrite lookup_insert_is_Some'. intros [<-|Hs].
    + apply canonicalPrefix_idem.
    + by apply Hinv.
  - destruct (remove_store rng md prefix resource aux)
      as [[Hm _] | [[Hm _] | (_ & [pi' Hm] & _)]]; intros pc; rewrite Hm.
    + apply Hinv.
    + rewrite lookup_delete_is_Some. intros [_ Hs]. by apply Hinv.
    + rewrite lookup_insert_is_Some'. intros [<-|Hs].
      * apply canonicalPrefix_idem.
      * by apply Hinv.
  - intros pc [x Hx]. apply Hinv.
    pose proof (getLocked_stable md prefix) as Hg. cbn zeta in Hg.
    destruct Hg as (_ & _ & _ & Hby & _). specialize (Hby pc).
    rewrite Hx in Hby. cbn in Hby.
    destruct (m md !! pc); [eauto | discriminate].
Qed.

(** ** Filtering and removing by labels *)







(** ** The label injection tick *)

(** [doInjectLabels] does not enqueue, dequeue or set the injected
    revision: the injector leaves the queue and the revisions alone. *)
Definition injectorQuiet {S : Type} (inject : Injector S) : Prop :=
  forall st chunk,
    let md' := fst (snd (inject st chunk)) in
    queuedPrefixes md' = queuedPrefixes (fst st) /\
    queuedRevision md' = queuedRevision (fst st) /\
    injectedRevision md' = injectedRevision (fst st).

Lemma injectChunks_spec {S : Type} (inject : Injector S) (cs : nat) (fuel : nat) :
  forall st ids retry chunks r,
    injectChunks inject cs fuel st ids retry chunks = Some r ->
    exists newChunks failed,
      il_chunks r = (chunks ++ newChunks)%list /\
      il_retry r = (retry ++ failed)%list /\
      (concat newChunks ++ il_idsToModify r)%list = ids /\
      Forall (fun c => (length c <= cs)%nat) newChunks /\
      ((0 < cs)%nat -> Forall (fun c => c <> []) newChunks) /\
      (il_err r = None -> il_idsToModify r = []) /\
      (injectorQuiet inject ->
       queuedPrefixes (fst (il_state r)) = queuedPrefixes (fst st) /\
       queuedRevision (fst (il_state r)) = queuedRevision (fst st) /\
       injectedRevision (fst (il_state r)) = injectedRevision (fst st)).
Proof.
  induction fuel as [|fuel IH]; intros st ids retry chunks r.
  - destruct ids as [|x ids]; cbn; [|discriminate].
    intros [= <-]. exists [], []. cbn. rewrite !app_nil_r.
    repeat split; try done; constructor.
  - destruct ids as [|x ids]; cbn [injectChunks].
    { intros [= <-]. exists [], []. cbn. rewrite !app_nil_r.
      repeat split; try done; constructor. }
    set (ids0 := x :: ids).
    set (idx := Nat.min (length ids0) cs).
    assert (Hlen : (length (take idx ids0) <= cs)%nat).
    { rewrite length_take. unfold idx. lia. }
    assert (Hne : (0 < cs)%nat -> take idx ids0 <> []).
    { intros Hcs E. apply (f_equal length) in E.
      rewrite length_take in E. unfold idx in E.
      change (length ids0) with (Datatypes.S (length ids)) in E.
      change (length (@nil PrefixCluster)) with 0%nat in E. lia. }
    destruct (inject st (take idx ids0)) as [[failed err] st'] eqn:Ei.
    destruct err as [e|].
    + intros [= <-]. exists [take idx ids0], failed. cbn.
      rewrite app_nil_r, take_drop.
      split; [done|]. split; [done|]. split; [done|].
      split; [by repeat constructor|]. split; [by repeat constructor; auto|].
      split; [discriminate|].
      intros Hq. specialize (Hq st (take idx ids0)). rewrite Ei in Hq.
      exact Hq.
    + intros Hr. apply IH in Hr
        as (newChunks & failed' & H1 & H2 & H3 & H4 & H5 & H6 & H7).
      exists (take idx ids0 :: newChunks), (failed ++ failed')%list.
      rewrite H1, H2, <- !app_assoc. cbn.
      split; [done|]. split; [done|].
      split; [by rewrite <- app_assoc, H3, take_drop|].
      split; [by constructor|].
      split; [intros Hcs; constructor; auto|].
      split; [done|].
      intros Hq. destruct (H7 Hq) as (Q1 & Q2 & Q3).
      specialize (Hq st (take idx ids0)). rewrite Ei in Hq. cbn in Hq.
      destruct Hq as (P1 & P2 & P3). by rewrite Q1, Q2, Q3.
Qed.

Lemma injectChunks_terminates {S : Type} (inject : Injector S) (cs : nat) :
  (0 < cs)%nat ->
  forall fuel st ids retry chunks,
    (length ids <= fuel)%nat ->
    is_Some (injectChunks inject cs fuel st ids retry chunks).
Proof.
  intros Hcs. induction fuel as [|fuel IH]; intros st ids retry chunks Hf.
  - destruct ids; cbn in *; [eauto | lia].
  - destruct ids as [|x ids]; cbn [injectChunks]; [eauto|].
    destruct (inject st _) as [[failed err] st'].
    destruct err; [eauto|]. apply IH.
    rewrite length_drop. simpl length in *. lia.
Qed.

Lemma finishInjection_spec (md : metadata) (rev : N)
    (retry rest : list PrefixCluster) :
  let md' := finishInjection md rev retry rest in
  (forall p, is_Some (queuedPrefixes md' !! p) <->
     p ∈ retry \/ p ∈ rest \/ is_Some (queuedPrefixes md !! p)) /\
  queuedRevision md' = queuedRevision md /\
  injectedRevision md' =
    (if bool_decide (retry = [] /\ rest = []) then rev
     else injectedRevision md) /\
  m md' = m md /\ prefixes md' = prefixes md /\
  reservedHostLabels md' = reservedHostLabels md.
Proof.
  cbn zeta. unfold finishInjection.
  destruct retry as [|x retry], rest as [|y rest]; cbn [length Nat.ltb Nat.leb];
    cbn -[foldl]; repeat split; try done;
    try (intros H; by rewrite ?enqueue_fold_lookup in * );
    try (rewrite ?elem_of_nil; tauto).
  all: try (rewrite !enqueue_fold_lookup, ?elem_of_nil; tauto).
  all: try (intros p; rewrite ?enqueue_fold_lookup, ?elem_of_nil; tauto).
Qed.


Lemma injectChunks_no_failure {S : Type} (inject : Injector S) (cs fuel : nat) :
  (forall st chunk, fst (inject st chunk) = ([], None)) ->
  forall st ids retry chunks r,
    injectChunks inject cs fuel st ids retry chunks = Some r ->
    il_err r = None /\ il_retry r = retry /\ il_idsToModify r = [].
Proof.
  intros Hok. induction fuel as [|fuel IH]; intros st ids retry chunks r.
  - destruct ids; cbn; [|discriminate]. by intros [= <-].
  - destruct ids as [|x ids]; cbn [injectChunks]; [by intros [= <-]|].
    pose proof (Hok st (take (Nat.min (length (x :: ids)) cs) (x :: ids))) as Hi.
    destruct (inject st _) as [[failed err] st'].
    cbn in Hi. injection Hi as -> ->. rewrite app_nil_r. apply IH.
Qed.

(** X19. When the injector succeeds on every chunk (and leaves the queue
    and the revisions alone) and the chunk size is positive, a tick with
    enough fuel for the batch ends without error, has handed the whole
    batch to the injector in non-empty chunks, leaves the queue empty and
    the injected revision equal to the revision under which the batch was
    queued: a waiter for that revision or an earlier one returns at once. *)
Theorem handleLabelInjection_success {S : Type} (rng : RangeOrder)
    (inject : Injector S) (chunkSize fuel : nat) (sync : CacheSync)
    (st : metadata * S) :
  injectorQuiet inject ->
  (forall st chunk, fst (inject st chunk) = ([], None)) ->
  (forall e, sync <> ContextDone e) ->
  (0 < chunkSize)%nat ->
  let batch := fst (fst (dequeuePrefixUpdates rng (fst st))) in
  let rev := queuedRevision (fst st) in
  (length batch <= fuel)%nat ->
  exists st' chunks,
    handleLabelInjection rng inject chunkSize fuel sync st
      = Some (None, st', chunks) /\
    concat chunks = batch /\
    Forall (fun c => c <> []) chunks /\
    queuedPrefixes (fst st') = ∅ /\
    queuedRevision (fst st') = wrap64 (rev + 1) /\
    injectedRevision (fst st') = rev /\
    forall r wakeups, (r <= rev)%N ->
      waitForRevision (injectedRevision (fst st')) r wakeups = Some None.
Proof.
  intros Hq Hok Hsync Hcs. cbn zeta. intros Hfuel.
  unfold handleLabelInjection.
  destruct sync as [| |e]; [| |by destruct (Hsync e)].
  all: cbn zeta; cbn [dequeuePrefixUpdates fst snd] in *.
  all: set (batch := List.map fst (range rng (queuedPrefixes (fst st)))) in *.
  all: set (cs := if (queuedRevision (fst st) =? 1)%N then length batch
                  else chunkSize).
  all: assert (Hsome : is_Some (injectChunks inject cs fuel
         (mkMetadata (m (fst st)) (prefixes (fst st)) ∅
            (wrap64 (queuedRevision (fst st) + 1)) (injectedRevision (fst st))
            (reservedHostLabels (fst st)), snd st) batch [] []));
    [ destruct batch as [|x batch'] eqn:Eb;
      [ destruct fuel; cbn; eauto
      | apply injectChunks_terminates; [|done];
        unfold cs; destruct (_ =? _)%N; [cbn; lia | done] ] |].
  all: destruct Hsome as [r Er]; rewrite Er.
  all: pose proof (injectChunks_no_failure inject cs fuel Hok _ _ _ _ _ Er)
    as (E1 & E2 & E3).
  all: assert (Hcs' : batch <> [] -> (0 < cs)%nat);
    [ intros Hne; unfold cs; destruct (_ =? _)%N; [|done];
      destruct batch; [done | cbn; lia] |].
  all: pose proof (injectChunks_spec inject cs fuel _ _ _ _ _ Er)
    as (newChunks & failed & H1 & H2 & H3 & H4 & H5 & H6 & H7).
  all: specialize (H7 Hq); cbn [fst snd] in H7; destruct H7 as (Q1 & Q2 & Q3).
  all: cbn [queuedPrefixes queuedRevision injectedRevision] in Q1, Q2, Q3.
  all: cbn [app] in H1.
  all: rewrite E3, app_nil_r in H3.
  all: pose proof (finishInjection_spec (fst (il_state r))
                     (queuedRevision (fst st)) (il_retry r)
                     (il_idsToModify r)) as Hfin.
  all: cbn zeta in Hfin; destruct Hfin as (F1 & F2 & F3 & _).
  all: rewrite E2, E3 in F1, F3.
  all: rewrite bool_decide_eq_true_2 in F3 by done.
  all: eexists _, _; rewrite E1; (split; [reflexivity|]); cbn [fst snd].
  all: rewrite H1.
  all: (split; [done|]).
  all: (split;
    [ destruct (decide (batch = [])) as [Hb|Hb];
      [ rewrite Hb in Er; destruct fuel; cbn in Er; injection Er as <-;
        cbn in H1; rewrite <- H1; constructor
      | apply H5, Hcs', Hb ] |]).
  all: (split;
    [ apply map_empty; intros p; apply eq_None_not_Some; rewrite E2, E3, F1;
      rewrite Q1, lookup_empty, !elem_of_nil;
      intros [?|[?|[? ?]]]; done |]).
  all: rewrite F2, Q2, E2, E3, F3.
  all: (split; [done|]); (split; [done|]).
  all: intros r0 wakeups Hr; destruct wakeups as [|[c e] w]; cbn;
    destruct (N.ltb_spec (queuedRevision (fst st)) r0); (done || lia).
Qed.

(** X20. A tick ends whenever the chunk size is positive and the fuel
    covers the batch; when the context is done before the caches are
    synchronized it returns the context's error and touches nothing. With
    a chunk size of 0, after the first tick, a non-empty batch and an
    injector that reports no error, the loop never leaves its first
    iteration: the tick does not end, whatever the fuel. *)
Theorem handleLabelInjection_termination {S : Type} (rng : RangeOrder)
    (inject : Injector S) (chunkSize fuel : nat) (sync : CacheSync)
    (st : metadata * S) :
  let batch := fst (fst (dequeuePrefixUpdates rng (fst st))) in
  (forall e, sync = ContextDone e ->
     handleLabelInjection rng inject chunkSize fuel sync st
       = Some (Some e, st, [])) /\
  ((0 < chunkSize)%nat -> (length batch <= fuel)%nat ->
   is_Some (handleLabelInjection rng inject chunkSize fuel sync st)) /\
  (chunkSize = 0%nat -> queuedRevision (fst st) <> 1%N -> batch <> [] ->
   (forall e, sync <> ContextDone e) ->
   (forall st chunk, snd (fst (inject st chunk)) = None) ->
   handleLabelInjection rng inject chunkSize fuel sync st = None).
Proof.
  cbn zeta. split; [|split].
  - intros e ->. reflexivity.
  - intros Hcs Hfuel. unfold handleLabelInjection.
    destruct sync as [| |e]; [| |eauto].
    all: cbn zeta; cbn [dequeuePrefixUpdates fst snd] in *.
    all: set (batch := List.map fst (range rng (queuedPrefixes (fst st)))) in *.
    all: set (cs := if (queuedRevision (fst st) =? 1)%N then length batch
                    else chunkSize).
    all: assert (Hsome : is_Some (injectChunks inject cs fuel
           (mkMetadata (m (fst st)) (prefixes (fst st)) ∅
              (wrap64 (queuedRevision (fst st) + 1)) (injectedRevision (fst st))
              (reservedHostLabels (fst st)), snd st) batch [] []));
      [ destruct batch as [|x batch'] eqn:Eb;
        [ destruct fuel; cbn; eauto
        | apply injectChunks_terminates; [|done];
          unfold cs; destruct (_ =? _)%N; [cbn; lia | done] ] |].
    all: destruct Hsome as [r ->]; eauto.
  - intros -> Hrev Hne Hsync Hnoerr. unfold handleLabelInjection.
    destruct sync as [| |e]; [| |by destruct (Hsync e)].
    all: cbn zeta; cbn [dequeuePrefixUpdates fst snd] in *.
    all: set (batch := List.map fst (range rng (queuedPrefixes (fst st)))) in *.
    all: apply N.eqb_neq in Hrev; rewrite Hrev.
    all: assert (Hloop : forall fuel st0 retry chunks,
           injectChunks inject 0 fuel st0 batch retry chunks = None);
      [ induction fuel0 as [|fuel0 IH]; intros st0 retry chunks;
        (destruct batch as [|x batch']; [done|]); [done|];
        cbn [injectChunks]; rewrite Nat.min_0_r; cbn [take drop];
        pose proof (Hnoerr st0 []) as Hn;
        destruct (inject st0 []) as [[failed err] st1]; cbn in Hn; subst err;
        apply IH |].
    all: by rewrite Hloop.
Qed.

(** ** Rate-limited logging of k8s errors *)

Lemma k8sErrorCalls_cons (mp : gmap string Z) (s : string) (t : Z)
    (calls : list (string * Z)) :
  k8sErrorCalls mp ((s, t) :: calls) =
  (fst (k8sErrorUpdateCheckUnmuteTime mp s t)
     :: fst (k8sErrorCalls (snd (k8sErrorUpdateCheckUnmuteTime mp s t)) calls),
   snd (k8sErrorCalls (snd (k8sErrorUpdateCheckUnmuteTime mp s t)) calls)).
Proof.
  cbn [k8sErrorCalls].
  destruct (k8sErrorUpdateCheckUnmuteTime mp s t) as [b mp1]. cbn [fst snd].
  by destruct (k8sErrorCalls mp1 calls).
Qed.

Lemma k8sError_step_deadline (mp : gmap string Z) (s0 s : string) (t0 d : Z) :
  mp !! s = Some d ->
  exists d', snd (k8sErrorUpdateCheckUnmuteTime mp s0 t0) !! s = Some d' /\
             (d <= d')%Z.
Proof.
  intros Hd. unfold k8sErrorUpdateCheckUnmuteTime, k8sErrLogTimeout.
  destruct (decide (s0 = s)) as [->|Hne].
  - rewrite Hd. destruct (Z.ltb_spec d t0); cbn.
    + rewrite lookup_insert_eq. eexists. split; [done|lia].
    + exists d. split; [done|lia].
  - destruct (mp !! s0) as [d0|]; [destruct (d0 <? t0)%Z|]; cbn;
      rewrite ?lookup_insert_ne by done; exists d; split; (done || lia).
Qed.

(** A call that is answered with [true] comes after the deadline that the
    map held for its message before the calls. *)
Lemma k8sError_after_deadline (calls : list (string * Z)) :
  forall (mp : gmap string Z) (j : nat) (s : string) (tj d : Z),
    mp !! s = Some d ->
    calls !! j = Some (s, tj) ->
    fst (k8sErrorCalls mp calls) !! j = Some true ->
    (d < tj)%Z.
Proof.
  induction calls as [|[s0 t0] calls IH]; intros mp j s tj d Hd Hj Hr;
    [done|].
  rewrite k8sErrorCalls_cons in Hr. destruct j as [|j]; cbn in Hj, Hr.
  - injection Hj as -> ->. injection Hr as Hr.
    unfold k8sErrorUpdateCheckUnmuteTime in Hr. rewrite Hd in Hr.
    destruct (Z.ltb_spec d tj); [done|discriminate].
  - destruct (k8sError_step_deadline mp s0 s t0 d Hd) as (d' & Hd' & Hle).
    pose proof (IH _ j s tj d' Hd' Hj Hr). lia.
Qed.

(** X21. Logging of a k8s error message is rate-limited: of two calls of
    [k8sErrorUpdateCheckUnmuteTime] for the same message that both answer
    "log it", the later one comes more than [k8sErrLogTimeout] after the
    earlier one; a call in between that is within the timeout is answered
    with [false] and leaves the map as it is. A message that the map does
    not hold is logged at once. *)
Theorem k8sError_rate_limited (mp : gmap string Z) (calls : list (string * Z))
    (i j : nat) (s : string) (ti tj : Z) :
  (i < j)%nat ->
  calls !! i = Some (s, ti) ->
  calls !! j = Some (s, tj) ->
  fst (k8sErrorCalls mp calls) !! i = Some true ->
  fst (k8sErrorCalls mp calls) !! j = Some true ->
  (ti + k8sErrLogTimeout < tj)%Z /\
  (forall mp' t, mp' !! s = Some (ti + k8sErrLogTimeout)%Z ->
     (t <= ti + k8sErrLogTimeout)%Z ->
     k8sErrorUpdateCheckUnmuteTime mp' s t = (false, mp')) /\
  (forall mp' t, mp' !! s = None ->
     fst (k8sErrorUpdateCheckUnmuteTime mp' s t) = true).
Proof.
  intros Hij Hi Hj Hri Hrj. split; [|split].
  - revert mp i j Hij Hi Hj Hri Hrj.
    induction calls as [|[s0 t0] calls IH]; intros mp i j Hij Hi Hj Hri Hrj;
      [done|].
    rewrite k8sErrorCalls_cons in Hri, Hrj.
    destruct j as [|j]; [lia|]. cbn in Hj, Hrj.
    destruct i as [|i]; cbn in Hi, Hri.
    + injection Hi as -> ->. injection Hri as Hri.
      eapply (k8sError_after_deadline calls _ j s tj); [|exact Hj|exact Hrj].
      revert Hri. unfold k8sErrorUpdateCheckUnmuteTime.
      destruct (mp !! s) as [d|]; [destruct (d <? ti)%Z|]; cbn;
        try discriminate; intros _; apply lookup_insert_eq.
    + eapply (IH _ i j); [lia|exact Hi|exact Hj|exact Hri|exact Hrj].
  - intros mp' t Hd Ht. unfold k8sErrorUpdateCheckUnmuteTime. rewrite Hd.
    destruct (Z.ltb_spec (ti + k8sErrLogTimeout) t); [lia|done].
  - intros mp' t Hn. unfold k8sErrorUpdateCheckUnmuteTime. by rewrite Hn.
Qed.

(** ** Waiting, and draining the queue *)

(** X22. [waitForRevision] returns nil at once when the injected revision
    has reached the requested one. Otherwise it returns nil only after a
    wake-up at which the revision has been reached and the context is not
    done; it returns the context's error at the first wake-up at which
    the context is done, also when the revision has been reached by then;
    and it stays blocked exactly as long as every wake-up shows a smaller
    revision and a live context. *)
Theorem waitForRevision_outcomes (cur rev : N)
    (wakeups : list (N * option string)) :
  ((rev <= cur)%N -> waitForRevision cur rev wakeups = Some None) /\
  (waitForRevision cur rev wakeups = Some None ->
   (rev <= cur)%N \/ exists c, (c, None) ∈ wakeups /\ (rev <= c)%N) /\
  (forall e, waitForRevision cur rev wakeups = Some (Some e) ->
     (cur < rev)%N /\ exists c, (c, Some e) ∈ wakeups) /\
  (forall c e, (cur < rev)%N ->
     waitForRevision cur rev ((c, Some e) :: wakeups) = Some (Some e)) /\
  (waitForRevision cur rev wakeups = None <->
   (cur < rev)%N /\
   Forall (fun w => (fst w < rev)%N /\ snd w = None) wakeups).
Proof.
  split; [|split; [|split; [|split]]].
  - intros Hle. destruct wakeups as [|[c e] w]; cbn;
      destruct (N.ltb_spec cur rev); (done || lia).
  - revert cur. induction wakeups as [|[c e] w IH]; intros cur; cbn;
      destruct (N.ltb_spec cur rev) as [Hlt|Hge]; try (by left).
    destruct e as [e|]; [done|]. intros Hr.
    destruct (IH c Hr) as [Hle|(c' & Hin & Hle)]; right.
    + exists c. split; [by apply elem_of_cons; left | done].
    + exists c'. split; [by apply elem_of_cons; right | done].
  - intros e0. revert cur.
    induction wakeups as [|[c e] w IH]; intros cur; cbn;
      destruct (N.ltb_spec cur rev) as [Hlt|Hge]; try done.
    destruct e as [e|].
    + intros [= ->]. split; [done|]. exists c. by apply elem_of_cons; left.
    + intros Hr. destruct (IH c Hr) as [_ (c' & Hin)].
      split; [done|]. exists c'. by apply elem_of_cons; right.
  - intros c e Hlt. cbn. by destruct (N.ltb_spec cur rev); [|lia].
  - revert cur. induction wakeups as [|[c e] w IH]; intros cur; cbn;
      destruct (N.ltb_spec cur rev) as [Hlt|Hge].
    + split; [by split|done].
    + split; [done|]. intros [? _]. lia.
    + destruct e as [e|].
      * split; [done|]. intros [_ Hall].
        apply Forall_cons in Hall as [[_ He] _]. by cbn in He.
      * rewrite IH. split.
        -- intros [Hc Hall]. split; [done|]. by constructor.
        -- intros [_ Hall]. apply Forall_cons in Hall as [[Hc _] Hall].
           by split.
    + split; [done|]. intros [? _]. lia.
Qed.

(** X23. A dequeue drains the queue: the dequeue that follows it directly
    returns an empty batch under the next revision, which is larger
    unless the 64-bit counter wraps. Queueing prefixes that are queued
    already changes nothing. *)
Theorem dequeue_drains (rng : RangeOrder) (md : metadata)
    (pfxs : list PrefixCluster) :
  rangeValid rng ->
  let r1 := dequeuePrefixUpdates rng md in
  let r2 := dequeuePrefixUpdates rng (snd r1) in
  fst (fst r2) = [] /\
  snd (fst r2) = wrap64 (snd (fst r1) + 1) /\
  ((queuedRevision md + 1 < 2 ^ 64)%N -> (snd (fst r1) < snd (fst r2))%N) /\
  enqueuePrefixUpdates (snd (enqueuePrefixUpdates md pfxs)) pfxs
    = enqueuePrefixUpdates md pfxs.
Proof.
  intros Hrng. cbn zeta. cbn [dequeuePrefixUpdates fst snd queuedPrefixes
    queuedRevision]. rewrite (range_empty rng Hrng).
  split; [done|]. split; [done|]. split.
  - intros Hlt. unfold wrap64. rewrite N.mod_small by done. lia.
  - unfold enqueuePrefixUpdates. cbn. f_equal. f_equal.
    apply map_eq. intros p. apply option_eq. intros [].
    assert (Hl : forall (q : gmap PrefixCluster unit) l,
              foldl (fun q p => <[ p := tt ]> q) q l !! p = Some tt <->
              p ∈ l \/ q !! p = Some tt).
    { intros q l.
      assert (Hu : forall o : option unit, o = Some tt <-> is_Some o).
      { intros [[]|]; split; try done; by intros [? ?]. }
      rewrite !Hu. apply enqueue_fold_lookup. }
    rewrite !Hl. tauto.
Qed.

(** * The further properties at concrete inputs *)

(** X2, at 10.1.2.3/16. *)
Lemma canonicalPrefix_canonical_witness :
  failsCanonicalization exUnmasked = false /\
  netip.IsValid (AsPrefix (canonicalPrefix exUnmasked)) = true /\
  hostBitsZero (AsPrefix (canonicalPrefix exUnmasked)).
Proof.
  split; [reflexivity|].
  destruct (canonicalPrefix_canonical exUnmasked eq_refl ltac:(cbn; lia))
    as (_ & _ & Hv & _ & Hz).
  split; [exact Hv | exact Hz].
Defined.

(** X3, at ::ffff:10.1.2.3/104. *)
Lemma canonicalPrefix_mapped_witness :
  netip.Is4In6 (netip.Addr6 0xffff0a010203) = true /\
  canonicalPrefix exMapped = exMapped.
Proof.
  split; [reflexivity|].
  exact (canonicalPrefix_mapped 0xffff0a010203 104 0 eq_refl ltac:(lia)).
Defined.

(** X8, at a write to 10.1.0.0/16 on the store of the comment of
    [mergeParentLabels]: 10.1.1.0/24 is affected and lies inside. *)
Lemma affected_prefixes_within_witness :
  exChild24 ∈ fst (upsertLocked listOrder exParents exParent16 source.Local
                     "r2" [MLabels (exLabel "k8s" "x" "y")]) /\
  ClusterID exChild24 = ClusterID exParent16 /\
  (exChild24 = canonicalPrefix exParent16 \/
   netip.covers (AsPrefix (canonicalPrefix exParent16)) (AsPrefix exChild24) = true).
Proof.
  assert (H : exChild24 ∈ fst (upsertLocked listOrder exParents exParent16
                source.Local "r2" [MLabels (exLabel "k8s" "x" "y")]))
    by compute_done.
  split; [exact H|].
  exact (affected_prefixes_within listOrder exParents exParent16 source.Local
           "r2" [MLabels (exLabel "k8s" "x" "y")] [] exChild24 (or_introl H)).
Defined.

(** X9, at a contribution with an identity override. *)
Lemma resolveIdentity_override_witness :
  let info := mkResourceInfo (exLabel "k8s" "a" "b") source.Local
                None None None true None in
  let ipc := @mkIPCache exAllocator exParents 0%N [] in
  IdentityOverride info = true /\
  ipc_allocCalls (snd (resolveIdentity exConfig listOrder ipc exChild24 info))
    = ([] ++ [(ToLabels info, false, InvalidIdentity)])%list /\
  ipc_metadata (snd (resolveIdentity exConfig listOrder ipc exChild24 info))
    = exParents.
Proof.
  cbn zeta. split; [reflexivity|].
  destruct (resolveIdentity_override exAllocator exConfig listOrder
              (@mkIPCache exAllocator exParents 0%N []) exChild24
              (mkResourceInfo (exLabel "k8s" "a" "b") source.Local
                 None None None true None) eq_refl)
    as (_ & _ & Hcalls & Hmd).
  split; [exact Hcalls | exact Hmd].
Defined.


(** X11, at a host prefix on the empty store. *)
Lemma updateReservedHostLabels_remove_witness :
  rangeValid listOrder /\
  ID (fst (updateReservedHostLabels listOrder newMetadata (AsPrefix exHost) None))
    = ReservedIdentityHost /\
  Labels_ (fst (updateReservedHostLabels listOrder newMetadata (AsPrefix exHost) None))
    = LabelHost.
Proof.
  split; [exact listOrder_valid|].
  pose proof (updateReservedHostLabels_remove listOrder newMetadata
                (AsPrefix exHost) LabelHost listOrder_valid) as H.
  cbn zeta in H. destruct H as (Hid & _ & _ & Hl & _).
  split; [exact Hid|]. apply Hl. intros p _. reflexivity.
Defined.

(** X12, at the labels of a host address: [reserved:host] is kept. *)
Lemma resolveLabels_in_cluster_exact_witness :
  marksInCluster (ToLabels exHostInfo) = true /\
  (resolveLabels exConfig (ToLabels exHostInfo) exHost !! IDNameHost
     = Some (reservedLabel IDNameHost) <->
   keptInCluster exConfig (ToLabels exHostInfo) IDNameHost
     (reservedLabel IDNameHost)).
Proof.
  split; [reflexivity|].
  exact (resolveLabels_in_cluster_exact exConfig (ToLabels exHostInfo) exHost
           IDNameHost (reservedLabel IDNameHost) eq_refl).
Defined.

(** X14, at the empty store. *)
Lemma mergeParentLabels_no_ancestors_witness :
  (forall b : nat, (Z.of_nat b < netip.Bits (AsPrefix exChild24))%Z ->
     m newMetadata !! canonicalPrefix (ancestor exChild24 (Z.of_nat b)) = None) /\
  mergeParentLabels listOrder newMetadata (exLabel "k8s" "d" "e") exChild24
    = (exLabel "k8s" "d" "e", newMetadata).
Proof.
  assert (H : forall b : nat, (Z.of_nat b < netip.Bits (AsPrefix exChild24))%Z ->
     m newMetadata !! canonicalPrefix (ancestor exChild24 (Z.of_nat b)) = None).
  { intros b _. reflexivity. }
  split; [exact H|].
  exact (mergeParentLabels_no_ancestors listOrder newMetadata
           (exLabel "k8s" "d" "e") exChild24 H).
Defined.



(** X19, at three queued prefixes, chunks of two and an injector that
    succeeds. *)
Lemma handleLabelInjection_success_witness :
  injectorQuiet exInjector /\
  exists st' chunks,
    handleLabelInjection listOrder exInjector 2 3 CacheSynced (exQueued, 0%nat)
      = Some (None, st', chunks) /\
    queuedPrefixes (fst st') = ∅ /\
    injectedRevision (fst st') = queuedRevision exQueued.
Proof.
  assert (Hq : injectorQuiet exInjector).
  { intros st chunk. cbn. repeat split. }
  split; [exact Hq|].
  destruct (handleLabelInjection_success listOrder exInjector 2 3 CacheSynced
              (exQueued, 0%nat) Hq ltac:(reflexivity) ltac:(discriminate)
              ltac:(lia) ltac:(vm_compute; lia))
    as (st' & chunks & He & _ & _ & Hqp & _ & Hir & _).
  exists st', chunks. split; [exact He|]. split; [exact Hqp | exact Hir].
Defined.

(** X21, at three repetitions of one message: at 0 s, at 1 s and one
    nanosecond after the minute. *)
Lemma k8sError_rate_limited_witness :
  let calls := [("connection refused", 0%Z);
                ("connection refused", 1000000000%Z);
                ("connection refused", 60000000001%Z)] in
  fst (k8sErrorCalls ∅ calls) = [true; false; true] /\
  (0 + k8sErrLogTimeout < 60000000001)%Z.
Proof.
  cbn zeta. split; [reflexivity|].
  destruct (k8sError_rate_limited ∅
              [("connection refused", 0%Z);
               ("connection refused", 1000000000%Z);
               ("connection refused", 60000000001%Z)]
              0 2 "connection refused" 0 60000000001
              ltac:(lia) eq_refl eq_refl eq_refl eq_refl) as [H _].
  exact H.
Defined.

(** X23, at three queued prefixes. *)
Lemma dequeue_drains_witness :
  rangeValid listOrder /\
  fst (fst (dequeuePrefixUpdates listOrder
              (snd (dequeuePrefixUpdates listOrder exQueued)))) = [] /\
  enqueuePrefixUpdates (snd (enqueuePrefixUpdates exQueued [exParent8]))
    [exParent8] = enqueuePrefixUpdates exQueued [exParent8].
Proof.
  split; [exact listOrder_valid|].
  pose proof (dequeue_drains listOrder exQueued [exParent8] listOrder_valid)
    as H.
  cbn zeta in H. destruct H as (He & _ & _ & Hq).
  split; [exact He | exact Hq].
Defined.

